(** * Mipmap generation demo: layout transitions, mip chains, memory types,
      swap extents and the frame loop

    A shallow embedding of [src/main.cpp].  Every function of the program
    that records or submits GPU work is embedded as a function producing the
    list of API calls it makes, in order, together with its outcome (normal
    return or the C++ exception it throws).  Answers of the driver and of the
    window system are inputs of the embedded functions.

    Machine integers are [Z] with the wrap-around written out where the
    source can wrap. *)

From Stdlib Require Import ZArith Lia String SpecFloat.
From stdpp Require Import base decidable option list list_numbers relations gmap.
From Equations Require Import Equations.

Local Open Scope Z_scope.

(** ** Machine integers *)

(** Conversion to [uint32_t]. *)
Definition u32 (z : Z) : Z := z mod 2 ^ 32.

Definition UINT32_MAX : Z := 2 ^ 32 - 1.
Definition INT32_MAX : Z := 2 ^ 31 - 1.

(** ** The part of the Vulkan headers the program uses

    Enumerations are inductive types; flag bits keep the numeric values of
    [vulkan_core.h]. *)
Module Vk.

Inductive VkImageLayout :=
| VK_IMAGE_LAYOUT_UNDEFINED
| VK_IMAGE_LAYOUT_GENERAL
| VK_IMAGE_LAYOUT_COLOR_ATTACHMENT_OPTIMAL
| VK_IMAGE_LAYOUT_DEPTH_STENCIL_ATTACHMENT_OPTIMAL
| VK_IMAGE_LAYOUT_DEPTH_STENCIL_READ_ONLY_OPTIMAL
| VK_IMAGE_LAYOUT_SHADER_READ_ONLY_OPTIMAL
| VK_IMAGE_LAYOUT_TRANSFER_SRC_OPTIMAL
| VK_IMAGE_LAYOUT_TRANSFER_DST_OPTIMAL
| VK_IMAGE_LAYOUT_PREINITIALIZED
| VK_IMAGE_LAYOUT_PRESENT_SRC_KHR.

#[global] Instance VkImageLayout_eq_dec : EqDecision VkImageLayout.
Proof. solve_decision. Defined.

Inductive VkResult :=
| VK_SUCCESS
| VK_NOT_READY
| VK_TIMEOUT
| VK_SUBOPTIMAL_KHR
| VK_ERROR_OUT_OF_HOST_MEMORY
| VK_ERROR_OUT_OF_DEVICE_MEMORY
| VK_ERROR_DEVICE_LOST
| VK_ERROR_SURFACE_LOST_KHR
| VK_ERROR_OUT_OF_DATE_KHR.

#[global] Instance VkResult_eq_dec : EqDecision VkResult.
Proof. solve_decision. Defined.

Inductive VkFilter := VK_FILTER_NEAREST | VK_FILTER_LINEAR.

Definition VkAccessFlags := Z.
Definition VK_ACCESS_SHADER_READ_BIT : VkAccessFlags := 0x20.
Definition VK_ACCESS_TRANSFER_READ_BIT : VkAccessFlags := 0x800.
Definition VK_ACCESS_TRANSFER_WRITE_BIT : VkAccessFlags := 0x1000.

Definition VkPipelineStageFlags := Z.
Definition VK_PIPELINE_STAGE_TOP_OF_PIPE_BIT : VkPipelineStageFlags := 0x1.
Definition VK_PIPELINE_STAGE_FRAGMENT_SHADER_BIT : VkPipelineStageFlags := 0x80.
Definition VK_PIPELINE_STAGE_COLOR_ATTACHMENT_OUTPUT_BIT : VkPipelineStageFlags := 0x400.
Definition VK_PIPELINE_STAGE_TRANSFER_BIT : VkPipelineStageFlags := 0x1000.

Definition VkFormatFeatureFlags := Z.
Definition VK_FORMAT_FEATURE_SAMPLED_IMAGE_FILTER_LINEAR_BIT : VkFormatFeatureFlags := 0x1000.

Definition VkMemoryPropertyFlags := Z.
Definition VK_MEMORY_PROPERTY_DEVICE_LOCAL_BIT : VkMemoryPropertyFlags := 0x1.
Definition VK_MEMORY_PROPERTY_HOST_VISIBLE_BIT : VkMemoryPropertyFlags := 0x2.
Definition VK_MEMORY_PROPERTY_HOST_COHERENT_BIT : VkMemoryPropertyFlags := 0x4.

(** [VK_MAX_MEMORY_TYPES]: the length of the [memoryTypes] array. *)
Definition VK_MAX_MEMORY_TYPES : Z := 32.

Definition VkFormat := Z.
Definition VK_FORMAT_R8G8B8A8_SRGB : VkFormat := 43.

(** Opaque handles. *)
Definition VkImage := Z.

Record VkExtent2D := { width : Z; height : Z }.

(** [VkImageMemoryBarrier], the fields the program sets. *)
Record VkImageMemoryBarrier := {
  oldLayout : VkImageLayout;
  newLayout : VkImageLayout;
  image : VkImage;
  baseMipLevel : Z;
  levelCount : Z;
  srcAccessMask : VkAccessFlags;
  dstAccessMask : VkAccessFlags
}.

(** [VkImageBlit]: [srcOffsets[0]] and [dstOffsets[0]] are always
    [{0,0,0}] in the program, and the third component of the second offsets
    is always [1]; the record keeps the x and y of [srcOffsets[1]] and
    [dstOffsets[1]]. *)
Record VkImageBlit := {
  srcMipLevel : Z;
  srcOffsets1 : Z * Z;
  dstMipLevel : Z;
  dstOffsets1 : Z * Z
}.

End Vk.
Import Vk.

(** ** API calls and the recorder *)

(** The calls the embedded functions make, with the arguments that matter. *)
Inductive Call :=
| AllocateCommandBuffers
| BeginCommandBuffer
| EndCommandBuffer
| QueueSubmitOneShot
| QueueWaitIdle
| FreeCommandBuffers
| CmdPipelineBarrier (srcStage dstStage : VkPipelineStageFlags) (barrier : VkImageMemoryBarrier)
| CmdBlitImage (img : VkImage) (srcImageLayout dstImageLayout : VkImageLayout)
               (blit : VkImageBlit) (filter : VkFilter)
| CmdCopyBufferToImage (img : VkImage) (w h : Z)
| CreateBuffer (size : Z)
| MapCopyUnmap (size : Z)
| DestroyBuffer
| FreeMemory
| CreateImage (w h mipLevels : Z)
| AllocateMemory (memoryTypeIndex : Z)
| BindMemory.

(** C++ exceptions thrown by the program. *)
Inductive exn :=
| runtime_error (what : string)
| invalid_argument (what : string).

(** A run of a recording function: the calls made so far, and either the
    exception that ended the run or the value returned. *)
Record Run (A : Type) := mkRun { calls : list Call; outcome : exn + A }.
Arguments mkRun {A} _ _.
Arguments calls {A} _.
Arguments outcome {A} _.

#[global] Instance Run_ret : MRet Run := λ A a, mkRun [] (inr a).

#[global] Instance Run_bind : MBind Run := λ A B f r,
  match outcome r with
  | inl e => mkRun (calls r) (inl e)
  | inr a => mkRun (calls r ++ calls (f a)) (outcome (f a))
  end.

Definition throw {A} (e : exn) : Run A := mkRun [] (inl e).
Definition emit (c : Call) : Run unit := mkRun [c] (inr tt).
Definition emit_all (cs : list Call) : Run unit := mkRun cs (inr tt).

Definition returns {A} (r : Run A) : Prop := ∃ a, outcome r = inr a.
Definition throws {A} (r : Run A) (e : exn) : Prop := outcome r = inl e.

(** The barriers and the blits among a list of calls, in order. *)
Definition barriers (cs : list Call) : list VkImageMemoryBarrier :=
  omap (λ c, match c with CmdPipelineBarrier _ _ b => Some b | _ => None end) cs.

Definition blits (cs : list Call) : list VkImageBlit :=
  omap (λ c, match c with CmdBlitImage _ _ _ b _ => Some b | _ => None end) cs.

(** ** Transfer engine *)
Module Transfer.

Definition beginSingleTimeCommands : Run unit :=
  emit AllocateCommandBuffers ;;
  emit BeginCommandBuffer.

Definition endSingleTimeCommands : Run unit :=
  emit EndCommandBuffer ;;
  emit QueueSubmitOneShot ;;
  emit QueueWaitIdle ;;
  emit FreeCommandBuffers.

(** [transitionImageLayout].  The two lambdas of the source test the same
    two layout pairs in the same order; each throws on any other pair.
    [format] is not used by the source either. *)
Definition transitionImageLayout (img : VkImage) (format : VkFormat)
    (oldLayout newLayout : VkImageLayout) (mipLevels : Z) : Run unit :=
  beginSingleTimeCommands ;;
  '(srcAccessMask, dstAccessMask) ←
    (if bool_decide (oldLayout = VK_IMAGE_LAYOUT_UNDEFINED)
        && bool_decide (newLayout = VK_IMAGE_LAYOUT_TRANSFER_DST_OPTIMAL)
     then mret (0, VK_ACCESS_TRANSFER_WRITE_BIT)
     else if bool_decide (oldLayout = VK_IMAGE_LAYOUT_TRANSFER_DST_OPTIMAL)
        && bool_decide (newLayout = VK_IMAGE_LAYOUT_SHADER_READ_ONLY_OPTIMAL)
     then mret (VK_ACCESS_TRANSFER_WRITE_BIT, VK_ACCESS_SHADER_READ_BIT)
     else throw (invalid_argument "unsupported layout transition!"));
  '(sourceStage, destinationStage) ←
    (if bool_decide (oldLayout = VK_IMAGE_LAYOUT_UNDEFINED)
        && bool_decide (newLayout = VK_IMAGE_LAYOUT_TRANSFER_DST_OPTIMAL)
     then mret (VK_PIPELINE_STAGE_TOP_OF_PIPE_BIT, VK_PIPELINE_STAGE_TRANSFER_BIT)
     else if bool_decide (oldLayout = VK_IMAGE_LAYOUT_TRANSFER_DST_OPTIMAL)
        && bool_decide (newLayout = VK_IMAGE_LAYOUT_SHADER_READ_ONLY_OPTIMAL)
     then mret (VK_PIPELINE_STAGE_TRANSFER_BIT, VK_PIPELINE_STAGE_FRAGMENT_SHADER_BIT)
     else throw (invalid_argument "unsupported layout transition!"));
  emit (CmdPipelineBarrier sourceStage destinationStage
          {| oldLayout := oldLayout;
             newLayout := newLayout;
             image := img;
             baseMipLevel := 0;
             levelCount := mipLevels;
             srcAccessMask := srcAccessMask;
             dstAccessMask := dstAccessMask |}) ;;
  endSingleTimeCommands.

(** The closed table of layout pairs the source recognises. *)
Definition recognized (oldLayout newLayout : VkImageLayout) : Prop :=
  (oldLayout = VK_IMAGE_LAYOUT_UNDEFINED
     ∧ newLayout = VK_IMAGE_LAYOUT_TRANSFER_DST_OPTIMAL)
  ∨ (oldLayout = VK_IMAGE_LAYOUT_TRANSFER_DST_OPTIMAL
     ∧ newLayout = VK_IMAGE_LAYOUT_SHADER_READ_ONLY_OPTIMAL).

End Transfer.



(** ** Device resource factory *)
Module Memory.

Record VkMemoryType := { propertyFlags : VkMemoryPropertyFlags; heapIndex : Z }.

(** [VkPhysicalDeviceMemoryProperties]: the number of valid entries and the
    [memoryTypes] array (of [VK_MAX_MEMORY_TYPES] entries in the header). *)
Record VkPhysicalDeviceMemoryProperties := {
  memoryTypeCount : Z;
  memoryTypes : list VkMemoryType
}.

#[global] Instance VkMemoryType_inhabited : Inhabited VkMemoryType :=
  populate {| propertyFlags := 0; heapIndex := 0 |}.

(** [memProperties.memoryTypes[i]]. *)
Definition memoryType_at (memProperties : VkPhysicalDeviceMemoryProperties) (i : Z) : VkMemoryType :=
  memoryTypes memProperties !!! Z.to_nat i.

(** The test of the loop body:
    [(typeFilter & (1 << i)) && (propertyFlags & properties) == properties]. *)
Definition suitable_at (memProperties : VkPhysicalDeviceMemoryProperties)
    (typeFilter : Z) (properties : VkMemoryPropertyFlags) (i : Z) : bool :=
  negb (Z.land typeFilter (u32 (Z.shiftl 1 i)) =? 0)
  && (Z.land (propertyFlags (memoryType_at memProperties i)) properties =? properties).

(** The [for] loop of [findMemoryType], entered at index [i]; [None] is the
    fall-through past the loop. *)
Equations? scan (memProperties : VkPhysicalDeviceMemoryProperties)
    (typeFilter : Z) (properties : VkMemoryPropertyFlags) (i : Z) : option Z
    by wf (Z.to_nat (memoryTypeCount memProperties - i)) lt :=
  scan memProperties typeFilter properties i with Z_lt_dec i (memoryTypeCount memProperties) := {
    | left _ =>
        if suitable_at memProperties typeFilter properties i then Some i
        else scan memProperties typeFilter properties (i + 1)
    | right _ => None }.
Proof. lia. Defined.

Definition findMemoryType (memProperties : VkPhysicalDeviceMemoryProperties)
    (typeFilter : Z) (properties : VkMemoryPropertyFlags) : exn + Z :=
  match scan memProperties typeFilter properties 0 with
  | Some i => inr i
  | None => inl (runtime_error "failed to find suitable memory type!")
  end.

(** Index [i] is acceptable: bit [i] of the filter is set and the property
    flags of type [i] include every requested property bit. *)
Definition suitable (memProperties : VkPhysicalDeviceMemoryProperties)
    (typeFilter : Z) (properties : VkMemoryPropertyFlags) (i : Z) : Prop :=
  Z.testbit typeFilter i = true
  ∧ ∀ k, Z.testbit properties k = true →
         Z.testbit (propertyFlags (memoryType_at memProperties i)) k = true.

(** What the driver answers while a buffer or an image is created. *)
Record Device := {
  memProperties : VkPhysicalDeviceMemoryProperties;
  optimalTilingFeatures : VkFormat → VkFormatFeatureFlags;
  resultCreateBuffer : VkResult;
  bufferMemoryTypeBits : Z;
  resultCreateImage : VkResult;
  imageMemoryTypeBits : Z;
  resultAllocateMemory : VkResult
}.

Definition lift_exn {A} (r : exn + A) : Run A := mkRun [] r.

(** [createBuffer]; the value returned is the index of the memory type the
    allocation uses. *)
Definition createBuffer (dev : Device) (size : Z) (properties : VkMemoryPropertyFlags) : Run Z :=
  emit (CreateBuffer size) ;;
  (if bool_decide (resultCreateBuffer dev ≠ VK_SUCCESS)
   then throw (runtime_error "failed to create buffer!") else mret tt) ;;
  memoryTypeIndex ← lift_exn (findMemoryType (memProperties dev) (bufferMemoryTypeBits dev) properties);
  emit (AllocateMemory memoryTypeIndex) ;;
  (if bool_decide (resultAllocateMemory dev ≠ VK_SUCCESS)
   then throw (runtime_error "failed to allocate buffer memory!") else mret tt) ;;
  emit BindMemory ;;
  mret memoryTypeIndex.

(** [createImage], likewise. *)
Definition createImage (dev : Device) (w h mipLevels : Z) (properties : VkMemoryPropertyFlags) : Run Z :=
  emit (CreateImage w h mipLevels) ;;
  (if bool_decide (resultCreateImage dev ≠ VK_SUCCESS)
   then throw (runtime_error "failed to create image!") else mret tt) ;;
  memoryTypeIndex ← lift_exn (findMemoryType (memProperties dev) (imageMemoryTypeBits dev) properties);
  emit (AllocateMemory memoryTypeIndex) ;;
  (if bool_decide (resultAllocateMemory dev ≠ VK_SUCCESS)
   then throw (runtime_error "failed to allocate image memory!") else mret tt) ;;
  emit BindMemory ;;
  mret memoryTypeIndex.

End Memory.

(** ** Mipmap generator *)
Module Mipmap.

(** [if (x > 1) x /= 2;] on [int32_t]: C++ division truncates. *)
Definition halve (x : Z) : Z := if x >? 1 then x ÷ 2 else x.

(** [x > 1 ? x / 2 : 1]. *)
Definition half_or_one (x : Z) : Z := if x >? 1 then x ÷ 2 else 1.

(** The three commands of one loop iteration. *)
Definition mip_iteration (img : VkImage) (i mipWidth mipHeight : Z) : list Call :=
  [ CmdPipelineBarrier VK_PIPELINE_STAGE_TRANSFER_BIT VK_PIPELINE_STAGE_TRANSFER_BIT
      {| oldLayout := VK_IMAGE_LAYOUT_TRANSFER_DST_OPTIMAL;
         newLayout := VK_IMAGE_LAYOUT_TRANSFER_SRC_OPTIMAL;
         image := img;
         baseMipLevel := u32 (i - 1);
         levelCount := 1;
         srcAccessMask := VK_ACCESS_TRANSFER_WRITE_BIT;
         dstAccessMask := VK_ACCESS_TRANSFER_READ_BIT |};
    CmdBlitImage img VK_IMAGE_LAYOUT_TRANSFER_SRC_OPTIMAL VK_IMAGE_LAYOUT_TRANSFER_DST_OPTIMAL
      {| srcMipLevel := u32 (i - 1);
         srcOffsets1 := (mipWidth, mipHeight);
         dstMipLevel := i;
         dstOffsets1 := (half_or_one mipWidth, half_or_one mipHeight) |}
      VK_FILTER_LINEAR;
    CmdPipelineBarrier VK_PIPELINE_STAGE_TRANSFER_BIT VK_PIPELINE_STAGE_FRAGMENT_SHADER_BIT
      {| oldLayout := VK_IMAGE_LAYOUT_TRANSFER_SRC_OPTIMAL;
         newLayout := VK_IMAGE_LAYOUT_SHADER_READ_ONLY_OPTIMAL;
         image := img;
         baseMipLevel := u32 (i - 1);
         levelCount := 1;
         srcAccessMask := VK_ACCESS_TRANSFER_READ_BIT;
         dstAccessMask := VK_ACCESS_SHADER_READ_BIT |} ].

(** [for (uint32_t i = 1; i < mipLevels; i++)], entered at [i] with the
    current [mipWidth] and [mipHeight].  [i++] cannot wrap: [i < mipLevels]
    and [mipLevels] is a [uint32_t]. *)
Equations? mip_loop (img : VkImage) (mipLevels i mipWidth mipHeight : Z) : list Call
    by wf (Z.to_nat (mipLevels - i)) lt :=
  mip_loop img mipLevels i mipWidth mipHeight with Z_lt_dec i mipLevels := {
    | left _ =>
        mip_iteration img i mipWidth mipHeight
        ++ mip_loop img mipLevels (i + 1) (halve mipWidth) (halve mipHeight)
    | right _ => [] }.
Proof. lia. Defined.

(** The barrier recorded after the loop, on level [mipLevels - 1]. *)
Definition last_barrier (img : VkImage) (mipLevels : Z) : Call :=
  CmdPipelineBarrier VK_PIPELINE_STAGE_TRANSFER_BIT VK_PIPELINE_STAGE_FRAGMENT_SHADER_BIT
    {| oldLayout := VK_IMAGE_LAYOUT_TRANSFER_DST_OPTIMAL;
       newLayout := VK_IMAGE_LAYOUT_SHADER_READ_ONLY_OPTIMAL;
       image := img;
       baseMipLevel := u32 (mipLevels - 1);
       levelCount := 1;
       srcAccessMask := VK_ACCESS_TRANSFER_WRITE_BIT;
       dstAccessMask := VK_ACCESS_SHADER_READ_BIT |}.

Definition generateMipmaps (dev : Memory.Device) (img : VkImage) (imageFormat : VkFormat)
    (texWidth texHeight : Z) (mipLevels : Z) : Run unit :=
  (if Z.land (Memory.optimalTilingFeatures dev imageFormat)
             VK_FORMAT_FEATURE_SAMPLED_IMAGE_FILTER_LINEAR_BIT =? 0
   then throw (runtime_error "texture image format does not support linear blitting!")
   else mret tt) ;;
  Transfer.beginSingleTimeCommands ;;
  emit_all (mip_loop img mipLevels 1 texWidth texHeight) ;;
  emit (last_barrier img mipLevels) ;;
  Transfer.endSingleTimeCommands.

(** The extent the specification gives for mip level [i] of a dimension [w]. *)
Definition level_size (w i : Z) : Z := Z.max 1 (w / 2 ^ i).

End Mipmap.

(** ** What recorded commands do to the layouts of an image

    The layout of every mip level of one image, level 0 first.  A barrier is
    valid when the levels it covers exist and are in its [oldLayout] (or the
    barrier discards the contents with [oldLayout = UNDEFINED]); it leaves them
    in its [newLayout].  A blit is valid when the source and destination levels
    are in the layouts the call names. *)
Module ImageState.

Definition apply_barrier (ls : list VkImageLayout) (b : VkImageMemoryBarrier)
    : option (list VkImageLayout) :=
  let base := Z.to_nat (baseMipLevel b) in
  let n := Z.to_nat (levelCount b) in
  if bool_decide (0 ≤ baseMipLevel b) && bool_decide (1 ≤ levelCount b)
     && bool_decide (base + n ≤ length ls)%nat
     && (bool_decide (oldLayout b = VK_IMAGE_LAYOUT_UNDEFINED)
         || forallb (λ l, bool_decide (l = oldLayout b)) (take n (drop base ls)))
  then Some (take base ls ++ replicate n (newLayout b) ++ drop (base + n) ls)
  else None.

Definition apply_blit (ls : list VkImageLayout) (srcLayout dstLayout : VkImageLayout)
    (b : VkImageBlit) : option (list VkImageLayout) :=
  if bool_decide (0 ≤ srcMipLevel b) && bool_decide (0 ≤ dstMipLevel b)
     && bool_decide (ls !! Z.to_nat (srcMipLevel b) = Some srcLayout)
     && bool_decide (ls !! Z.to_nat (dstMipLevel b) = Some dstLayout)
  then Some ls else None.

Definition exec_call (ls : list VkImageLayout) (c : Call) : option (list VkImageLayout) :=
  match c with
  | CmdPipelineBarrier _ _ b => apply_barrier ls b
  | CmdBlitImage _ srcLayout dstLayout b _ => apply_blit ls srcLayout dstLayout b
  | _ => Some ls
  end.

Fixpoint exec_calls (cs : list Call) (ls : list VkImageLayout) : option (list VkImageLayout) :=
  match cs with
  | [] => Some ls
  | c :: cs' => ls' ← exec_call ls c; exec_calls cs' ls'
  end.

(** Levels [0 .. done-1] are shader-read-only and levels [done .. total-1]
    are still transfer destinations: the state of the image between two
    iterations of the mip loop. *)
Definition chain (done total : nat) : list VkImageLayout :=
  replicate done VK_IMAGE_LAYOUT_SHADER_READ_ONLY_OPTIMAL
  ++ replicate (total - done) VK_IMAGE_LAYOUT_TRANSFER_DST_OPTIMAL.

End ImageState.

(** ** What the calls around a single-use command buffer do

    Commands are recorded between [vkBeginCommandBuffer] and
    [vkEndCommandBuffer] and do nothing until the command buffer is submitted;
    the device has run a submitted buffer by the time [vkQueueWaitIdle]
    returns.  The state is the life cycle of the one command buffer
    [beginSingleTimeCommands] allocates, and the mip-level layouts of the
    images the device holds, by handle.  A call the API does not allow in the
    state given has no successor state. *)
Module Gpu.

Inductive CommandBufferState :=
| Unallocated
| Initial
| Recording (cmds : list Call)
| Executable (cmds : list Call)
| Pending (cmds : list Call)
| Invalid.

Record State := {
  commandBuffer : CommandBufferState;
  images : gmap VkImage (list VkImageLayout)
}.

(** The calls that record a command. *)
Definition is_command (c : Call) : bool :=
  match c with
  | CmdPipelineBarrier _ _ _ | CmdBlitImage _ _ _ _ _ | CmdCopyBufferToImage _ _ _ => true
  | _ => false
  end.

(** The barriers and blits that name the image [img]. *)
Definition on_image (img : VkImage) (c : Call) : Prop :=
  match c with
  | CmdPipelineBarrier _ _ b => image b = img
  | CmdBlitImage i _ _ _ _ => i = img
  | _ => False
  end.

(** The device runs one recorded command: it acts on the image the command
    names.  The buffer-to-image copy of the program writes level 0, which it
    declares to be a transfer destination. *)
Definition exec_command (imgs : gmap VkImage (list VkImageLayout)) (c : Call)
    : option (gmap VkImage (list VkImageLayout)) :=
  match c with
  | CmdPipelineBarrier _ _ b =>
      ls ← imgs !! image b;
      ls' ← ImageState.apply_barrier ls b;
      Some (<[image b := ls']> imgs)
  | CmdBlitImage img srcLayout dstLayout b _ =>
      ls ← imgs !! img;
      ls' ← ImageState.apply_blit ls srcLayout dstLayout b;
      Some (<[img := ls']> imgs)
  | CmdCopyBufferToImage img _ _ =>
      ls ← imgs !! img;
      if bool_decide (ls !! 0%nat = Some VK_IMAGE_LAYOUT_TRANSFER_DST_OPTIMAL)
      then Some imgs else None
  | _ => None
  end.

Fixpoint exec_commands (cs : list Call) (imgs : gmap VkImage (list VkImageLayout))
    : option (gmap VkImage (list VkImageLayout)) :=
  match cs with
  | [] => Some imgs
  | c :: cs' => imgs' ← exec_command imgs c; exec_commands cs' imgs'
  end.

Definition with_buffer (b : CommandBufferState) (s : State) : State :=
  {| commandBuffer := b; images := images s |}.

(** One call of the program. *)
Definition call (s : State) (c : Call) : option State :=
  match c with
  | AllocateCommandBuffers =>
      match commandBuffer s with
      | Unallocated => Some (with_buffer Initial s)
      | _ => None
      end
  | BeginCommandBuffer =>
      match commandBuffer s with
      | Initial => Some (with_buffer (Recording []) s)
      | _ => None
      end
  | CmdPipelineBarrier _ _ _ | CmdBlitImage _ _ _ _ _ | CmdCopyBufferToImage _ _ _ =>
      match commandBuffer s with
      | Recording cmds => Some (with_buffer (Recording (cmds ++ [c])) s)
      | _ => None
      end
  | EndCommandBuffer =>
      match commandBuffer s with
      | Recording cmds => Some (with_buffer (Executable cmds) s)
      | _ => None
      end
  | QueueSubmitOneShot =>
      match commandBuffer s with
      | Executable cmds => Some (with_buffer (Pending cmds) s)
      | _ => None
      end
  | QueueWaitIdle =>
      match commandBuffer s with
      | Pending cmds =>
          imgs ← exec_commands cmds (images s);
          Some {| commandBuffer := Invalid; images := imgs |}
      | _ => Some s
      end
  | FreeCommandBuffers =>
      match commandBuffer s with
      | Unallocated | Pending _ => None
      | _ => Some (with_buffer Unallocated s)
      end
  | CreateBuffer _ | MapCopyUnmap _ | DestroyBuffer | FreeMemory
  | CreateImage _ _ _ | AllocateMemory _ | BindMemory => Some s
  end.

Fixpoint run (cs : list Call) (s : State) : option State :=
  match cs with
  | [] => Some s
  | c :: cs' => s' ← call s c; run cs' s'
  end.

(** No command buffer around, and the images given. *)
Definition idle (imgs : gmap VkImage (list VkImageLayout)) : State :=
  {| commandBuffer := Unallocated; images := imgs |}.

End Gpu.

(** ** Swapchain provisioner *)
Module Swapchain.

Record VkSurfaceCapabilitiesKHR := {
  currentExtent : VkExtent2D;
  minImageExtent : VkExtent2D;
  maxImageExtent : VkExtent2D
}.

(** What the window system and the surface report at one moment: the window
    size in screen coordinates, the framebuffer size in pixels (both pairs of
    [int]), and the surface capabilities. *)
Record Moment := {
  glfwGetWindowSize : Z * Z;
  glfwGetFramebufferSize : Z * Z;
  capabilities : VkSurfaceCapabilitiesKHR
}.

(** [std::clamp(v, lo, hi)]. *)
Definition clamp (v lo hi : Z) : Z :=
  if v <? lo then lo else if hi <? v then hi else v.

(** [selectSwapExtent]: the size it clamps is the one [glfwGetWindowSize]
    reports. *)
Definition selectSwapExtent (now : Moment) (capabilities : VkSurfaceCapabilitiesKHR)
    : VkExtent2D :=
  if negb (width (currentExtent capabilities) =? UINT32_MAX)
  then currentExtent capabilities
  else
    let '(_width, _height) := glfwGetWindowSize now in
    {| width := clamp (u32 _width)
                      (width (minImageExtent capabilities))
                      (width (maxImageExtent capabilities));
       height := clamp (u32 _height)
                       (height (minImageExtent capabilities))
                       (height (maxImageExtent capabilities)) |}.

(** The extent the specification describes: the framebuffer size, clamped. *)
Definition clamped_framebuffer_extent (now : Moment) (capabilities : VkSurfaceCapabilitiesKHR)
    : VkExtent2D :=
  let '(w, h) := glfwGetFramebufferSize now in
  {| width := clamp (u32 w)
                    (width (minImageExtent capabilities))
                    (width (maxImageExtent capabilities));
     height := clamp (u32 h)
                     (height (minImageExtent capabilities))
                     (height (maxImageExtent capabilities)) |}.

Inductive SwapEvent :=
| GetFramebufferSize (size : Z * Z)
| WaitEvents
| DeviceWaitIdle
| CleanupSwapChain
| CreateSwapChain (extent : VkExtent2D)
| CreateImageViews
| CreateDepthResources
| CreateFramebuffers.

(** [createSwapChain], as far as the extent goes: it queries the surface
    and hands [selectSwapExtent]'s answer to [vkCreateSwapchainKHR]. *)
Definition createSwapChain (now : Moment) : list SwapEvent :=
  [CreateSwapChain (selectSwapExtent now (capabilities now))].

(** The [while (width == 0 || height == 0)] loop of [recreateSwapChain].
    The window system is a sequence of moments, one for each time the program
    asks it something; [k] counts the questions asked so far and
    [(width, height)] is the last answer.  The loop has no bound of its own:
    [fuel] bounds the number of iterations looked at, and [None] says the loop
    is still running after that many.  On exit the function returns the
    number of questions asked and the events of the loop. *)
Fixpoint wait_nonzero (fuel : nat) (env : nat → Moment) (k : nat) (width height : Z)
    : option (nat * list SwapEvent) :=
  if (width =? 0) || (height =? 0) then
    match fuel with
    | O => None
    | S fuel' =>
        let '(width', height') := glfwGetFramebufferSize (env k) in
        '(k', evs) ← wait_nonzero fuel' env (S k) width' height';
        Some (k', GetFramebufferSize (width', height') :: WaitEvents :: evs)
    end
  else Some (k, []).

(** The events of [n] iterations of that loop, the first of which asks
    question [k]. *)
Definition poll_events (env : nat → Moment) (k n : nat) : list SwapEvent :=
  flat_map (λ j, [GetFramebufferSize (glfwGetFramebufferSize (env j)); WaitEvents]) (seq k n).

(** [recreateSwapChain]. *)
Definition recreateSwapChain (fuel : nat) (env : nat → Moment) : option (list SwapEvent) :=
  let '(width, height) := glfwGetFramebufferSize (env 0%nat) in
  '(k, evs) ← wait_nonzero fuel env 1%nat width height;
  Some (GetFramebufferSize (width, height) :: evs
        ++ [DeviceWaitIdle; CleanupSwapChain]
        ++ createSwapChain (env k)
        ++ [CreateImageViews; CreateDepthResources; CreateFramebuffers]).

Definition is_zero_size (s : Z * Z) : bool := (s.1 =? 0) || (s.2 =? 0).

End Swapchain.

(** ** Frame synchronizer *)
Module Frame.

Inductive FrameCall :=
| WaitForFences (slot : Z)
| AcquireNextImage (slot : Z)
| RecreateSwapChain
| UpdateUniformBuffer (slot : Z)
| ResetFences (slot : Z)
| ResetCommandBuffer (slot : Z)
| RecordCommandBuffer (slot : Z) (imageIndex : Z)
| QueueSubmit (slot : Z)
| QueuePresent (imageIndex : Z)
| SetFramebufferResized (flag : bool).

#[global] Instance FrameCall_eq_dec : EqDecision FrameCall.
Proof. solve_decision. Defined.

(** The members of [App] the frame loop works on, and the state of the GPU
    they stand for.  [m_inFlightFences !! i] tells whether fence [i] is
    signaled; [outstanding !! i] counts the submissions of command buffer [i]
    the GPU has not finished (each signals fence [i] when it finishes). *)
Record App := {
  m_currentFrame : Z;
  m_inFlightFences : list bool;
  outstanding : list nat;
  framebufferResized : bool
}.

(** What [draw] is answered by the calls it makes: the results of the driver,
    in the order of the calls, and how [recreateSwapChain] ends when [draw]
    calls it, by returning or by the exception one of the creation functions
    under it throws.  ([recreateSwapChain] first waits for a non-zero
    framebuffer, see [Swapchain.recreateSwapChain]; a [draw] whose recreation
    waits for ever does not end and has no answers.) *)
Record Answers := {
  resultAcquireNextImageKHR : VkResult;
  imageIndex : Z;
  resultBeginCommandBuffer : VkResult;
  resultEndCommandBuffer : VkResult;
  resultQueueSubmit : VkResult;
  resultQueuePresentKHR : VkResult;
  resultRecreateSwapChain : exn + unit
}.

Record Ran := { trace : list FrameCall; app : App; result : exn + unit }.

Definition fence_signaled (s : App) (slot : Z) : bool :=
  bool_decide (m_inFlightFences s !! Z.to_nat slot = Some true).

(** [vkResetFences] on one fence. *)
Definition reset_fence (slot : Z) (s : App) : App :=
  {| m_currentFrame := m_currentFrame s;
     m_inFlightFences := <[Z.to_nat slot := false]> (m_inFlightFences s);
     outstanding := outstanding s;
     framebufferResized := framebufferResized s |}.

(** A successful [vkQueueSubmit] of command buffer [slot] with fence [slot]. *)
Definition submitted (slot : Z) (s : App) : App :=
  {| m_currentFrame := m_currentFrame s;
     m_inFlightFences := m_inFlightFences s;
     outstanding := alter S (Z.to_nat slot) (outstanding s);
     framebufferResized := framebufferResized s |}.

Definition set_resized (flag : bool) (s : App) : App :=
  {| m_currentFrame := m_currentFrame s;
     m_inFlightFences := m_inFlightFences s;
     outstanding := outstanding s;
     framebufferResized := flag |}.

(** [m_currentFrame = (m_currentFrame + 1) % MAX_FRAMES_IN_FLIGHT]. *)
Definition advance (MAX_FRAMES_IN_FLIGHT : Z) (s : App) : App :=
  {| m_currentFrame := u32 (m_currentFrame s + 1) mod MAX_FRAMES_IN_FLIGHT;
     m_inFlightFences := m_inFlightFences s;
     outstanding := outstanding s;
     framebufferResized := framebufferResized s |}.

(** [draw].  [vkWaitForFences] with timeout [UINT64_MAX] returns only once
    the fence is signaled: [None] says the call is still waiting in the state
    given.  [recordCommandBuffer] throws when [vkBeginCommandBuffer] or
    [vkEndCommandBuffer] fails; an exception of [recreateSwapChain] leaves
    [draw] at the call. *)
Definition draw (MAX_FRAMES_IN_FLIGHT : Z) (a : Answers) (s : App) : option Ran :=
  let f := m_currentFrame s in
  if negb (fence_signaled s f) then None
  else
    let t0 := [WaitForFences f; AcquireNextImage f] in
    if bool_decide (resultAcquireNextImageKHR a = VK_ERROR_OUT_OF_DATE_KHR) then
      Some {| trace := t0 ++ [RecreateSwapChain]; app := s;
              result := resultRecreateSwapChain a |}
    else if bool_decide (resultAcquireNextImageKHR a ≠ VK_SUCCESS)
            && bool_decide (resultAcquireNextImageKHR a ≠ VK_SUBOPTIMAL_KHR) then
      Some {| trace := t0; app := s;
              result := inl (runtime_error "failed to acquire swap chain image!") |}
    else
      let s1 := reset_fence f s in
      let t1 := t0 ++ [UpdateUniformBuffer f; ResetFences f; ResetCommandBuffer f;
                       RecordCommandBuffer f (imageIndex a)] in
      if bool_decide (resultBeginCommandBuffer a ≠ VK_SUCCESS) then
        Some {| trace := t1; app := s1;
                result := inl (runtime_error "failed to begin recording command buffer!") |}
      else if bool_decide (resultEndCommandBuffer a ≠ VK_SUCCESS) then
        Some {| trace := t1; app := s1;
                result := inl (runtime_error "failed to record command buffer!") |}
      else if bool_decide (resultQueueSubmit a ≠ VK_SUCCESS) then
        Some {| trace := t1 ++ [QueueSubmit f]; app := s1;
                result := inl (runtime_error "failed to submit draw command buffer!") |}
      else
        let s2 := submitted f s1 in
        let t2 := t1 ++ [QueueSubmit f; QueuePresent (imageIndex a)] in
        if bool_decide (resultQueuePresentKHR a = VK_ERROR_OUT_OF_DATE_KHR)
           || bool_decide (resultQueuePresentKHR a = VK_SUBOPTIMAL_KHR)
           || framebufferResized s2 then
          Some {| trace := t2 ++ [SetFramebufferResized false; RecreateSwapChain];
                  app := match resultRecreateSwapChain a with
                         | inr _ => advance MAX_FRAMES_IN_FLIGHT (set_resized false s2)
                         | inl _ => set_resized false s2
                         end;
                  result := resultRecreateSwapChain a |}
        else if bool_decide (resultQueuePresentKHR a ≠ VK_SUCCESS) then
          Some {| trace := t2; app := s2;
                  result := inl (runtime_error "failed to present swap chain image!") |}
        else
          Some {| trace := t2; app := advance MAX_FRAMES_IN_FLIGHT s2; result := inr tt |}.

(** The state [createRenderingSyncObjects] leaves: frame 0, every fence
    created signaled, nothing submitted. *)
Definition init (MAX_FRAMES_IN_FLIGHT : Z) : App :=
  {| m_currentFrame := 0;
     m_inFlightFences := replicate (Z.to_nat MAX_FRAMES_IN_FLIGHT) true;
     outstanding := replicate (Z.to_nat MAX_FRAMES_IN_FLIGHT) 0%nat;
     framebufferResized := false |}.

(** The GPU finishes a submission of command buffer [slot]: the fence the
    submission carried becomes signaled. *)
Definition gpu_complete (slot : nat) (s : App) : App :=
  {| m_currentFrame := m_currentFrame s;
     m_inFlightFences := <[slot := true]> (m_inFlightFences s);
     outstanding := alter pred slot (outstanding s);
     framebufferResized := framebufferResized s |}.

(** One step of the running program: the GPU finishes a submission, the
    resize callback fires during [glfwPollEvents], or [mainLoop] runs one
    [draw] that returns normally. *)
Inductive step (MAX_FRAMES_IN_FLIGHT : Z) : App → App → Prop :=
| step_gpu s slot n :
    outstanding s !! slot = Some (S n) →
    step MAX_FRAMES_IN_FLIGHT s (gpu_complete slot s)
| step_resized s :
    step MAX_FRAMES_IN_FLIGHT s (set_resized true s)
| step_draw s a r :
    draw MAX_FRAMES_IN_FLIGHT a s = Some r →
    result r = inr tt →
    step MAX_FRAMES_IN_FLIGHT s (app r).

Definition reachable (MAX_FRAMES_IN_FLIGHT : Z) (s : App) : Prop :=
  rtc (step MAX_FRAMES_IN_FLIGHT) (init MAX_FRAMES_IN_FLIGHT) s.

(** What holds of every fence and the command buffer it guards: at most
    one submission is unfinished, and none when the fence is signaled. *)
Definition guarded (signaled : bool) (unfinished : nat) : Prop :=
  (unfinished ≤ 1)%nat ∧ (signaled = true → unfinished = 0%nat).

Definition inv (MAX_FRAMES_IN_FLIGHT : Z) (s : App) : Prop :=
  0 ≤ m_currentFrame s < MAX_FRAMES_IN_FLIGHT
  ∧ length (m_inFlightFences s) = Z.to_nat MAX_FRAMES_IN_FLIGHT
  ∧ Forall2 guarded (m_inFlightFences s) (outstanding s).

(** Command buffers the GPU has not retired, and fences not signaled. *)
Definition unretired (s : App) : nat := sum_list (outstanding s).
Definition unsignaled (s : App) : nat := length (filter (λ b, b = false) (m_inFlightFences s)).

End Frame.

(** ** Texture upload *)
Module Texture.

(** What [stbi_load] answers: whether it returned pixels, and the three
    [int]s it wrote. *)
Record StbiAnswer := {
  pixels_loaded : bool;
  textureWidth : Z;
  textureHeight : Z;
  textureChannels : Z
}.

Record StbTextureImage := { m_width : Z; m_height : Z; m_channels : Z }.

(** [static_cast<uint32_t>(std::floor(std::log2(x)))] for an integer
    [1 <= x < 2^32]: [x] converts to [double] exactly, and the floor of its
    binary logarithm is the position of its leading one bit. *)
Definition floor_log2 (x : Z) : Z := u32 (Z.log2 x).

(** [StbTextureLoader::load]; the mip count it computes is not stored. *)
Definition load (a : StbiAnswer) : exn + StbTextureImage :=
  let mipLevels := u32 (floor_log2 (Z.max (textureWidth a) (textureHeight a)) + 1) in
  if negb (pixels_loaded a) then inl (runtime_error "failed to load texture image!")
  else inr {| m_width := u32 (textureWidth a);
              m_height := u32 (textureHeight a);
              m_channels := u32 (textureChannels a) |}.

(** Conversion of a [uint32_t] to [int32_t]. *)
Definition i32 (z : Z) : Z := (z + 2 ^ 31) mod 2 ^ 32 - 2 ^ 31.

Definition copyBufferToImage (img : VkImage) (w h : Z) : Run unit :=
  Transfer.beginSingleTimeCommands ;;
  emit (CmdCopyBufferToImage img w h) ;;
  Transfer.endSingleTimeCommands.

(** The locals [mipLevels] and [imageSize] of [createTextureImage]; all
    arithmetic is [uint32_t], the product is then widened to [VkDeviceSize]. *)
Definition mipLevels_of (t : StbTextureImage) : Z :=
  u32 (floor_log2 (Z.max (m_width t) (m_height t)) + 1).

Definition imageSize_of (t : StbTextureImage) : Z :=
  let depth := u32 (m_channels t + 1) in
  u32 (u32 (m_width t * m_height t) * depth).

Record TextureMembers := { m_textureImage : VkImage; m_mipLevels : Z }.

(** [createTextureImage]; [img] is the handle [vkCreateImage] hands out. *)
Definition createTextureImage (dev : Memory.Device) (a : StbiAnswer) (img : VkImage)
    : Run TextureMembers :=
  stbTextureImage ← Memory.lift_exn (load a);
  let mipLevels := mipLevels_of stbTextureImage in
  let imageSize := imageSize_of stbTextureImage in
  Memory.createBuffer dev imageSize
    (Z.lor VK_MEMORY_PROPERTY_HOST_VISIBLE_BIT VK_MEMORY_PROPERTY_HOST_COHERENT_BIT) ;;
  emit (MapCopyUnmap imageSize) ;;
  Memory.createImage dev (m_width stbTextureImage) (m_height stbTextureImage) mipLevels
    VK_MEMORY_PROPERTY_DEVICE_LOCAL_BIT ;;
  Transfer.transitionImageLayout img VK_FORMAT_R8G8B8A8_SRGB
    VK_IMAGE_LAYOUT_UNDEFINED VK_IMAGE_LAYOUT_TRANSFER_DST_OPTIMAL mipLevels ;;
  copyBufferToImage img (m_width stbTextureImage) (m_height stbTextureImage) ;;
  emit DestroyBuffer ;;
  emit FreeMemory ;;
  Mipmap.generateMipmaps dev img VK_FORMAT_R8G8B8A8_SRGB
    (i32 (m_width stbTextureImage)) (i32 (m_height stbTextureImage)) mipLevels ;;
  mret {| m_textureImage := img; m_mipLevels := mipLevels |}.

(** The mip counts of the images a list of calls creates. *)
Definition image_mip_counts (cs : list Call) : list Z :=
  omap (λ c, match c with CreateImage _ _ m => Some m | _ => None end) cs.

End Texture.

(** ** Concrete inputs used to exercise the theorems *)
Module Demo.

(** A device with three memory types: device-local; host-visible and
    coherent; all three properties. *)
Definition device : Memory.Device :=
  {| Memory.memProperties :=
       {| Memory.memoryTypeCount := 3;
          Memory.memoryTypes :=
            [ {| Memory.propertyFlags := 0x1; Memory.heapIndex := 0 |};
              {| Memory.propertyFlags := 0x6; Memory.heapIndex := 1 |};
              {| Memory.propertyFlags := 0x7; Memory.heapIndex := 1 |} ] |};
     Memory.optimalTilingFeatures := λ _, 0x1000;
     Memory.resultCreateBuffer := VK_SUCCESS;
     Memory.bufferMemoryTypeBits := 0x6;
     Memory.resultCreateImage := VK_SUCCESS;
     Memory.imageMemoryTypeBits := 0x7;
     Memory.resultAllocateMemory := VK_SUCCESS |}.

(** Driver answers for one frame. *)
Definition all_success : Frame.Answers :=
  {| Frame.resultAcquireNextImageKHR := VK_SUCCESS;
     Frame.imageIndex := 0;
     Frame.resultBeginCommandBuffer := VK_SUCCESS;
     Frame.resultEndCommandBuffer := VK_SUCCESS;
     Frame.resultQueueSubmit := VK_SUCCESS;
     Frame.resultQueuePresentKHR := VK_SUCCESS;
     Frame.resultRecreateSwapChain := inr tt |}.

Definition acquire_out_of_date : Frame.Answers :=
  {| Frame.resultAcquireNextImageKHR := VK_ERROR_OUT_OF_DATE_KHR;
     Frame.imageIndex := 0;
     Frame.resultBeginCommandBuffer := VK_SUCCESS;
     Frame.resultEndCommandBuffer := VK_SUCCESS;
     Frame.resultQueueSubmit := VK_SUCCESS;
     Frame.resultQueuePresentKHR := VK_SUCCESS;
     Frame.resultRecreateSwapChain := inr tt |}.

(** Acquisition reports suboptimal, presentation reports success. *)
Definition acquire_suboptimal : Frame.Answers :=
  {| Frame.resultAcquireNextImageKHR := VK_SUBOPTIMAL_KHR;
     Frame.imageIndex := 0;
     Frame.resultBeginCommandBuffer := VK_SUCCESS;
     Frame.resultEndCommandBuffer := VK_SUCCESS;
     Frame.resultQueueSubmit := VK_SUCCESS;
     Frame.resultQueuePresentKHR := VK_SUCCESS;
     Frame.resultRecreateSwapChain := inr tt |}.

(** The state after the first frame of a two-frames-in-flight run. *)
Definition after_first_frame : Frame.App :=
  {| Frame.m_currentFrame := 1;
     Frame.m_inFlightFences := [false; true];
     Frame.outstanding := [1%nat; 0%nat];
     Frame.framebufferResized := false |}.

(** A high-DPI desktop whose surface leaves the extent to the swapchain:
    the window is 800 by 600 screen coordinates, its framebuffer 1600 by 1200
    pixels. *)
Definition hidpi : Swapchain.Moment :=
  {| Swapchain.glfwGetWindowSize := (800, 600);
     Swapchain.glfwGetFramebufferSize := (1600, 1200);
     Swapchain.capabilities :=
       {| Swapchain.currentExtent := {| width := UINT32_MAX; height := UINT32_MAX |};
          Swapchain.minImageExtent := {| width := 1; height := 1 |};
          Swapchain.maxImageExtent := {| width := 4096; height := 4096 |} |} |}.

(** A window of 800 by 600 pixels, and the same window minimized. *)
Definition restored : Swapchain.Moment :=
  {| Swapchain.glfwGetWindowSize := (800, 600);
     Swapchain.glfwGetFramebufferSize := (800, 600);
     Swapchain.capabilities :=
       {| Swapchain.currentExtent := {| width := 800; height := 600 |};
          Swapchain.minImageExtent := {| width := 800; height := 600 |};
          Swapchain.maxImageExtent := {| width := 800; height := 600 |} |} |}.

Definition minimized : Swapchain.Moment :=
  {| Swapchain.glfwGetWindowSize := (0, 0);
     Swapchain.glfwGetFramebufferSize := (0, 0);
     Swapchain.capabilities :=
       {| Swapchain.currentExtent := {| width := 0; height := 0 |};
          Swapchain.minImageExtent := {| width := 0; height := 0 |};
          Swapchain.maxImageExtent := {| width := 0; height := 0 |} |} |}.

(** Minimized for the first two questions, restored from then on. *)
Definition minimized_then_restored (k : nat) : Swapchain.Moment :=
  if (k <? 2)%nat then minimized else restored.

(** What [stbi_load] answers for a 4-channel image of 800 by 600 pixels. *)
Definition rgba_800x600 : Texture.StbiAnswer :=
  {| Texture.pixels_loaded := true;
     Texture.textureWidth := 800;
     Texture.textureHeight := 600;
     Texture.textureChannels := 4 |}.

End Demo.

(** ** Mesh loading: vertex deduplication *)
Module MeshLoader.

(** A [float] is the IEEE 754 value it holds ([spec_float]: a signed zero, a
    signed infinity, a NaN or a finite number), and [==] on floats is
    [SFeqb]: a NaN equals nothing, itself included, and the two zeros are
    equal. *)
Definition float := spec_float.
Definition float_eq (a b : float) : bool := SFeqb a b.

(** [glm::vec3] and [glm::vec2], compared component by component. *)
Record vec3 := { x : float; y : float; z : float }.
Record vec2 := { s : float; t : float }.

Definition vec3_eq (a b : vec3) : bool :=
  float_eq (x a) (x b) && float_eq (y a) (y b) && float_eq (z a) (z b).

Definition vec2_eq (a b : vec2) : bool :=
  float_eq (s a) (s b) && float_eq (t a) (t b).

Record Vertex := { position : vec3; color : vec3; texCoord : vec2 }.

(** [Vertex::operator==]. *)
Definition Vertex_eq (a b : Vertex) : bool :=
  vec3_eq (position a) (position b) && vec3_eq (color a) (color b)
  && vec2_eq (texCoord a) (texCoord b).

(** No component is a NaN: the vertex equals itself. *)
Definition self_equal (v : Vertex) : Prop := Vertex_eq v v = true.

(** [std::unordered_map<Vertex, uint32_t>] as the list of its entries.  A
    key is found when it compares equal, by [operator==], to the key of an
    entry; [std::hash<Vertex>] combines the hashes of the components, and
    floats that compare equal hash alike, so the hash never hides such an
    entry. *)
Fixpoint find (m : list (Vertex * Z)) (vertex : Vertex) : option Z :=
  match m with
  | [] => None
  | (k, i) :: m' => if Vertex_eq vertex k then Some i else find m' vertex
  end.

(** [m.count(vertex)]. *)
Definition count (m : list (Vertex * Z)) (vertex : Vertex) : Z :=
  match find m vertex with Some _ => 1 | None => 0 end.

(** [m[vertex] = value]: the entry found is overwritten, a key not found is
    inserted. *)
Fixpoint assign (m : list (Vertex * Z)) (vertex : Vertex) (value : Z) : list (Vertex * Z) :=
  match m with
  | [] => [(vertex, value)]
  | (k, i) :: m' =>
      if Vertex_eq vertex k then (k, value) :: m' else (k, i) :: assign m' vertex value
  end.

(** [m[vertex]] read: a key not found is inserted with the value 0. *)
Definition subscript (m : list (Vertex * Z)) (vertex : Vertex) : list (Vertex * Z) * Z :=
  match find m vertex with
  | Some i => (m, i)
  | None => (assign m vertex 0, 0)
  end.

Section Loader.
(** [Index] is [tinyobj::index_t]; [vertex_at] stands for the construction of
    a [Vertex] from the attribute arrays at an index. *)
Context {Index : Type} (vertex_at : Index → Vertex).

(** The three locals of [MeshLoader::load]. *)
Record LoaderState := {
  uniqueVertices : list (Vertex * Z);
  vertices : list Vertex;
  indices : list Z
}.

Definition start : LoaderState :=
  {| uniqueVertices := []; vertices := []; indices := [] |}.

(** The body of the inner loop. *)
Definition visit (st : LoaderState) (vertex : Vertex) : LoaderState :=
  let st1 :=
    if count (uniqueVertices st) vertex =? 0
    then {| uniqueVertices :=
              assign (uniqueVertices st) vertex (u32 (Z.of_nat (length (vertices st))));
            vertices := vertices st ++ [vertex];
            indices := indices st |}
    else st in
  let '(m, i) := subscript (uniqueVertices st1) vertex in
  {| uniqueVertices := m;
     vertices := vertices st1;
     indices := indices st1 ++ [i] |}.

(** What the loop keeps true after the vertices [processed], none of which
    has a NaN component. *)
Definition loader_inv (processed : list Vertex) (st : LoaderState) : Prop :=
  (∀ k i, (k, i) ∈ uniqueVertices st →
          0 ≤ i ∧ vertices st !! Z.to_nat i = Some k)
  ∧ (∀ k, k ∈ vertices st → ∃ i, (k, i) ∈ uniqueVertices st)
  ∧ (∀ i j v w, (i < j)%nat → vertices st !! i = Some v → vertices st !! j = Some w →
                Vertex_eq w v = false)
  ∧ Forall2 (λ v i, 0 ≤ i ∧ ∃ k, vertices st !! Z.to_nat i = Some k
                                 ∧ Vertex_eq v k = true)
            processed (indices st)
  ∧ (∀ v, v ∈ vertices st → v ∈ processed)
  ∧ (∀ j, (j < length (vertices st))%nat → Z.of_nat j ∈ indices st)
  ∧ (length (vertices st) ≤ length processed)%nat.

(** The two nested loops over the shapes and their indices. *)
Definition visit_shapes (shapes : list (list Index)) : LoaderState :=
  foldl (λ st shape, foldl (λ st index, visit st (vertex_at index)) st shape) start shapes.

(** [MeshLoader::load]; [loaded], [warn] and [err] are what
    [tinyobj::LoadObj] answers. *)
Definition load (loaded : bool) (warn err : string) (shapes : list (list Index))
    : exn + (list Vertex * list Z) :=
  if negb loaded then inl (runtime_error (warn ++ err))
  else
    let st := visit_shapes shapes in
    inr (vertices st, indices st).

End Loader.

End MeshLoader.

(** ** Swapchain configuration *)
Module SwapConfig.

Definition VK_FORMAT_B8G8R8A8_SRGB : VkFormat := 50.
Definition VK_COLOR_SPACE_SRGB_NONLINEAR_KHR : Z := 0.

Record VkSurfaceFormatKHR := { format : VkFormat; colorSpace : Z }.

Inductive VkPresentModeKHR :=
| VK_PRESENT_MODE_IMMEDIATE_KHR
| VK_PRESENT_MODE_MAILBOX_KHR
| VK_PRESENT_MODE_FIFO_KHR
| VK_PRESENT_MODE_FIFO_RELAXED_KHR.

#[global] Instance VkPresentModeKHR_eq_dec : EqDecision VkPresentModeKHR.
Proof. solve_decision. Defined.

(** The test of the loop in [selectSwapSurfaceFormat]. *)
Definition preferred (f : VkSurfaceFormatKHR) : bool :=
  (format f =? VK_FORMAT_B8G8R8A8_SRGB) && (colorSpace f =? VK_COLOR_SPACE_SRGB_NONLINEAR_KHR).

(** The range-for loop of [selectSwapSurfaceFormat]; [None] is the
    fall-through past the loop. *)
Fixpoint first_preferred (availableFormats : list VkSurfaceFormatKHR)
    : option VkSurfaceFormatKHR :=
  match availableFormats with
  | [] => None
  | availableFormat :: rest =>
      if preferred availableFormat then Some availableFormat else first_preferred rest
  end.

(** [selectSwapSurfaceFormat].  [availableFormats[0]] on an empty vector is
    undefined; [None] stands for that. *)
Definition selectSwapSurfaceFormat (availableFormats : list VkSurfaceFormatKHR)
    : option VkSurfaceFormatKHR :=
  match first_preferred availableFormats with
  | Some f => Some f
  | None => availableFormats !! 0%nat
  end.

(** The range-for loop of [selectSwapPresentMode]. *)
Fixpoint first_mailbox (availablePresentModes : list VkPresentModeKHR)
    : option VkPresentModeKHR :=
  match availablePresentModes with
  | [] => None
  | availablePresentMode :: rest =>
      if bool_decide (availablePresentMode = VK_PRESENT_MODE_MAILBOX_KHR)
      then Some availablePresentMode else first_mailbox rest
  end.

Definition selectSwapPresentMode (availablePresentModes : list VkPresentModeKHR)
    : VkPresentModeKHR :=
  match first_mailbox availablePresentModes with
  | Some m => m
  | None => VK_PRESENT_MODE_FIFO_KHR
  end.

(** The [imageCount] lambda of [createSwapChain], on [uint32_t]. *)
Definition imageCount (minImageCount maxImageCount : Z) : Z :=
  let imageCount := u32 (minImageCount + 1) in
  if (maxImageCount >? 0) && (imageCount >? maxImageCount)
  then maxImageCount
  else imageCount.

End SwapConfig.

(** ** Format selection *)
Module Formats.

Inductive VkImageTiling :=
| VK_IMAGE_TILING_OPTIMAL
| VK_IMAGE_TILING_LINEAR
| VK_IMAGE_TILING_DRM_FORMAT_MODIFIER_EXT.

#[global] Instance VkImageTiling_eq_dec : EqDecision VkImageTiling.
Proof. solve_decision. Defined.

Record VkFormatProperties := {
  linearTilingFeatures : VkFormatFeatureFlags;
  optimalTilingFeatures : VkFormatFeatureFlags;
  bufferFeatures : VkFormatFeatureFlags
}.

Definition VK_FORMAT_D32_SFLOAT : VkFormat := 126.
Definition VK_FORMAT_D24_UNORM_S8_UINT : VkFormat := 129.
Definition VK_FORMAT_D32_SFLOAT_S8_UINT : VkFormat := 130.
Definition VK_FORMAT_FEATURE_DEPTH_STENCIL_ATTACHMENT_BIT : VkFormatFeatureFlags := 0x200.

(** The test of the loop body of [findSupportedFormat], for the properties
    [props] the device reports for one candidate. *)
Definition accepts (tiling : VkImageTiling) (features : VkFormatFeatureFlags)
    (props : VkFormatProperties) : bool :=
  if bool_decide (tiling = VK_IMAGE_TILING_LINEAR)
     && (Z.land (linearTilingFeatures props) features =? features)
  then true
  else if bool_decide (tiling = VK_IMAGE_TILING_OPTIMAL)
          && (Z.land (optimalTilingFeatures props) features =? features)
  then true
  else false.

(** The range-for loop of [findSupportedFormat]; [formatProperties] is what
    [vkGetPhysicalDeviceFormatProperties] reports. *)
Fixpoint first_supported (formatProperties : VkFormat → VkFormatProperties)
    (candidates : list VkFormat) (tiling : VkImageTiling) (features : VkFormatFeatureFlags)
    : option VkFormat :=
  match candidates with
  | [] => None
  | format :: rest =>
      if accepts tiling features (formatProperties format) then Some format
      else first_supported formatProperties rest tiling features
  end.

Definition findSupportedFormat (formatProperties : VkFormat → VkFormatProperties)
    (candidates : list VkFormat) (tiling : VkImageTiling) (features : VkFormatFeatureFlags)
    : exn + VkFormat :=
  match first_supported formatProperties candidates tiling features with
  | Some format => inr format
  | None => inl (runtime_error "failed to find supported format!")
  end.

Definition findDepthFormat (formatProperties : VkFormat → VkFormatProperties) : exn + VkFormat :=
  findSupportedFormat formatProperties
    [VK_FORMAT_D32_SFLOAT; VK_FORMAT_D32_SFLOAT_S8_UINT; VK_FORMAT_D24_UNORM_S8_UINT]
    VK_IMAGE_TILING_OPTIMAL VK_FORMAT_FEATURE_DEPTH_STENCIL_ATTACHMENT_BIT.

Definition hasStencilComponent (format : VkFormat) : bool :=
  (format =? VK_FORMAT_D32_SFLOAT_S8_UINT) || (format =? VK_FORMAT_D24_UNORM_S8_UINT).

(** Every requested feature bit is among those the device reports for the
    tiling; no format is accepted for a tiling other than the two the loop
    names. *)
Definition supports (tiling : VkImageTiling) (features : VkFormatFeatureFlags)
    (props : VkFormatProperties) : Prop :=
  match tiling with
  | VK_IMAGE_TILING_LINEAR =>
      ∀ k, Z.testbit features k = true → Z.testbit (linearTilingFeatures props) k = true
  | VK_IMAGE_TILING_OPTIMAL =>
      ∀ k, Z.testbit features k = true → Z.testbit (optimalTilingFeatures props) k = true
  | VK_IMAGE_TILING_DRM_FORMAT_MODIFIER_EXT => False
  end.

End Formats.

(** ** Platform requirements ([PlatformCapabilities.cpp]) *)
Module Platform.

(** The characters of a C string: those before the first NUL. *)
Fixpoint c_str (s : string) : string :=
  match s with
  | EmptyString => EmptyString
  | String c rest => if Ascii.eqb c Ascii.zero then EmptyString else String c (c_str rest)
  end.

(** [strcmp(a, b) == 0]. *)
Definition strcmp_zero (a b : string) : bool := String.eqb (c_str a) (c_str b).

(** [std::find_if]: the first element satisfying [p]; [None] is [end]. *)
Fixpoint find_if {A} (p : A → bool) (l : list A) : option A :=
  match l with
  | [] => None
  | x :: rest => if p x then Some x else find_if p rest
  end.

(** One of the two loops of [detectMissingInstanceRequirements]: [names]
    are the required names, [available] the names of the extensions (or
    layers) the platform reports. *)
Definition missing_among (available : list string) (names : list string) : list string :=
  foldl (λ missingNames name,
           match find_if (λ extension, strcmp_zero name extension) available with
           | None => missingNames ++ [name]
           | Some _ => missingNames
           end)
        [] names.

(** [detectMissingInstanceRequirements]: the missing extension names and
    the missing layer names. *)
Definition detectMissingInstanceRequirements
    (availableExtensions availableLayers : list string)
    (requiredExtensions requiredLayers : list string) : list string * list string :=
  (missing_among availableExtensions requiredExtensions,
   missing_among availableLayers requiredLayers).

(** [detectMissingRequiredDeviceExtensions]: the names handed to the
    constructor of the result.  The loop searches [requiredExtensions] itself;
    the extensions of the physical device are not read. *)
Definition detectMissingRequiredDeviceExtensions
    (deviceExtensions : list string) (requiredExtensions : list string) : list string :=
  foldl (λ missingExtensionNames requiredExtension,
           match find_if (λ extension, strcmp_zero requiredExtension extension)
                         requiredExtensions with
           | None => missingExtensionNames ++ [requiredExtension]
           | Some _ => missingExtensionNames
           end)
        [] requiredExtensions.

End Platform.

(** ** Synchronization objects *)
Module Sync.

Inductive SyncCall :=
| CreateSemaphore
| CreateFence (signaled : bool).

(** What [vkCreateSemaphore] and [vkCreateFence] answer for the object of
    each index. *)
Record Answers := {
  resultImageAvailable : nat → VkResult;
  resultRenderFinished : nat → VkResult;
  resultInFlight : nat → VkResult
}.

(** One of the three creation loops, entered at index [i] with [n]
    objects left to create: the calls made, and the exception if one is
    thrown. *)
Fixpoint create_each (call : SyncCall) (what : string) (result : nat → VkResult)
    (n i : nat) : list SyncCall * option exn :=
  match n with
  | O => ([], None)
  | S n' =>
      if bool_decide (result i ≠ VK_SUCCESS)
      then ([call], Some (runtime_error what))
      else let '(cs, e) := create_each call what result n' (S i) in (call :: cs, e)
  end.

(** [createRenderingSyncObjects]: the calls made and, on normal return, the
    state of the fences stored in [m_inFlightFences] (created with
    [VK_FENCE_CREATE_SIGNALED_BIT]).  The vectors have
    [MAX_FRAMES_IN_FLIGHT] elements. *)
Definition createRenderingSyncObjects (MAX_FRAMES_IN_FLIGHT : Z) (a : Answers)
    : list SyncCall * (exn + list bool) :=
  let n := Z.to_nat MAX_FRAMES_IN_FLIGHT in
  let '(cs1, e1) :=
    create_each CreateSemaphore
      "failed to create image-available semaphore synchronization object"
      (resultImageAvailable a) n 0 in
  match e1 with
  | Some e => (cs1, inl e)
  | None =>
      let '(cs2, e2) :=
        create_each CreateSemaphore
          "failed to create render-finished semaphore synchronization object"
          (resultRenderFinished a) n 0 in
      match e2 with
      | Some e => (cs1 ++ cs2, inl e)
      | None =>
          let '(cs3, e3) :=
            create_each (CreateFence true)
              "failed to create in-flight fence synchronization object"
              (resultInFlight a) n 0 in
          match e3 with
          | Some e => (cs1 ++ cs2 ++ cs3, inl e)
          | None =>
              (cs1 ++ cs2 ++ cs3,
               inr (omap (λ c, match c with CreateFence s => Some s | _ => None end) cs3))
          end
      end
  end.

End Sync.

(** ** Buffer upload through a staging buffer *)
Module Upload.

(** The calls of the upload functions: those of the recorder, and the
    buffer copy. *)
Inductive UploadCall :=
| Core (c : Call)
| CmdCopyBuffer (size : Z).

Record URun (A : Type) := mkURun { ucalls : list UploadCall; uoutcome : exn + A }.
Arguments mkURun {A} _ _.
Arguments ucalls {A} _.
Arguments uoutcome {A} _.

#[global] Instance URun_ret : MRet URun := λ A a, mkURun [] (inr a).

#[global] Instance URun_bind : MBind URun := λ A B f r,
  match uoutcome r with
  | inl e => mkURun (ucalls r) (inl e)
  | inr a => mkURun (ucalls r ++ ucalls (f a)) (uoutcome (f a))
  end.

Definition core {A} (r : Run A) : URun A := mkURun (Core <$> calls r) (outcome r).

Definition copyBuffer (size : Z) : URun unit :=
  core Transfer.beginSingleTimeCommands ;;
  mkURun [CmdCopyBuffer size] (inr tt) ;;
  core Transfer.endSingleTimeCommands.

(** Conversion to [size_t] / [VkDeviceSize] (64 bits). *)
Definition u64 (z : Z) : Z := z mod 2 ^ 64.

(** [createIndexBuffer]; [staging] and [target] are what the driver answers
    during the first and the second [createBuffer].  [sizeof(uint32_t)] is 4. *)
Definition createIndexBuffer (staging target : Memory.Device) (indices : list Z)
    : URun unit :=
  let bufferSize := u64 (4 * Z.of_nat (length indices)) in
  core (Memory.createBuffer staging bufferSize
          (Z.lor VK_MEMORY_PROPERTY_HOST_VISIBLE_BIT VK_MEMORY_PROPERTY_HOST_COHERENT_BIT)) ;;
  core (emit (MapCopyUnmap bufferSize)) ;;
  core (Memory.createBuffer target bufferSize VK_MEMORY_PROPERTY_DEVICE_LOCAL_BIT) ;;
  copyBuffer bufferSize ;;
  core (emit DestroyBuffer) ;;
  core (emit FreeMemory) ;;
  mret tt.

End Upload.

(** ** More on the frame loop *)
Module FrameSync.

(** A fence is signaled with nothing unfinished, or unsignaled with exactly
    one submission that will signal it. *)
Definition synced (signaled : bool) (unfinished : nat) : Prop :=
  (signaled = true ∧ unfinished = 0%nat) ∨ (signaled = false ∧ unfinished = 1%nat).

Definition inv_synced (MAX_FRAMES_IN_FLIGHT : Z) (s : Frame.App) : Prop :=
  0 ≤ Frame.m_currentFrame s < MAX_FRAMES_IN_FLIGHT
  ∧ length (Frame.m_inFlightFences s) = Z.to_nat MAX_FRAMES_IN_FLIGHT
  ∧ Forall2 synced (Frame.m_inFlightFences s) (Frame.outstanding s).

(** The acquisition results [draw] goes on with. *)
Definition acquired (a : Frame.Answers) : Prop :=
  Frame.resultAcquireNextImageKHR a = VK_SUCCESS
  ∨ Frame.resultAcquireNextImageKHR a = VK_SUBOPTIMAL_KHR.

(** The presentation results after which [draw] recreates the swapchain. *)
Definition stale (a : Frame.Answers) : Prop :=
  Frame.resultQueuePresentKHR a = VK_ERROR_OUT_OF_DATE_KHR
  ∨ Frame.resultQueuePresentKHR a = VK_SUBOPTIMAL_KHR.

End FrameSync.

(** Inputs for the theorems on these. *)
Module Demo2.

Definition formats_bgra_second : list SwapConfig.VkSurfaceFormatKHR :=
  [ {| SwapConfig.format := 44; SwapConfig.colorSpace := 0 |};
    {| SwapConfig.format := 50; SwapConfig.colorSpace := 0 |} ].

(** A device whose only depth format with optimal-tiling depth-stencil
    support is [VK_FORMAT_D24_UNORM_S8_UINT]. *)
Definition depth24_only (format : VkFormat) : Formats.VkFormatProperties :=
  {| Formats.linearTilingFeatures := 0;
     Formats.optimalTilingFeatures := if format =? 129 then 0x200 else 0;
     Formats.bufferFeatures := 0 |}.

Definition all_created : Sync.Answers :=
  {| Sync.resultImageAvailable := λ _, VK_SUCCESS;
     Sync.resultRenderFinished := λ _, VK_SUCCESS;
     Sync.resultInFlight := λ _, VK_SUCCESS |}.

(** Submission fails on a frame that was acquired. *)
Definition submit_fails : Frame.Answers :=
  {| Frame.resultAcquireNextImageKHR := VK_SUCCESS;
     Frame.imageIndex := 0;
     Frame.resultBeginCommandBuffer := VK_SUCCESS;
     Frame.resultEndCommandBuffer := VK_SUCCESS;
     Frame.resultQueueSubmit := VK_ERROR_DEVICE_LOST;
     Frame.resultQueuePresentKHR := VK_SUCCESS;
     Frame.resultRecreateSwapChain := inr tt |}.

(** The window is 800 by 600 when [recreateSwapChain] polls it and is
    minimized right after, before the surface is queried. *)
Definition restored_then_minimized (k : nat) : Swapchain.Moment :=
  match k with O => Demo.restored | S _ => Demo.minimized end.

(** The floats 0 and 1 of [binary32], and vertices in the plane [z = 0]
    with the colour and texture coordinates left at 0. *)
Definition zero : MeshLoader.float := S754_zero false.
Definition one : MeshLoader.float := S754_finite false 8388608 (-23).

Definition corner (a b : MeshLoader.float) : MeshLoader.Vertex :=
  {| MeshLoader.position := {| MeshLoader.x := a; MeshLoader.y := b; MeshLoader.z := zero |};
     MeshLoader.color := {| MeshLoader.x := zero; MeshLoader.y := zero; MeshLoader.z := zero |};
     MeshLoader.texCoord := {| MeshLoader.s := zero; MeshLoader.t := zero |} |}.

(** A quad given as two triangles that share an edge; face index [i] names
    corner [i] of the quad. *)
Definition quad_corner (i : Z) : MeshLoader.Vertex :=
  if i =? 0 then corner zero zero
  else if i =? 1 then corner one zero
  else if i =? 2 then corner one one
  else corner zero one.

Definition quad : list (list Z) := [[0; 1; 2; 2; 3; 0]].

(** Two frames submitted, none finished by the GPU. *)
Definition after_two_frames : Frame.App :=
  {| Frame.m_currentFrame := 0;
     Frame.m_inFlightFences := [false; false];
     Frame.outstanding := [1%nat; 1%nat];
     Frame.framebufferResized := false |}.

End Demo2.

(** ** Proof automation *)

(** Membership in an explicit trace. *)
Ltac trace_elem :=
  rewrite ?not_elem_of_cons, ?elem_of_cons, ?elem_of_nil;
  intuition (try discriminate; try congruence).

Ltac draw_cases H :=
  repeat match type of H with
         | context [if ?c then _ else _] => destruct c eqn:?
         end.

(* ================================================================== *)
(** * Theorems *)

(** C3. [transitionImageLayout] returns normally exactly for the pairs
    (undefined, transfer-destination) and (transfer-destination,
    shader-read-only), and then records one barrier from the old to the new
    layout over levels [0 .. mipLevels-1]; for every other pair it throws
    [invalid_argument "unsupported layout transition!"] and records no
    barrier. *)
Theorem transitionImageLayout_recognized_pairs_only
    (img : VkImage) (format : VkFormat) (oldL newL : VkImageLayout) (mipLevels : Z) :
  let r := Transfer.transitionImageLayout img format oldL newL mipLevels in
  (returns r ↔ Transfer.recognized oldL newL)
  ∧ (returns r →
       ∃ b, barriers (calls r) = [b]
            ∧ oldLayout b = oldL ∧ newLayout b = newL
            ∧ baseMipLevel b = 0 ∧ levelCount b = mipLevels)
  ∧ (¬ Transfer.recognized oldL newL →
       throws r (invalid_argument "unsupported layout transition!")
       ∧ barriers (calls r) = []).
Proof.
  unfold returns, throws, Transfer.recognized.
  destruct oldL, newL; vm_compute;
    (split; [split; [intros [a Ha]; try discriminate Ha; tauto
                    | intros [[? ?]|[? ?]]; try discriminate; eauto]
            | split; [intros [a Ha]; try discriminate Ha; eauto 10
                     | intros Hn; try (exfalso; apply Hn; tauto); done]]).
Qed.

Lemma transitionImageLayout_recognized_witness :
  Transfer.recognized VK_IMAGE_LAYOUT_UNDEFINED VK_IMAGE_LAYOUT_TRANSFER_DST_OPTIMAL
  ∧ returns (Transfer.transitionImageLayout 7 VK_FORMAT_R8G8B8A8_SRGB
               VK_IMAGE_LAYOUT_UNDEFINED VK_IMAGE_LAYOUT_TRANSFER_DST_OPTIMAL 10).
Proof.
  assert (Transfer.recognized VK_IMAGE_LAYOUT_UNDEFINED VK_IMAGE_LAYOUT_TRANSFER_DST_OPTIMAL)
    as Hrec by (left; split; reflexivity).
  split; [exact Hrec|].
  exact (proj2 (proj1 (transitionImageLayout_recognized_pairs_only
                         7 VK_FORMAT_R8G8B8A8_SRGB VK_IMAGE_LAYOUT_UNDEFINED
                         VK_IMAGE_LAYOUT_TRANSFER_DST_OPTIMAL 10)) Hrec).
Defined.

(** ** The mip chain *)

Section MipLoop.
Import Mipmap ImageState.

Lemma mip_loop_step img m i w h :
  mip_loop img m i w h =
    if decide (i < m)
    then mip_iteration img i w h ++ mip_loop img m (i + 1) (halve w) (halve h)
    else [].
Proof.
  rewrite mip_loop_equation_1.
  destruct (Z_lt_dec i m); simp mip_loop; case_decide; done || lia.
Qed.

Lemma halve_nonpos k w : w ≤ 1 → Nat.iter k halve w = w.
Proof.
  intros Hw. induction k as [|k IH]; simpl; [done|].
  rewrite IH. unfold halve. destruct (Z.gtb_spec w 1); [lia | done].
Qed.

Lemma halve_iter k w : 1 ≤ w → Nat.iter k halve w = level_size w (Z.of_nat k).
Proof.
  intros Hw. unfold level_size. induction k as [|k IH].
  - simpl. rewrite Z.div_1_r. lia.
  - rewrite Nat.iter_succ, IH, Nat2Z.inj_succ, Z.pow_succ_r by lia.
    rewrite (Z.mul_comm 2), <- Z.div_div by lia.
    generalize (w / 2 ^ Z.of_nat k). intros q.
    unfold halve. destruct (Z.gtb_spec (Z.max 1 q) 1) as [Hgt|Hle].
    + assert (2 ≤ q) as Hq by lia.
      rewrite (Z.max_r 1 q), Z.quot_div_nonneg by lia.
      pose proof (Z.div_le_lower_bound q 2 1). lia.
    + assert (q ≤ 1) as Hq by lia.
      pose proof (Z.div_lt_upper_bound q 2 1). lia.
Qed.

Lemma half_or_one_iter k w :
  half_or_one (Nat.iter k halve w) = level_size w (Z.of_nat (S k)).
Proof.
  destruct (Z_le_gt_dec 1 w) as [Hw|Hw].
  - rewrite <- halve_iter by done. rewrite Nat.iter_succ.
    pose proof (halve_iter k w Hw) as Hx. revert Hx.
    generalize (Nat.iter k halve w). intros x Hx.
    unfold half_or_one, halve. destruct (Z.gtb_spec x 1); [done|].
    unfold level_size in *. lia.
  - rewrite halve_nonpos by lia. unfold half_or_one, level_size.
    destruct (Z.gtb_spec w 1); [lia|].
    assert (w / 2 ^ Z.of_nat (S k) ≤ 0); [|lia].
    apply Z.div_le_upper_bound; lia.
Qed.

Lemma u32_small z : 0 ≤ z < 2 ^ 32 → u32 z = z.
Proof. intros. unfold u32. apply Z.mod_small. lia. Qed.

(** The blits one run of the loop records, from entry index [i]. *)
Lemma mip_loop_blits img m n : ∀ i w h,
  1 ≤ i → m ≤ 2 ^ 32 → Z.of_nat n = Z.max 0 (m - i) →
  blits (mip_loop img m i w h) =
    (λ k : nat,
       {| srcMipLevel := i + Z.of_nat k - 1;
          srcOffsets1 := (Nat.iter k halve w, Nat.iter k halve h);
          dstMipLevel := i + Z.of_nat k;
          dstOffsets1 := (half_or_one (Nat.iter k halve w),
                          half_or_one (Nat.iter k halve h)) |}) <$> seq 0 n.
Proof.
  induction n as [|n IH]; intros i w h Hi Hm Hn; rewrite mip_loop_step.
  - case_decide; [lia | done].
  - case_decide; [|lia].
    unfold blits at 1. rewrite omap_app. fold (blits (mip_loop img m (i + 1) (halve w) (halve h))).
    rewrite (IH (i + 1)) by lia. simpl.
    rewrite u32_small by lia. f_equal.
    + f_equal; lia.
    + rewrite <- fmap_S_seq, <- list_fmap_compose. apply list_fmap_ext.
      intros _ k _. simpl. rewrite <- !Nat.iter_succ_r.
      f_equal; lia.
Qed.

Lemma chain_length d t : (d ≤ t)%nat → length (chain d t) = t.
Proof. intros. unfold chain. rewrite length_app, !length_replicate. lia. Qed.

Lemma chain_lookup_todo d t k :
  (d ≤ k < t)%nat → chain d t !! k = Some VK_IMAGE_LAYOUT_TRANSFER_DST_OPTIMAL.
Proof.
  intros. unfold chain. rewrite lookup_app_r, length_replicate by (rewrite length_replicate; lia).
  apply lookup_replicate_2. lia.
Qed.

Lemma chain_insert d t :
  (d < t)%nat →
  <[d := VK_IMAGE_LAYOUT_SHADER_READ_ONLY_OPTIMAL]> (chain d t) = chain (S d) t.
Proof.
  intros. unfold chain.
  rewrite insert_app_r_alt, length_replicate, Nat.sub_diag by (rewrite length_replicate; lia).
  replace (t - d)%nat with (S (t - S d)) by lia.
  rewrite (replicate_S_end d). cbn [replicate insert list_insert].
  by rewrite <- app_assoc.
Qed.

Lemma apply_barrier_single ls b d :
  levelCount b = 1 → baseMipLevel b = Z.of_nat d → ls !! d = Some (oldLayout b) →
  apply_barrier ls b = Some (<[d := newLayout b]> ls).
Proof.
  intros Hc Hb Hl. unfold apply_barrier. rewrite Hc, Hb, Nat2Z.id.
  change (Z.to_nat 1) with 1%nat.
  pose proof (lookup_lt_Some _ _ _ Hl) as Hlt.
  rewrite (drop_S _ _ _ Hl). simpl.
  rewrite (bool_decide_true (0 ≤ _)), (bool_decide_true (_ ≤ _)%nat) by lia.
  rewrite (bool_decide_true (oldLayout b = oldLayout b)) by done.
  cbn [andb]. rewrite orb_true_r.
  rewrite insert_take_drop by done.
  by replace (d + 1)%nat with (S d) by lia.
Qed.

Lemma exec_calls_app cs1 cs2 ls :
  exec_calls (cs1 ++ cs2) ls = ls' ← exec_calls cs1 ls; exec_calls cs2 ls'.
Proof.
  revert ls. induction cs1 as [|c cs1 IH]; intros ls; simpl; [done|].
  destruct (exec_call ls c); simpl; [apply IH | done].
Qed.

(** One iteration moves level [i-1] to shader-read-only and leaves the
    later ones as they were. *)
Lemma mip_iteration_exec img d t w h :
  (S d < t)%nat → Z.of_nat t ≤ 2 ^ 32 →
  exec_calls (mip_iteration img (Z.of_nat d + 1) w h) (chain d t) = Some (chain (S d) t).
Proof.
  intros Hd Ht. unfold mip_iteration.
  replace (Z.of_nat d + 1 - 1) with (Z.of_nat d) by lia.
  rewrite u32_small by lia.
  cbn [exec_calls exec_call].
  rewrite (apply_barrier_single _ _ d) by (done || (apply chain_lookup_todo; lia)).
  cbn [mbind option_bind newLayout].
  unfold apply_blit. cbn [srcMipLevel dstMipLevel].
  replace (Z.of_nat d + 1) with (Z.of_nat (S d)) by lia. rewrite !Nat2Z.id.
  rewrite !bool_decide_true; cycle 1.
  { rewrite list_lookup_insert_ne by lia. apply chain_lookup_todo. lia. }
  { apply list_lookup_insert_eq. rewrite chain_length; lia. }
  { lia. }
  { lia. }
  cbn [andb mbind option_bind].
  rewrite (apply_barrier_single _ _ d); cycle 1.
  { done. } { done. }
  { cbn [oldLayout]. apply list_lookup_insert_eq. rewrite chain_length; lia. }
  cbn [mbind option_bind newLayout].
  rewrite list_insert_insert_eq, chain_insert by lia. done.
Qed.

Lemma mip_loop_exec img t n : ∀ d w h,
  (d + n + 1 = t)%nat → Z.of_nat t ≤ 2 ^ 32 →
  exec_calls (mip_loop img (Z.of_nat t) (Z.of_nat d + 1) w h) (chain d t)
  = Some (chain (t - 1) t).
Proof.
  induction n as [|n IH]; intros d w h Hd Ht; rewrite mip_loop_step.
  - case_decide; [lia|]. simpl. do 2 f_equal. lia.
  - case_decide; [|lia].
    rewrite exec_calls_app, mip_iteration_exec by lia.
    cbn [mbind option_bind].
    replace (Z.of_nat d + 1 + 1) with (Z.of_nat (S d) + 1) by lia.
    apply IH; lia.
Qed.

End MipLoop.

(** The calls of a successful [generateMipmaps]. *)
Lemma generateMipmaps_run dev img fmt w h m :
  Z.land (Memory.optimalTilingFeatures dev fmt)
         VK_FORMAT_FEATURE_SAMPLED_IMAGE_FILTER_LINEAR_BIT ≠ 0 →
  Mipmap.generateMipmaps dev img fmt w h m =
    mkRun ([AllocateCommandBuffers; BeginCommandBuffer]
           ++ Mipmap.mip_loop img m 1 w h
           ++ [Mipmap.last_barrier img m;
               EndCommandBuffer; QueueSubmitOneShot; QueueWaitIdle; FreeCommandBuffers])
          (inr tt).
Proof.
  intros Hf. unfold Mipmap.generateMipmaps.
  destruct (Z.eqb_spec (Z.land (Memory.optimalTilingFeatures dev fmt)
                          VK_FORMAT_FEATURE_SAMPLED_IMAGE_FILTER_LINEAR_BIT) 0); [done|].
  unfold Transfer.beginSingleTimeCommands, Transfer.endSingleTimeCommands.
  unfold mbind, Run_bind, emit, emit_all, mret, Run_ret. cbn [outcome calls app].
  done.
Qed.

Lemma blits_generateMipmaps img m w h :
  blits ([AllocateCommandBuffers; BeginCommandBuffer]
         ++ Mipmap.mip_loop img m 1 w h
         ++ [Mipmap.last_barrier img m;
             EndCommandBuffer; QueueSubmitOneShot; QueueWaitIdle; FreeCommandBuffers])
  = blits (Mipmap.mip_loop img m 1 w h).
Proof. unfold blits. rewrite !omap_app. cbn. by rewrite app_nil_r. Qed.

(** The recorded commands take an image whose [m] levels are transfer
    destinations to one whose levels are all shader-read-only. *)
Lemma mip_calls_exec img w h m :
  1 ≤ m ≤ UINT32_MAX →
  ImageState.exec_calls
    ([AllocateCommandBuffers; BeginCommandBuffer]
     ++ Mipmap.mip_loop img m 1 w h
     ++ [Mipmap.last_barrier img m;
         EndCommandBuffer; QueueSubmitOneShot; QueueWaitIdle; FreeCommandBuffers])
    (replicate (Z.to_nat m) VK_IMAGE_LAYOUT_TRANSFER_DST_OPTIMAL)
  = Some (replicate (Z.to_nat m) VK_IMAGE_LAYOUT_SHADER_READ_ONLY_OPTIMAL).
Proof.
  unfold UINT32_MAX. intros Hm.
  set (t := Z.to_nat m).
  assert (Z.of_nat t = m) as Ht by (unfold t; lia).
  assert (replicate t VK_IMAGE_LAYOUT_TRANSFER_DST_OPTIMAL = ImageState.chain 0 t) as ->.
  { unfold ImageState.chain. by rewrite Nat.sub_0_r. }
  cbn [app ImageState.exec_calls ImageState.exec_call mbind option_bind].
  rewrite exec_calls_app. rewrite <- Ht at 1.
  rewrite (mip_loop_exec img t (t - 1) 0) by lia.
  cbn [mbind option_bind ImageState.exec_calls ImageState.exec_call Mipmap.last_barrier].
  rewrite (apply_barrier_single _ _ (t - 1)); cycle 1.
  { done. }
  { cbn [baseMipLevel]. rewrite u32_small by lia. lia. }
  { apply chain_lookup_todo. lia. }
  cbn [mbind option_bind newLayout]. rewrite chain_insert by lia.
  replace (S (t - 1)) with t by lia.
  unfold ImageState.chain. by rewrite Nat.sub_diag, app_nil_r.
Qed.

(** The extent of every blit destination follows the halving formula. *)
Lemma mip_loop_dst_extents img w h m :
  1 ≤ m ≤ UINT32_MAX →
  (λ b, (dstMipLevel b, dstOffsets1 b)) <$> blits (Mipmap.mip_loop img m 1 w h)
  = (λ i, (i, (Mipmap.level_size w i, Mipmap.level_size h i))) <$> seqZ 1 (m - 1).
Proof.
  unfold UINT32_MAX. intros Hm.
  rewrite (mip_loop_blits img m (Z.to_nat (m - 1))) by lia.
  unfold seqZ. rewrite <- !list_fmap_compose. apply list_fmap_ext.
  intros _ k _. cbn. rewrite !half_or_one_iter.
  replace (1 + Z.of_nat k) with (Z.of_nat (S k)) by lia.
  replace (Z.of_nat k + 1) with (Z.of_nat (S k)) by lia. done.
Qed.

(** So does, for positive dimensions, the extent of every blit source. *)
Lemma mip_loop_src_extents img w h m :
  1 ≤ m ≤ UINT32_MAX → 1 ≤ w → 1 ≤ h →
  (λ b, (srcMipLevel b, srcOffsets1 b)) <$> blits (Mipmap.mip_loop img m 1 w h)
  = (λ i, (i, (Mipmap.level_size w i, Mipmap.level_size h i))) <$> seqZ 0 (m - 1).
Proof.
  unfold UINT32_MAX. intros Hm Hw Hh.
  rewrite (mip_loop_blits img m (Z.to_nat (m - 1))) by lia.
  unfold seqZ. rewrite <- !list_fmap_compose. apply list_fmap_ext.
  intros _ k _. cbn. rewrite !halve_iter by done.
  replace (1 + Z.of_nat k - 1) with (Z.of_nat k) by lia.
  replace (Z.of_nat k + 0) with (Z.of_nat k) by lia. done.
Qed.

Lemma exec_calls_commands img m w h ls :
  ImageState.exec_calls
    ([AllocateCommandBuffers; BeginCommandBuffer]
     ++ Mipmap.mip_loop img m 1 w h
     ++ [Mipmap.last_barrier img m;
         EndCommandBuffer; QueueSubmitOneShot; QueueWaitIdle; FreeCommandBuffers]) ls
  = ImageState.exec_calls (Mipmap.mip_loop img m 1 w h ++ [Mipmap.last_barrier img m]) ls.
Proof.
  cbn [app ImageState.exec_calls ImageState.exec_call mbind option_bind].
  rewrite !exec_calls_app.
  destruct (ImageState.exec_calls (Mipmap.mip_loop img m 1 w h) ls) as [ls1|]; [|done].
  cbn [mbind option_bind ImageState.exec_calls].
  destruct (ImageState.exec_call ls1 (Mipmap.last_barrier img m)); done.
Qed.

(** Commands that all name one image act on the layouts of that image and
    leave every other image alone. *)
Lemma exec_commands_on_image img cs : ∀ imgs ls,
  Forall (Gpu.on_image img) cs → imgs !! img = Some ls →
  Gpu.exec_commands cs imgs
  = ls' ← ImageState.exec_calls cs ls; Some (<[img := ls']> imgs).
Proof.
  induction cs as [|c cs IH]; intros imgs ls Hall Hls.
  - cbn. by rewrite insert_id.
  - apply Forall_cons in Hall as [Hc Hall].
    destruct c; try done; cbn in Hc; subst;
      cbn [Gpu.exec_commands Gpu.exec_command ImageState.exec_calls ImageState.exec_call];
      rewrite Hls; cbn [mbind option_bind].
    + destruct (ImageState.apply_barrier ls barrier) as [ls1|]; [|done].
      cbn [mbind option_bind].
      rewrite (IH _ ls1 Hall) by apply lookup_insert_eq.
      destruct (ImageState.exec_calls cs ls1); [|done].
      cbn. by rewrite insert_insert_eq.
    + destruct (ImageState.apply_blit ls srcImageLayout dstImageLayout blit) as [ls1|];
        [|done].
      cbn [mbind option_bind].
      rewrite (IH _ ls1 Hall) by apply lookup_insert_eq.
      destruct (ImageState.exec_calls cs ls1); [|done].
      cbn. by rewrite insert_insert_eq.
Qed.

Lemma mip_loop_on_image img m n : ∀ i w h,
  Z.of_nat n = Z.max 0 (m - i) →
  Forall (Gpu.on_image img) (Mipmap.mip_loop img m i w h).
Proof.
  induction n as [|n IH]; intros i w h Hn; rewrite mip_loop_step.
  - case_decide; [lia | done].
  - case_decide; [|lia].
    apply Forall_app. split; [|apply IH; lia].
    repeat (apply Forall_cons; split; [done|]). done.
Qed.

Lemma on_image_is_command img cs :
  Forall (Gpu.on_image img) cs → Forall (λ c, Gpu.is_command c = true) cs.
Proof. intros Hall. eapply Forall_impl; [exact Hall|]. by intros []. Qed.

(** Recording appends to the command buffer and leaves the images alone. *)
Lemma run_recording cmds : ∀ acc imgs rest,
  Forall (λ c, Gpu.is_command c = true) cmds →
  Gpu.run (cmds ++ rest) {| Gpu.commandBuffer := Gpu.Recording acc; Gpu.images := imgs |}
  = Gpu.run rest {| Gpu.commandBuffer := Gpu.Recording (acc ++ cmds); Gpu.images := imgs |}.
Proof.
  induction cmds as [|c cmds IH]; intros acc imgs rest Hall.
  - by rewrite app_nil_r.
  - apply Forall_cons in Hall as [Hc Hall].
    destruct c; try done;
      cbn [app Gpu.run Gpu.call Gpu.commandBuffer mbind option_bind];
      unfold Gpu.with_buffer; cbn [Gpu.images];
      rewrite (IH _ _ _ Hall), <- app_assoc; done.
Qed.

(** A single-use command buffer, from allocation to release: the device runs
    the recorded commands, and nothing else changes. *)
Lemma run_single_time_commands cmds imgs :
  Forall (λ c, Gpu.is_command c = true) cmds →
  Gpu.run ([AllocateCommandBuffers; BeginCommandBuffer] ++ cmds
           ++ [EndCommandBuffer; QueueSubmitOneShot; QueueWaitIdle; FreeCommandBuffers])
          (Gpu.idle imgs)
  = imgs' ← Gpu.exec_commands cmds imgs; Some (Gpu.idle imgs').
Proof.
  intros Hall. unfold Gpu.idle.
  do 2 (cbn [app Gpu.run Gpu.call Gpu.commandBuffer Gpu.images mbind option_bind];
        unfold Gpu.with_buffer).
  cbn [Gpu.commandBuffer Gpu.images mbind option_bind].
  rewrite (run_recording cmds [] imgs _ Hall).
  do 3 (cbn [app Gpu.run Gpu.call Gpu.commandBuffer Gpu.images mbind option_bind];
        unfold Gpu.with_buffer).
  cbn [app Gpu.run Gpu.call Gpu.commandBuffer Gpu.images mbind option_bind].
  destruct (Gpu.exec_commands cmds imgs); done.
Qed.

(** C1. For every mip count [1 <= m] (a [uint32_t]) and all dimensions
    [(w, h)], when the format supports linear blitting [generateMipmaps]
    returns normally, and its calls are a valid use of a single-use command
    buffer, from allocation to release, whose commands the device has run on
    return: on a device where the [m] levels of the image are transfer
    destinations (as [createTextureImage] leaves them), every level
    [0 .. m-1] of the image is in shader-read-only layout afterwards and every
    other image is as before.  For [m = 1] no blit is recorded and the only
    barrier moves level 0 from transfer-destination to shader-read-only.  The
    blit into level [i] ([1 <= i < m]) has the extent [max 1 (w / 2^i)] by
    [max 1 (h / 2^i)]; for positive dimensions the extent read from level [i]
    ([0 <= i < m-1]) is given by the same formula. *)
Theorem generateMipmaps_levels_shader_read_and_extents
    (dev : Memory.Device) (img : VkImage) (fmt : VkFormat) (w h m : Z) :
  1 ≤ m ≤ UINT32_MAX →
  Z.land (Memory.optimalTilingFeatures dev fmt)
         VK_FORMAT_FEATURE_SAMPLED_IMAGE_FILTER_LINEAR_BIT ≠ 0 →
  let r := Mipmap.generateMipmaps dev img fmt w h m in
  outcome r = inr tt
  ∧ (∀ imgs,
       imgs !! img = Some (replicate (Z.to_nat m) VK_IMAGE_LAYOUT_TRANSFER_DST_OPTIMAL) →
       Gpu.run (calls r) (Gpu.idle imgs)
       = Some (Gpu.idle
                 (<[img := replicate (Z.to_nat m) VK_IMAGE_LAYOUT_SHADER_READ_ONLY_OPTIMAL]>
                    imgs)))
  ∧ (m = 1 →
       blits (calls r) = []
       ∧ ∃ b, barriers (calls r) = [b]
              ∧ oldLayout b = VK_IMAGE_LAYOUT_TRANSFER_DST_OPTIMAL
              ∧ newLayout b = VK_IMAGE_LAYOUT_SHADER_READ_ONLY_OPTIMAL
              ∧ image b = img
              ∧ baseMipLevel b = 0 ∧ levelCount b = 1)
  ∧ (λ b, (dstMipLevel b, dstOffsets1 b)) <$> blits (calls r)
      = (λ i, (i, (Mipmap.level_size w i, Mipmap.level_size h i))) <$> seqZ 1 (m - 1)
  ∧ (1 ≤ w → 1 ≤ h →
       (λ b, (srcMipLevel b, srcOffsets1 b)) <$> blits (calls r)
       = (λ i, (i, (Mipmap.level_size w i, Mipmap.level_size h i))) <$> seqZ 0 (m - 1)).
Proof.
  intros Hm Hf r. subst r.
  rewrite generateMipmaps_run by done. cbn [calls outcome].
  split; [done|]. split; [|split; [|split]].
  - intros imgs Himg.
    assert (Forall (Gpu.on_image img)
              (Mipmap.mip_loop img m 1 w h ++ [Mipmap.last_barrier img m])) as Hon.
    { apply Forall_app. split; [|by apply Forall_singleton].
      apply (mip_loop_on_image img m (Z.to_nat (m - 1))). lia. }
    pose proof (run_single_time_commands _ imgs (on_image_is_command _ _ Hon)) as Hrun.
    rewrite <- app_assoc in Hrun. cbn [app] in Hrun. cbn [app]. rewrite Hrun.
    rewrite (exec_commands_on_image img _ imgs _ Hon Himg).
    rewrite <- exec_calls_commands, mip_calls_exec by done. done.
  - intros ->. rewrite mip_loop_step. case_decide; [lia|].
    split; [done|]. eexists. split; [reflexivity|]. done.
  - rewrite blits_generateMipmaps. by apply mip_loop_dst_extents.
  - intros Hw Hh. rewrite blits_generateMipmaps. by apply mip_loop_src_extents.
Qed.

Lemma generateMipmaps_levels_witness :
  1 ≤ 4 ≤ UINT32_MAX
  ∧ Z.land (Memory.optimalTilingFeatures Demo.device VK_FORMAT_R8G8B8A8_SRGB)
           VK_FORMAT_FEATURE_SAMPLED_IMAGE_FILTER_LINEAR_BIT ≠ 0
  ∧ Gpu.run
      (calls (Mipmap.generateMipmaps Demo.device 7 VK_FORMAT_R8G8B8A8_SRGB 10 3 4))
      (Gpu.idle {[ 7 := replicate 4 VK_IMAGE_LAYOUT_TRANSFER_DST_OPTIMAL ]})
    = Some (Gpu.idle
              (<[7 := replicate 4 VK_IMAGE_LAYOUT_SHADER_READ_ONLY_OPTIMAL]>
                 {[ 7 := replicate 4 VK_IMAGE_LAYOUT_TRANSFER_DST_OPTIMAL ]})).
Proof.
  assert (1 ≤ 4 ≤ UINT32_MAX) as H1 by (unfold UINT32_MAX; lia).
  assert (Z.land (Memory.optimalTilingFeatures Demo.device VK_FORMAT_R8G8B8A8_SRGB)
                 VK_FORMAT_FEATURE_SAMPLED_IMAGE_FILTER_LINEAR_BIT ≠ 0) as H2
    by (vm_compute; discriminate).
  split; [exact H1|]. split; [exact H2|].
  exact (proj1 (proj2 (generateMipmaps_levels_shader_read_and_extents
                         Demo.device 7 VK_FORMAT_R8G8B8A8_SRGB 10 3 4 H1 H2))
           {[ 7 := replicate 4 VK_IMAGE_LAYOUT_TRANSFER_DST_OPTIMAL ]}
           (lookup_singleton_eq _ _)).
Defined.

(** ** Memory-type selection *)

Section FindMemoryType.
Import Memory.

Lemma scan_step mp tf p i :
  scan mp tf p i =
    if decide (i < memoryTypeCount mp)
    then if suitable_at mp tf p i then Some i else scan mp tf p (i + 1)
    else None.
Proof.
  rewrite scan_equation_1.
  destruct (Z_lt_dec i (memoryTypeCount mp)); simp scan; case_decide; done || lia.
Qed.

(** The loop returns the least acceptable index at or after [i]. *)
Lemma scan_Some mp tf p n : ∀ i r,
  Z.of_nat n = Z.max 0 (memoryTypeCount mp - i) →
  scan mp tf p i = Some r ↔
    i ≤ r < memoryTypeCount mp ∧ suitable_at mp tf p r = true
    ∧ ∀ j, i ≤ j < r → suitable_at mp tf p j = false.
Proof.
  induction n as [|n IH]; intros i r Hn; rewrite scan_step; case_decide; try lia.
  - split; [done | lia].
  - destruct (suitable_at mp tf p i) eqn:Hs.
    + split.
      * intros [= <-]. split; [lia|]. split; [done|]. intros; lia.
      * intros (Hr & Hsr & Hmin). f_equal.
        destruct (decide (i = r)) as [|Hne]; [done|].
        specialize (Hmin i ltac:(lia)). congruence.
    + rewrite (IH (i + 1)) by lia. split.
      * intros (Hr & Hsr & Hmin). split; [lia|]. split; [done|].
        intros j Hj. destruct (decide (j = i)) as [->|]; [done | apply Hmin; lia].
      * intros (Hr & Hsr & Hmin).
        assert (i ≠ r) by congruence.
        split; [lia|]. split; [done|]. intros; apply Hmin; lia.
Qed.

Lemma scan_None mp tf p n : ∀ i,
  Z.of_nat n = Z.max 0 (memoryTypeCount mp - i) →
  scan mp tf p i = None ↔
    ∀ j, i ≤ j < memoryTypeCount mp → suitable_at mp tf p j = false.
Proof.
  induction n as [|n IH]; intros i Hn; rewrite scan_step; case_decide; try lia.
  - split; [intros; lia | done].
  - destruct (suitable_at mp tf p i) eqn:Hs.
    + split; [done|]. intros Hall. specialize (Hall i ltac:(lia)). congruence.
    + rewrite (IH (i + 1)) by lia. split.
      * intros Hall j Hj. destruct (decide (j = i)) as [->|]; [done | apply Hall; lia].
      * intros Hall j Hj. apply Hall; lia.
Qed.

Lemma land_bit_nonzero tf i :
  0 ≤ i → negb (Z.land tf (2 ^ i) =? 0) = Z.testbit tf i.
Proof.
  intros Hi. destruct (Z.testbit tf i) eqn:Hb.
  - apply negb_true_iff, Z.eqb_neq. intros H0.
    assert (Z.testbit (Z.land tf (2 ^ i)) i = true) as Hc.
    { rewrite Z.land_spec, Hb, Z.pow2_bits_true; done. }
    rewrite H0, Z.bits_0 in Hc. done.
  - apply negb_false_iff, Z.eqb_eq, Z.bits_inj'. intros k Hk.
    rewrite Z.land_spec, Z.bits_0, Z.pow2_bits_eqb by done.
    destruct (Z.eqb_spec i k) as [->|]; [by rewrite Hb | apply andb_false_r].
Qed.

Lemma land_superset flags p :
  Z.land flags p = p ↔ ∀ k, Z.testbit p k = true → Z.testbit flags k = true.
Proof.
  split.
  - intros H k Hk. rewrite <- H, Z.land_spec in Hk. by apply andb_true_iff in Hk as [? _].
  - intros H. apply Z.bits_inj. intros k. rewrite Z.land_spec.
    destruct (Z.testbit p k) eqn:Hp; [by rewrite H | apply andb_false_r].
Qed.

Lemma suitable_at_spec mp tf p i :
  0 ≤ i < VK_MAX_MEMORY_TYPES →
  suitable_at mp tf p i = true ↔ suitable mp tf p i.
Proof.
  unfold VK_MAX_MEMORY_TYPES. intros Hi. unfold suitable_at, suitable.
  rewrite Z.shiftl_1_l, u32_small by (split; [|apply Z.pow_lt_mono_r]; lia).
  rewrite land_bit_nonzero, andb_true_iff, Z.eqb_eq, land_superset by lia. done.
Qed.

End FindMemoryType.

(** C6. [findMemoryType] scans the reported memory types in index order
    and returns the first index [i] whose bit is set in the filter and whose
    property flags contain every requested property; when no index qualifies
    it throws, with nothing relaxed.  The answer is a function of the
    memory-type list, the filter and the requested properties. *)
Theorem findMemoryType_first_suitable_index
    (mp : Memory.VkPhysicalDeviceMemoryProperties) (typeFilter : Z)
    (properties : VkMemoryPropertyFlags) :
  Memory.memoryTypeCount mp ≤ VK_MAX_MEMORY_TYPES →
  (∀ i, Memory.findMemoryType mp typeFilter properties = inr i ↔
        0 ≤ i < Memory.memoryTypeCount mp
        ∧ Memory.suitable mp typeFilter properties i
        ∧ ∀ j, 0 ≤ j < i → ¬ Memory.suitable mp typeFilter properties j)
  ∧ (Memory.findMemoryType mp typeFilter properties
       = inl (runtime_error "failed to find suitable memory type!") ↔
     ∀ j, 0 ≤ j < Memory.memoryTypeCount mp → ¬ Memory.suitable mp typeFilter properties j)
  ∧ (∀ e, Memory.findMemoryType mp typeFilter properties = inl e →
          e = runtime_error "failed to find suitable memory type!")
  ∧ (∀ typeFilter' properties',
       typeFilter' = typeFilter → properties' = properties →
       Memory.findMemoryType mp typeFilter' properties'
       = Memory.findMemoryType mp typeFilter properties).
Proof.
  intros Hc. unfold Memory.findMemoryType.
  set (n := Z.to_nat (Memory.memoryTypeCount mp)).
  assert (Z.of_nat n = Z.max 0 (Memory.memoryTypeCount mp - 0)) as Hn by lia.
  pose proof (scan_Some mp typeFilter properties n 0) as HS.
  pose proof (scan_None mp typeFilter properties n 0 Hn) as HN.
  assert (∀ j, 0 ≤ j < Memory.memoryTypeCount mp →
     Memory.suitable_at mp typeFilter properties j = false
     ↔ ¬ Memory.suitable mp typeFilter properties j) as Hneg.
  { intros j Hj. rewrite <- suitable_at_spec by lia.
    destruct (Memory.suitable_at mp typeFilter properties j); split; congruence. }
  split; [|split; [|split]].
  - intros i. specialize (HS i Hn).
    destruct (Memory.scan mp typeFilter properties 0) as [r|] eqn:Hscan.
    + split.
      * intros [= <-]. destruct (proj1 HS eq_refl) as (Hr & Hs & Hmin).
        split; [done|]. split; [apply suitable_at_spec; [lia | done]|].
        intros j Hj. apply Hneg; [lia | apply Hmin; lia].
      * intros (Hi & Hs & Hmin). f_equal.
        assert (Some r = Some i) as [= ->]; [|done].
        apply HS. split; [done|]. split; [apply suitable_at_spec; [lia | done]|].
        intros j Hj. apply Hneg; [lia | apply Hmin; lia].
    + split; [done|]. intros (Hi & Hs & Hmin).
      assert (None = Some i) as Hbad; [|done].
      apply HS. split; [done|]. split; [apply suitable_at_spec; [lia | done]|].
      intros j Hj. apply Hneg; [lia | apply Hmin; lia].
  - destruct (Memory.scan mp typeFilter properties 0) as [r|] eqn:Hscan.
    + split; [done|]. intros Hall.
      assert (Some r = None) as Hbad; [|done].
      apply HN. intros j Hj. apply Hneg; [done | apply Hall; done].
    + split; [|done]. intros _ j Hj. apply Hneg; [done|].
      apply (proj1 HN); done.
  - intros e. destruct (Memory.scan mp typeFilter properties 0); congruence.
  - intros ? ? -> ->. done.
Qed.

Lemma findMemoryType_first_suitable_witness :
  Memory.memoryTypeCount (Memory.memProperties Demo.device) ≤ VK_MAX_MEMORY_TYPES
  ∧ Memory.findMemoryType (Memory.memProperties Demo.device) 0x6 0x6 = inr 1
  ∧ Memory.suitable (Memory.memProperties Demo.device) 0x6 0x6 1
  ∧ ¬ Memory.suitable (Memory.memProperties Demo.device) 0x6 0x6 0.
Proof.
  assert (Memory.memoryTypeCount (Memory.memProperties Demo.device)
          ≤ VK_MAX_MEMORY_TYPES) as Hc by (vm_compute; discriminate).
  pose proof (proj1 (findMemoryType_first_suitable_index
                       (Memory.memProperties Demo.device) 0x6 0x6 Hc) 1) as H.
  assert (Memory.findMemoryType (Memory.memProperties Demo.device) 0x6 0x6 = inr 1)
    as Hf by reflexivity.
  destruct (proj1 H Hf) as (_ & Hs & Hmin).
  split; [exact Hc|]. split; [exact Hf|]. split; [exact Hs|].
  apply Hmin. lia.
Defined.

(** ** Swap extent and swapchain recreation *)

Section SwapExtent.
Import Swapchain.

Lemma clamp_bounds v lo hi : lo ≤ hi → lo ≤ clamp v lo hi ≤ hi.
Proof.
  intros. unfold clamp.
  destruct (Z.ltb_spec v lo); [lia|]. destruct (Z.ltb_spec hi v); lia.
Qed.

Lemma clamp_idempotent v lo hi : lo ≤ hi → clamp (clamp v lo hi) lo hi = clamp v lo hi.
Proof.
  intros. pose proof (clamp_bounds v lo hi ltac:(done)). unfold clamp at 1.
  destruct (Z.ltb_spec (clamp v lo hi) lo); [lia|].
  destruct (Z.ltb_spec hi (clamp v lo hi)); [lia | done].
Qed.

(** A surface with a current extent of its own gets exactly that extent. *)
Lemma selectSwapExtent_current now caps :
  width (currentExtent caps) ≠ UINT32_MAX →
  selectSwapExtent now caps = currentExtent caps.
Proof.
  intros H. unfold selectSwapExtent.
  destruct (Z.eqb_spec (width (currentExtent caps)) UINT32_MAX); done.
Qed.

(** With the sentinel, the extent is the clamped window size; it is the
    clamped framebuffer size on systems where the two sizes agree. *)
Lemma selectSwapExtent_sentinel now caps :
  width (currentExtent caps) = UINT32_MAX →
  glfwGetWindowSize now = glfwGetFramebufferSize now →
  selectSwapExtent now caps = clamped_framebuffer_extent now caps.
Proof.
  intros H Heq. unfold selectSwapExtent, clamped_framebuffer_extent.
  rewrite H, Z.eqb_refl, Heq. done.
Qed.

End SwapExtent.

(** C7 (the code departs from it).  On a high-DPI desktop whose surface
    reports the sentinel extent, [selectSwapExtent] returns the clamped window
    size, 800 by 600, where the claim asks for the clamped framebuffer size,
    1600 by 1200. *)
Theorem selectSwapExtent_uses_window_size_not_framebuffer_size :
  Swapchain.selectSwapExtent Demo.hidpi (Swapchain.capabilities Demo.hidpi)
    = {| width := 800; height := 600 |}
  ∧ Swapchain.clamped_framebuffer_extent Demo.hidpi (Swapchain.capabilities Demo.hidpi)
    = {| width := 1600; height := 1200 |}
  ∧ Swapchain.selectSwapExtent Demo.hidpi (Swapchain.capabilities Demo.hidpi)
    ≠ Swapchain.clamped_framebuffer_extent Demo.hidpi (Swapchain.capabilities Demo.hidpi).
Proof. split; [reflexivity|]. split; [reflexivity|]. vm_compute. discriminate. Qed.

Section Recreate.
Import Swapchain.

Lemma wait_nonzero_Some env fuel : ∀ k w h k' evs,
  (w, h) = glfwGetFramebufferSize (env k) →
  wait_nonzero fuel env (S k) w h = Some (k', evs) →
  (S k ≤ k' ≤ S k + fuel)%nat
  ∧ is_zero_size (glfwGetFramebufferSize (env (k' - 1)%nat)) = false
  ∧ (∀ j, (k ≤ j < k' - 1)%nat → is_zero_size (glfwGetFramebufferSize (env j)) = true)
  ∧ evs = poll_events env (S k) (k' - S k).
Proof.
  induction fuel as [|fuel IH]; intros k w h k' evs Hwh; simpl;
    destruct ((w =? 0) || (h =? 0)) eqn:Hz.
  - done.
  - intros [= <- <-]. replace (S k - 1)%nat with k by lia.
    rewrite <- Hwh. unfold is_zero_size. simpl. rewrite Hz.
    split; [lia|]. split; [done|]. split; [intros; lia|].
    by rewrite Nat.sub_diag.
  - destruct (glfwGetFramebufferSize (env (S k))) as [w' h'] eqn:Hnext.
    destruct (wait_nonzero fuel env (S (S k)) w' h') as [[k2 evs2]|] eqn:Hrec; [|done].
    simpl. intros [= <- <-].
    apply IH in Hrec as (Hk & Hlast & Hbefore & ->); [|done].
    split; [lia|]. split; [done|]. split.
    + intros j Hj. destruct (decide (j = k)) as [->|].
      * rewrite <- Hwh. unfold is_zero_size. simpl. done.
      * apply Hbefore. lia.
    + unfold poll_events. replace (k2 - S k)%nat with (S (k2 - S (S k))) by lia.
      simpl. by rewrite Hnext.
  - intros [= <- <-]. replace (S k - 1)%nat with k by lia.
    rewrite <- Hwh. unfold is_zero_size. simpl. rewrite Hz.
    split; [lia|]. split; [done|]. split; [intros; lia|].
    by rewrite Nat.sub_diag.
Qed.

Lemma wait_nonzero_None env fuel : ∀ k w h,
  (w, h) = glfwGetFramebufferSize (env k) →
  (∀ j, (k ≤ j ≤ k + fuel)%nat → is_zero_size (glfwGetFramebufferSize (env j)) = true) →
  wait_nonzero fuel env (S k) w h = None.
Proof.
  induction fuel as [|fuel IH]; intros k w h Hwh Hall; simpl.
  - pose proof (Hall k ltac:(lia)) as Hz. rewrite <- Hwh in Hz.
    unfold is_zero_size in Hz. simpl in Hz. by rewrite Hz.
  - pose proof (Hall k ltac:(lia)) as Hz. rewrite <- Hwh in Hz.
    unfold is_zero_size in Hz. simpl in Hz. rewrite Hz.
    destruct (glfwGetFramebufferSize (env (S k))) as [w' h'] eqn:Hnext.
    rewrite (IH (S k) w' h'); [done | done |].
    intros j Hj. apply Hall. lia.
Qed.

Lemma wait_nonzero_returns env fuel : ∀ k w h n,
  (w, h) = glfwGetFramebufferSize (env k) →
  (k ≤ n ≤ k + fuel)%nat → is_zero_size (glfwGetFramebufferSize (env n)) = false →
  is_Some (wait_nonzero fuel env (S k) w h).
Proof.
  induction fuel as [|fuel IH]; intros k w h n Hwh Hn Hnz; simpl;
    destruct ((w =? 0) || (h =? 0)) eqn:Hz; try done.
  - assert (n = k) as -> by lia. rewrite <- Hwh in Hnz.
    unfold is_zero_size in Hnz. simpl in Hnz. congruence.
  - destruct (decide (n = k)) as [->|].
    { rewrite <- Hwh in Hnz. unfold is_zero_size in Hnz. simpl in Hnz. congruence. }
    destruct (glfwGetFramebufferSize (env (S k))) as [w' h'] eqn:Hnext.
    destruct (IH (S k) w' h' n) as [[k2 evs2] ->]; [done | lia | done |].
    done.
Qed.

End Recreate.

(** C8 fails as stated: the extent of the new swapchain is not the size
    polled but what [selectSwapExtent] picks from the surface queried
    afterwards.  The window is 800 by 600 when polled and minimized right
    after: [recreateSwapChain] does not wait, and creates a swapchain of
    extent 0 by 0. *)
Lemma recreateSwapChain_zero_extent_after_nonzero_poll :
  Swapchain.is_zero_size
    (Swapchain.glfwGetFramebufferSize (Demo2.restored_then_minimized 0%nat)) = false
  ∧ Swapchain.recreateSwapChain 0 Demo2.restored_then_minimized
    = Some [Swapchain.GetFramebufferSize (800, 600);
            Swapchain.DeviceWaitIdle; Swapchain.CleanupSwapChain;
            Swapchain.CreateSwapChain {| width := 0; height := 0 |};
            Swapchain.CreateImageViews; Swapchain.CreateDepthResources;
            Swapchain.CreateFramebuffers].
Proof. split; reflexivity. Qed.

(** C8, amended.  [recreateSwapChain] starts by polling the framebuffer size and
    keeps polling while either dimension is zero.  Whenever it goes on to
    idle the device, destroy and rebuild the swapchain, the last size polled
    is non-zero in both dimensions, every size polled before it had a zero
    dimension, and all polls precede the rebuild; when the surface then
    reports that polled size as its extent, the swapchain created has that
    non-zero extent.  While every poll answers a zero dimension the function
    does not proceed; once some poll answers a non-zero size it does. *)
Theorem recreateSwapChain_blocks_until_framebuffer_nonzero (env : nat → Swapchain.Moment) :
  (∀ fuel evs, Swapchain.recreateSwapChain fuel env = Some evs →
     ∃ k, (1 ≤ k ≤ S fuel)%nat
       ∧ Swapchain.is_zero_size (Swapchain.glfwGetFramebufferSize (env (k - 1)%nat)) = false
       ∧ (∀ j, (j < k - 1)%nat →
               Swapchain.is_zero_size (Swapchain.glfwGetFramebufferSize (env j)) = true)
       ∧ evs = Swapchain.GetFramebufferSize (Swapchain.glfwGetFramebufferSize (env 0%nat))
               :: Swapchain.poll_events env 1 (k - 1)
               ++ [Swapchain.DeviceWaitIdle; Swapchain.CleanupSwapChain;
                   Swapchain.CreateSwapChain
                     (Swapchain.selectSwapExtent (env k) (Swapchain.capabilities (env k)));
                   Swapchain.CreateImageViews; Swapchain.CreateDepthResources;
                   Swapchain.CreateFramebuffers]
       ∧ (∀ w h,
            Swapchain.glfwGetFramebufferSize (env (k - 1)%nat) = (w, h) →
            0 ≤ w ≤ INT32_MAX → 0 ≤ h ≤ INT32_MAX →
            Swapchain.currentExtent (Swapchain.capabilities (env k))
              = {| width := w; height := h |} →
            Swapchain.selectSwapExtent (env k) (Swapchain.capabilities (env k))
              = {| width := w; height := h |}
            ∧ w ≠ 0 ∧ h ≠ 0))
  ∧ (∀ fuel,
       (∀ j, (j ≤ fuel)%nat →
             Swapchain.is_zero_size (Swapchain.glfwGetFramebufferSize (env j)) = true) →
       Swapchain.recreateSwapChain fuel env = None)
  ∧ (∀ n fuel,
       Swapchain.is_zero_size (Swapchain.glfwGetFramebufferSize (env n)) = false →
       (n ≤ fuel)%nat →
       is_Some (Swapchain.recreateSwapChain fuel env)).
Proof.
  split; [|split].
  - intros fuel evs. unfold Swapchain.recreateSwapChain.
    destruct (Swapchain.glfwGetFramebufferSize (env 0%nat)) as [w0 h0] eqn:H0.
    destruct (Swapchain.wait_nonzero fuel env 1 w0 h0) as [[k evs']|] eqn:Hw; [|done].
    simpl. intros [= <-].
    apply wait_nonzero_Some in Hw as (Hk & Hlast & Hbefore & ->); [|done].
    exists k. split; [lia|]. split; [done|]. split; [intros; apply Hbefore; lia|].
    split; [done|].
    intros w h Hwh Hw Hh Hcur.
    rewrite Hwh in Hlast. unfold Swapchain.is_zero_size in Hlast. simpl in Hlast.
    apply orb_false_iff in Hlast as [Hnw Hnh].
    apply Z.eqb_neq in Hnw, Hnh.
    rewrite selectSwapExtent_current; [done|].
    rewrite Hcur. simpl. unfold UINT32_MAX, INT32_MAX in *. lia.
  - intros fuel Hall. unfold Swapchain.recreateSwapChain.
    destruct (Swapchain.glfwGetFramebufferSize (env 0%nat)) as [w0 h0] eqn:H0.
    rewrite (wait_nonzero_None env fuel 0 w0 h0); [done | done |].
    intros j Hj. apply Hall. lia.
  - intros n fuel Hnz Hn. unfold Swapchain.recreateSwapChain.
    destruct (Swapchain.glfwGetFramebufferSize (env 0%nat)) as [w0 h0] eqn:H0.
    destruct (wait_nonzero_returns env fuel 0 w0 h0 n) as [[k evs] ->]; [done | lia | done |].
    done.
Qed.

Lemma recreateSwapChain_blocks_witness :
  Swapchain.is_zero_size
    (Swapchain.glfwGetFramebufferSize (Demo.minimized_then_restored 2)) = false
  ∧ (2 ≤ 2)%nat
  ∧ is_Some (Swapchain.recreateSwapChain 2 Demo.minimized_then_restored).
Proof.
  split; [reflexivity|]. split; [constructor|].
  exact (proj2 (proj2 (recreateSwapChain_blocks_until_framebuffer_nonzero
                         Demo.minimized_then_restored))
               2%nat 2%nat eq_refl (le_n 2)).
Defined.

(** ** The frame loop *)

Section FrameLoop.
Import Frame.

Lemma guarded_sum fences unfinished :
  Forall2 guarded fences unfinished →
  (sum_list unfinished ≤ length (filter (λ b, b = false) fences))%nat.
Proof.
  induction 1 as [|b n fs ns [Hle Hsig] _ IH]; [done|].
  rewrite filter_cons. simpl. destruct b.
  - rewrite Hsig by done. case_decide; [done|]. simpl. lia.
  - case_decide; [|done]. simpl. lia.
Qed.

Lemma inv_init N : 0 < N → inv N (init N).
Proof.
  intros HN. unfold inv, init. simpl. split; [lia|]. split; [by rewrite length_replicate|].
  apply Forall2_same_length_lookup. split; [by rewrite !length_replicate|].
  intros i b n [-> _]%lookup_replicate_1 [-> _]%lookup_replicate_1.
  split; [lia | done].
Qed.

(** Past the fence wait, the command buffer of the current slot is retired. *)
Lemma inv_signaled_retired N s :
  inv N s → fence_signaled s (m_currentFrame s) = true →
  outstanding s !! Z.to_nat (m_currentFrame s) = Some 0%nat.
Proof.
  intros (Hf & Hlen & Hall) Hsig. unfold fence_signaled in Hsig.
  apply bool_decide_eq_true in Hsig.
  destruct (Forall2_lookup_l _ _ _ _ _ Hall Hsig) as (n & Hn & _ & Hz).
  by rewrite Hn, Hz.
Qed.

Lemma inv_reset N s :
  inv N s → fence_signaled s (m_currentFrame s) = true →
  inv N (reset_fence (m_currentFrame s) s).
Proof.
  intros Hinv Hsig. pose proof (inv_signaled_retired N s Hinv Hsig) as Hret.
  destruct Hinv as (Hf & Hlen & Hall).
  unfold inv, reset_fence. simpl.
  split; [done|]. split; [by rewrite length_insert|].
  apply Forall2_same_length_lookup. split.
  { rewrite length_insert. by eapply Forall2_length. }
  intros i b n Hb Hn.
  destruct (decide (i = Z.to_nat (m_currentFrame s))) as [->|Hne].
  - rewrite Hret in Hn. injection Hn as <-.
    rewrite list_lookup_insert_eq in Hb by lia. injection Hb as <-.
    split; [lia | done].
  - rewrite list_lookup_insert_ne in Hb by done.
    by eapply Forall2_lookup_lr.
Qed.

Lemma inv_submitted N s :
  inv N s → fence_signaled s (m_currentFrame s) = true →
  inv N (submitted (m_currentFrame s) (reset_fence (m_currentFrame s) s)).
Proof.
  intros Hinv Hsig. pose proof (inv_signaled_retired N s Hinv Hsig) as Hret.
  destruct (inv_reset N s Hinv Hsig) as (Hf & Hlen & Hall).
  unfold inv, submitted, reset_fence in *. simpl in *.
  split; [done|]. split; [done|].
  apply Forall2_same_length_lookup. split.
  { rewrite length_alter. by eapply Forall2_length. }
  intros i b n Hb Hn.
  destruct (decide (i = Z.to_nat (m_currentFrame s))) as [->|Hne].
  - rewrite list_lookup_alter_eq, Hret in Hn. simpl in Hn. injection Hn as <-.
    rewrite list_lookup_insert_eq in Hb by lia. injection Hb as <-.
    split; [lia | done].
  - rewrite list_lookup_alter_ne in Hn by done.
    by eapply Forall2_lookup_lr.
Qed.

Lemma inv_advance N s : 0 < N → inv N s → inv N (advance N s).
Proof.
  intros HN (Hf & Hlen & Hall). unfold inv, advance. simpl.
  split; [apply Z.mod_pos_bound; lia | done].
Qed.

Lemma inv_submit N s :
  0 < N → inv N s → fence_signaled s (m_currentFrame s) = true →
  inv N (advance N (submitted (m_currentFrame s) (reset_fence (m_currentFrame s) s))).
Proof. intros. by apply inv_advance, inv_submitted. Qed.

Lemma inv_bound N s :
  inv N s → (unretired s ≤ unsignaled s ≤ Z.to_nat N)%nat.
Proof.
  intros (Hf & Hlen & Hall). unfold unretired, unsignaled.
  split; [by apply guarded_sum|]. rewrite <- Hlen. apply length_filter.
Qed.

Lemma inv_set_resized N flag s : inv N s → inv N (set_resized flag s).
Proof. done. Qed.

(** A [draw] that returns normally either abandoned the frame or submitted
    it and moved to the next slot. *)
Lemma draw_returns_cases N a s r :
  draw N a s = Some r → result r = inr tt →
  fence_signaled s (m_currentFrame s) = true
  ∧ (app r = s
     ∨ app r = advance N (submitted (m_currentFrame s) (reset_fence (m_currentFrame s) s))
     ∨ app r = advance N (set_resized false
                 (submitted (m_currentFrame s) (reset_fence (m_currentFrame s) s)))).
Proof.
  unfold draw. intros H Hres.
  destruct (fence_signaled s (m_currentFrame s)) eqn:Hsig; [|done]. simpl in H.
  split; [done|].
  repeat match type of H with
         | context [if ?c then _ else _] => destruct c eqn:?
         end;
    injection H as <-; simpl in *; try discriminate; auto.
Qed.

Lemma inv_step N s s' : 0 < N → inv N s → step N s s' → inv N s'.
Proof.
  intros HN Hinv Hstep. destruct Hstep as [s slot n Hout | s | s a r Hdraw Hres].
  - destruct Hinv as (Hf & Hlen & Hall).
    unfold inv, gpu_complete. simpl.
    split; [done|]. split; [by rewrite length_insert|].
    apply Forall2_same_length_lookup. split.
    { rewrite length_insert, length_alter. by eapply Forall2_length. }
    intros i b k Hb Hk.
    destruct (decide (i = slot)) as [->|Hne].
    + rewrite list_lookup_alter_eq, Hout in Hk. simpl in Hk. injection Hk as <-.
      destruct (Forall2_lookup_r _ _ _ _ _ Hall Hout) as (b0 & _ & Hle & _).
      split; [lia|]. intros _. lia.
    + rewrite list_lookup_alter_ne in Hk by done.
      rewrite list_lookup_insert_ne in Hb by done.
      by eapply Forall2_lookup_lr.
  - by apply inv_set_resized.
  - destruct (draw_returns_cases N a s r Hdraw Hres) as (Hsig & [-> | [-> | ->]]).
    + done.
    + by apply inv_submit.
    + by apply (inv_submit N s HN Hinv Hsig).
Qed.

Lemma inv_reachable N s : 0 < N → reachable N s → inv N s.
Proof.
  intros HN Hreach. unfold reachable in Hreach. revert s Hreach.
  apply rtc_ind_r; [by apply inv_init|].
  intros y z _ Hstep IH. by eapply inv_step.
Qed.

End FrameLoop.

(** C2. With [N >= 2] frames in flight, in every state the running program
    can reach, the command buffers the GPU has not retired are at most as many
    as the unsignaled fences, hence at most [N]; each slot has at most one
    unfinished submission, and then its fence is unsignaled.  [draw] does not
    get past [vkWaitForFences] while the fence of the current slot is
    unsignaled; when it does, that wait is its first call, the slot's command
    buffer is retired, the only command buffer it resets or submits is the
    one of that slot, and the bound also holds in the states inside [draw],
    after the fence reset and after the submission. *)
Theorem at_most_N_command_buffers_unretired (N : Z) (s : Frame.App) :
  2 ≤ N → Frame.reachable N s →
  (Frame.unretired s ≤ Frame.unsignaled s ≤ Z.to_nat N)%nat
  ∧ (∀ slot n, Frame.outstanding s !! slot = Some n →
       (n ≤ 1)%nat ∧ (n = 1%nat → Frame.m_inFlightFences s !! slot = Some false))
  ∧ (∀ a, Frame.draw N a s = None
          ↔ Frame.fence_signaled s (Frame.m_currentFrame s) = false)
  ∧ (∀ a r, Frame.draw N a s = Some r →
       head (Frame.trace r) = Some (Frame.WaitForFences (Frame.m_currentFrame s))
       ∧ Frame.outstanding s !! Z.to_nat (Frame.m_currentFrame s) = Some 0%nat
       ∧ (∀ slot, Frame.ResetCommandBuffer slot ∈ Frame.trace r
                  ∨ Frame.QueueSubmit slot ∈ Frame.trace r →
                  slot = Frame.m_currentFrame s)
       ∧ ∀ s', s' = Frame.reset_fence (Frame.m_currentFrame s) s
               ∨ s' = Frame.submitted (Frame.m_currentFrame s)
                        (Frame.reset_fence (Frame.m_currentFrame s) s) →
               (Frame.unretired s' ≤ Frame.unsignaled s' ≤ Z.to_nat N)%nat).
Proof.
  intros HN Hreach. pose proof (inv_reachable N s ltac:(lia) Hreach) as Hinv.
  pose proof Hinv as (Hf & Hlen & Hall).
  split; [|split; [|split]].
  - by apply inv_bound.
  - intros slot n Hn.
    destruct (Forall2_lookup_r _ _ _ _ _ Hall Hn) as (b & Hb & Hle & Hsig).
    split; [done|]. intros ->. destruct b; [|done].
    specialize (Hsig eq_refl). lia.
  - intros a. unfold Frame.draw.
    destruct (Frame.fence_signaled s (Frame.m_currentFrame s)); simpl; [|done].
    split; [|done]. intros H. draw_cases H; done.
  - intros a r H.
    assert (Frame.fence_signaled s (Frame.m_currentFrame s) = true) as Hsig.
    { unfold Frame.draw in H.
      by destruct (Frame.fence_signaled s (Frame.m_currentFrame s)). }
    split; [|split; [by eapply inv_signaled_retired|split]].
    + unfold Frame.draw in H. rewrite Hsig in H. simpl in H.
      draw_cases H; by injection H as <-.
    + intros slot Hin. unfold Frame.draw in H. rewrite Hsig in H. simpl in H.
      draw_cases H; injection H as <-; simpl in Hin;
        rewrite ?elem_of_cons, ?elem_of_nil in Hin;
        intuition (try discriminate; congruence).
    + intros s' [-> | ->]; apply inv_bound.
      * by apply inv_reset.
      * by apply inv_submitted.
Qed.

Lemma at_most_N_command_buffers_witness :
  2 ≤ 2
  ∧ Frame.reachable 2 Demo.after_first_frame
  ∧ (Frame.unretired Demo.after_first_frame ≤ Frame.unsignaled Demo.after_first_frame ≤ 2)%nat.
Proof.
  assert (2 ≤ 2) as H2 by lia.
  assert (Frame.reachable 2 Demo.after_first_frame) as Hr.
  { unfold Frame.reachable. apply rtc_once.
    exact (Frame.step_draw 2 (Frame.init 2) Demo.all_success
             {| Frame.trace :=
                  [Frame.WaitForFences 0; Frame.AcquireNextImage 0;
                   Frame.UpdateUniformBuffer 0; Frame.ResetFences 0;
                   Frame.ResetCommandBuffer 0; Frame.RecordCommandBuffer 0 0;
                   Frame.QueueSubmit 0; Frame.QueuePresent 0];
                Frame.app := Demo.after_first_frame;
                Frame.result := inr tt |}
             eq_refl eq_refl). }
  split; [exact H2|]. split; [exact Hr|].
  exact (proj1 (at_most_N_command_buffers_unretired 2 Demo.after_first_frame H2 Hr)).
Defined.

(** C4. When [draw] gets past the fence wait and acquisition reports
    out-of-date, it calls [recreateSwapChain] and ends as that call ends, by
    returning or with its exception: nothing is submitted or presented, no
    fence is reset, no call follows the recreation, and the application state
    is unchanged; the frame counter stays at [f] and the fence of slot [f]
    stays signaled, so that the next [draw] does not wait for a frame that was
    never submitted. *)
Theorem draw_acquire_out_of_date_abandons_frame
    (N : Z) (a : Frame.Answers) (s : Frame.App) :
  Frame.resultAcquireNextImageKHR a = VK_ERROR_OUT_OF_DATE_KHR →
  Frame.fence_signaled s (Frame.m_currentFrame s) = true →
  Frame.draw N a s
    = Some {| Frame.trace := [Frame.WaitForFences (Frame.m_currentFrame s);
                              Frame.AcquireNextImage (Frame.m_currentFrame s);
                              Frame.RecreateSwapChain];
              Frame.app := s;
              Frame.result := Frame.resultRecreateSwapChain a |}
  ∧ (∀ r, Frame.draw N a s = Some r →
       Frame.RecreateSwapChain ∈ Frame.trace r
       ∧ (∀ slot, (Frame.QueueSubmit slot ∉ Frame.trace r)
                  ∧ (Frame.ResetFences slot ∉ Frame.trace r)
                  ∧ (Frame.ResetCommandBuffer slot ∉ Frame.trace r))
       ∧ (∀ i, Frame.QueuePresent i ∉ Frame.trace r)
       ∧ Frame.m_currentFrame (Frame.app r) = Frame.m_currentFrame s
       ∧ Frame.m_inFlightFences (Frame.app r) = Frame.m_inFlightFences s
       ∧ Frame.outstanding (Frame.app r) = Frame.outstanding s
       ∧ ∀ a', Frame.draw N a' (Frame.app r) ≠ None).
Proof.
  intros Hacq Hsig.
  assert (Frame.draw N a s
    = Some {| Frame.trace := [Frame.WaitForFences (Frame.m_currentFrame s);
                              Frame.AcquireNextImage (Frame.m_currentFrame s);
                              Frame.RecreateSwapChain];
              Frame.app := s;
              Frame.result := Frame.resultRecreateSwapChain a |}) as Hdraw.
  { unfold Frame.draw. rewrite Hsig, Hacq. done. }
  split; [done|]. intros r Hr. rewrite Hdraw in Hr. injection Hr as <-. simpl.
  split; [trace_elem|]. split; [intros slot; unfold not; trace_elem|].
  split; [intros i; unfold not; trace_elem|].
  split; [done|]. split; [done|]. split; [done|].
  intros a' Hnone. unfold Frame.draw in Hnone. rewrite Hsig in Hnone. simpl in Hnone.
  draw_cases Hnone; done.
Qed.

Lemma draw_acquire_out_of_date_witness :
  Frame.resultAcquireNextImageKHR Demo.acquire_out_of_date = VK_ERROR_OUT_OF_DATE_KHR
  ∧ Frame.fence_signaled Demo.after_first_frame
      (Frame.m_currentFrame Demo.after_first_frame) = true
  ∧ Frame.draw 2 Demo.acquire_out_of_date Demo.after_first_frame
    = Some {| Frame.trace := [Frame.WaitForFences 1; Frame.AcquireNextImage 1;
                              Frame.RecreateSwapChain];
              Frame.app := Demo.after_first_frame;
              Frame.result := inr tt |}.
Proof.
  split; [reflexivity|]. split; [reflexivity|].
  exact (proj1 (draw_acquire_out_of_date_abandons_frame
                  2 Demo.acquire_out_of_date Demo.after_first_frame eq_refl eq_refl)).
Defined.

(** C5 fails as stated: acquisition reports suboptimal, submission and
    presentation report success and no resize is pending; the frame is
    presented and [draw] returns without recreating the swapchain. *)
Lemma draw_acquire_suboptimal_without_recreation :
  Frame.resultAcquireNextImageKHR Demo.acquire_suboptimal = VK_SUBOPTIMAL_KHR
  ∧ ∃ r, Frame.draw 2 Demo.acquire_suboptimal (Frame.init 2) = Some r
         ∧ Frame.result r = inr tt
         ∧ Frame.QueuePresent 0 ∈ Frame.trace r
         ∧ Frame.RecreateSwapChain ∉ Frame.trace r.
Proof.
  split; [reflexivity|]. eexists. split; [reflexivity|]. simpl.
  split; [done|]. split; [trace_elem | unfold not; trace_elem].
Qed.

(** C5, amended.  When [draw] gets past the fence wait and acquisition
    reports suboptimal, the frame proceeds: the fence and the command buffer
    are reset and the command buffer is recorded.  It is submitted exactly
    when recording succeeds, and the image is presented exactly when the
    submission succeeds too.  The swapchain is then recreated, after the
    presentation, exactly when presentation reports out-of-date or suboptimal
    or the resize flag is set. *)
Theorem draw_acquire_suboptimal_proceeds (N : Z) (a : Frame.Answers) (s : Frame.App) :
  Frame.resultAcquireNextImageKHR a = VK_SUBOPTIMAL_KHR →
  Frame.fence_signaled s (Frame.m_currentFrame s) = true →
  let f := Frame.m_currentFrame s in
  let recorded := Frame.resultBeginCommandBuffer a = VK_SUCCESS
                  ∧ Frame.resultEndCommandBuffer a = VK_SUCCESS in
  ∃ r,
    Frame.draw N a s = Some r
    ∧ (∃ rest, Frame.trace r
               = [Frame.WaitForFences f; Frame.AcquireNextImage f;
                  Frame.UpdateUniformBuffer f; Frame.ResetFences f;
                  Frame.ResetCommandBuffer f;
                  Frame.RecordCommandBuffer f (Frame.imageIndex a)] ++ rest)
    ∧ (Frame.QueueSubmit f ∈ Frame.trace r ↔ recorded)
    ∧ (Frame.QueuePresent (Frame.imageIndex a) ∈ Frame.trace r
       ↔ recorded ∧ Frame.resultQueueSubmit a = VK_SUCCESS)
    ∧ (recorded → Frame.resultQueueSubmit a = VK_SUCCESS →
       ∃ tail,
         Frame.trace r
         = [Frame.WaitForFences f; Frame.AcquireNextImage f;
            Frame.UpdateUniformBuffer f; Frame.ResetFences f;
            Frame.ResetCommandBuffer f;
            Frame.RecordCommandBuffer f (Frame.imageIndex a);
            Frame.QueueSubmit f; Frame.QueuePresent (Frame.imageIndex a)] ++ tail
         ∧ (tail = [Frame.SetFramebufferResized false; Frame.RecreateSwapChain]
            ∨ tail = [])
         ∧ (Frame.RecreateSwapChain ∈ Frame.trace r
            ↔ Frame.resultQueuePresentKHR a = VK_ERROR_OUT_OF_DATE_KHR
              ∨ Frame.resultQueuePresentKHR a = VK_SUBOPTIMAL_KHR
              ∨ Frame.framebufferResized s = true)).
Proof.
  intros Hacq Hsig f recorded. subst f recorded.
  unfold Frame.draw. rewrite Hsig, Hacq. simpl.
  case_bool_decide as Hb.
  { eexists. split; [reflexivity|]. cbn [Frame.trace].
    split; [by eexists|]. split; [trace_elem|]. split; [trace_elem|].
    intros [? _]. done. }
  case_bool_decide as He.
  { eexists. split; [reflexivity|]. cbn [Frame.trace].
    split; [by eexists|]. split; [trace_elem|]. split; [trace_elem|].
    intros [_ ?]. done. }
  case_bool_decide as Hs.
  { eexists. split; [reflexivity|]. cbn [Frame.trace app].
    split; [by eexists|]. split; [trace_elem|]. split; [trace_elem|]. done. }
  destruct (bool_decide (Frame.resultQueuePresentKHR a = VK_ERROR_OUT_OF_DATE_KHR)) eqn:Hood;
  destruct (bool_decide (Frame.resultQueuePresentKHR a = VK_SUBOPTIMAL_KHR)) eqn:Hsubopt;
  destruct (Frame.framebufferResized s) eqn:Hres; simpl;
  try apply bool_decide_eq_true in Hood; try apply bool_decide_eq_true in Hsubopt;
  try apply bool_decide_eq_false in Hood; try apply bool_decide_eq_false in Hsubopt.
  1-7: eexists; (split; [reflexivity|]); cbn [Frame.trace app];
       (split; [by eexists|]); (split; [trace_elem|]); (split; [trace_elem|]);
       intros _ _; exists [Frame.SetFramebufferResized false; Frame.RecreateSwapChain];
       (split; [reflexivity|]); (split; [by left|]);
       (split; [intros _; by auto | intros _; trace_elem]).
  destruct (bool_decide (Frame.resultQueuePresentKHR a ≠ VK_SUCCESS));
    eexists; (split; [reflexivity|]); cbn [Frame.trace app];
    (split; [by eexists|]); (split; [trace_elem|]); (split; [trace_elem|]);
    intros _ _; exists []; (split; [reflexivity|]); (split; [by right|]);
    (split; [trace_elem | intros [?|[?|?]]; done]).
Qed.

Lemma draw_acquire_suboptimal_witness :
  Frame.resultAcquireNextImageKHR Demo.acquire_suboptimal = VK_SUBOPTIMAL_KHR
  ∧ Frame.fence_signaled (Frame.init 2) (Frame.m_currentFrame (Frame.init 2)) = true
  ∧ ∃ r, Frame.draw 2 Demo.acquire_suboptimal (Frame.init 2) = Some r
         ∧ Frame.QueuePresent 0 ∈ Frame.trace r.
Proof.
  split; [reflexivity|]. split; [reflexivity|].
  destruct (draw_acquire_suboptimal_proceeds 2 Demo.acquire_suboptimal (Frame.init 2)
              eq_refl eq_refl) as (r & Hr & _ & _ & Hpresent & _).
  exists r. split; [exact Hr|].
  apply Hpresent. repeat split; reflexivity.
Defined.

(** ** Texture upload *)

Section TextureUpload.
Import Texture.

Lemma bind_returns {A B} (m : Run A) (f : A → Run B) (b : B) :
  outcome (m ≫= f) = inr b →
  ∃ a, outcome m = inr a ∧ outcome (f a) = inr b
       ∧ calls (m ≫= f) = calls m ++ calls (f a).
Proof.
  unfold mbind, Run_bind. destruct (outcome m) as [e|a]; simpl; [done|]. eauto.
Qed.

Lemma calls_bind_prefix {A B} (m : Run A) (f : A → Run B) :
  ∃ rest, calls (m ≫= f) = calls m ++ rest.
Proof.
  unfold mbind, Run_bind. destruct (outcome m) as [e|a]; simpl.
  - exists []. by rewrite app_nil_r.
  - eauto.
Qed.

Lemma load_loaded a :
  pixels_loaded a = true →
  load a = inr {| m_width := u32 (textureWidth a);
                  m_height := u32 (textureHeight a);
                  m_channels := u32 (textureChannels a) |}.
Proof. intros H. unfold load. by rewrite H. Qed.

(** The first call of [createTextureImage] on a loaded image creates the
    staging buffer. *)
Lemma createTextureImage_first_call dev a img :
  pixels_loaded a = true →
  head (calls (createTextureImage dev a img))
  = Some (CreateBuffer (imageSize_of {| m_width := u32 (textureWidth a);
                                         m_height := u32 (textureHeight a);
                                         m_channels := u32 (textureChannels a) |})).
Proof.
  intros Hl. unfold createTextureImage. rewrite (load_loaded a Hl).
  unfold Memory.lift_exn. unfold mbind at 1, Run_bind at 1. cbn [outcome calls app].
  match goal with
  | |- context [calls (?m ≫= ?f)] => destruct (calls_bind_prefix m f) as [rest ->]
  end.
  unfold Memory.createBuffer.
  match goal with
  | |- context [calls (?m ≫= ?f)] => destruct (calls_bind_prefix m f) as [rest' ->]
  end.
  done.
Qed.

Lemma floor_log2_small x : 1 ≤ x ≤ INT32_MAX → floor_log2 x = Z.log2 x ∧ 0 ≤ Z.log2 x < 31.
Proof.
  unfold INT32_MAX. intros Hx.
  assert (0 ≤ Z.log2 x) by apply Z.log2_nonneg.
  assert (Z.log2 x < 31) by (apply Z.log2_lt_pow2; lia).
  split; [|lia]. unfold floor_log2. apply u32_small. lia.
Qed.

Lemma mipLevels_of_loaded w h c :
  1 ≤ w ≤ INT32_MAX → 1 ≤ h ≤ INT32_MAX →
  mipLevels_of {| m_width := u32 w; m_height := u32 h; m_channels := c |}
  = Z.log2 (Z.max w h) + 1.
Proof.
  intros Hw Hh. unfold mipLevels_of. cbn [m_width m_height].
  unfold INT32_MAX in *. rewrite (u32_small w), (u32_small h) by lia.
  destruct (floor_log2_small (Z.max w h)) as [-> ?]; [unfold INT32_MAX; lia|].
  apply u32_small. lia.
Qed.

End TextureUpload.

(** C9. For a loaded image whose dimensions are positive and whose
    product [width * height * (channels + 1)] fits a [uint32_t],
    [createTextureImage] first creates a staging buffer of exactly that many
    bytes, [channels] being the count the loader reported; when that count is
    4 the size is [width * height * 5], which exceeds the [width * height * 4]
    bytes of the forced-RGBA pixel data by [width * height]. *)
Theorem createTextureImage_staging_size_channels_plus_one
    (dev : Memory.Device) (a : Texture.StbiAnswer) (img : VkImage) :
  Texture.pixels_loaded a = true →
  1 ≤ Texture.textureWidth a → 1 ≤ Texture.textureHeight a →
  0 ≤ Texture.textureChannels a →
  Texture.textureWidth a * Texture.textureHeight a * (Texture.textureChannels a + 1)
    ≤ UINT32_MAX →
  let size := Texture.textureWidth a * Texture.textureHeight a
              * (Texture.textureChannels a + 1) in
  head (calls (Texture.createTextureImage dev a img)) = Some (CreateBuffer size)
  ∧ (Texture.textureChannels a = 4 →
       size > Texture.textureWidth a * Texture.textureHeight a * 4
       ∧ size = Texture.textureWidth a * Texture.textureHeight a * 4
                + Texture.textureWidth a * Texture.textureHeight a).
Proof.
  intros Hl Hw Hh Hc Hfit size. unfold UINT32_MAX in Hfit.
  assert (1 ≤ Texture.textureWidth a * Texture.textureHeight a) by nia.
  assert (Texture.textureWidth a * Texture.textureHeight a
          ≤ Texture.textureWidth a * Texture.textureHeight a
            * (Texture.textureChannels a + 1)) by nia.
  assert (Texture.textureWidth a ≤ Texture.textureWidth a * Texture.textureHeight a) by nia.
  assert (Texture.textureHeight a ≤ Texture.textureWidth a * Texture.textureHeight a) by nia.
  assert (Texture.textureChannels a + 1
          ≤ Texture.textureWidth a * Texture.textureHeight a
            * (Texture.textureChannels a + 1)) by nia.
  split.
  - rewrite createTextureImage_first_call by done. do 2 f_equal.
    unfold Texture.imageSize_of. cbn [Texture.m_width Texture.m_height Texture.m_channels].
    rewrite (u32_small (Texture.textureWidth a)) by lia.
    rewrite (u32_small (Texture.textureHeight a)) by lia.
    rewrite (u32_small (Texture.textureChannels a)) by lia.
    rewrite (u32_small (_ + 1)) by lia.
    rewrite (u32_small (Texture.textureWidth a * Texture.textureHeight a)) by lia.
    apply u32_small. fold size. unfold size. lia.
  - intros H4. unfold size. rewrite H4. lia.
Qed.

Lemma createTextureImage_staging_size_witness :
  Texture.pixels_loaded Demo.rgba_800x600 = true
  ∧ head (calls (Texture.createTextureImage Demo.device Demo.rgba_800x600 7))
    = Some (CreateBuffer 2400000)
  ∧ 2400000 > 800 * 600 * 4.
Proof.
  assert (800 * 600 * (4 + 1) ≤ UINT32_MAX) as Hfit by (vm_compute; discriminate).
  destruct (createTextureImage_staging_size_channels_plus_one
              Demo.device Demo.rgba_800x600 7 eq_refl
              ltac:(vm_compute; discriminate) ltac:(vm_compute; discriminate)
              ltac:(vm_compute; discriminate) Hfit) as [Hhead Hmore].
  split; [reflexivity|]. split; [exact Hhead|]. exact (proj1 (Hmore eq_refl)).
Defined.

Section TextureRun.
Import Texture.

Lemma createBuffer_returns dev size p i :
  outcome (Memory.createBuffer dev size p) = inr i →
  calls (Memory.createBuffer dev size p)
  = [CreateBuffer size; AllocateMemory i; BindMemory].
Proof.
  unfold Memory.createBuffer, Memory.lift_exn, mbind, Run_bind, emit, throw, mret, Run_ret.
  cbn [outcome calls].
  destruct (bool_decide (Memory.resultCreateBuffer dev ≠ VK_SUCCESS)); cbn [outcome calls]; [done|].
  destruct (Memory.findMemoryType _ _ _) as [e|j]; cbn [outcome calls]; [done|].
  destruct (bool_decide (Memory.resultAllocateMemory dev ≠ VK_SUCCESS)); cbn [outcome calls]; [done|].
  by intros [= ->].
Qed.

Lemma createImage_returns dev w h m p i :
  outcome (Memory.createImage dev w h m p) = inr i →
  calls (Memory.createImage dev w h m p)
  = [CreateImage w h m; AllocateMemory i; BindMemory].
Proof.
  unfold Memory.createImage, Memory.lift_exn, mbind, Run_bind, emit, throw, mret, Run_ret.
  cbn [outcome calls].
  destruct (bool_decide (Memory.resultCreateImage dev ≠ VK_SUCCESS)); cbn [outcome calls]; [done|].
  destruct (Memory.findMemoryType _ _ _) as [e|j]; cbn [outcome calls]; [done|].
  destruct (bool_decide (Memory.resultAllocateMemory dev ≠ VK_SUCCESS)); cbn [outcome calls]; [done|].
  by intros [= ->].
Qed.

(** The calls of a [createTextureImage] that returns normally. *)
Lemma createTextureImage_returns dev a img t :
  pixels_loaded a = true →
  outcome (createTextureImage dev a img) = inr t →
  let loaded := {| m_width := u32 (textureWidth a);
                   m_height := u32 (textureHeight a);
                   m_channels := u32 (textureChannels a) |} in
  let m := mipLevels_of loaded in
  t = {| m_textureImage := img; m_mipLevels := m |}
  ∧ Z.land (Memory.optimalTilingFeatures dev VK_FORMAT_R8G8B8A8_SRGB)
           VK_FORMAT_FEATURE_SAMPLED_IMAGE_FILTER_LINEAR_BIT ≠ 0
  ∧ ∃ i1 i2,
      calls (createTextureImage dev a img)
      = [CreateBuffer (imageSize_of loaded); AllocateMemory i1; BindMemory;
         MapCopyUnmap (imageSize_of loaded);
         CreateImage (m_width loaded) (m_height loaded) m; AllocateMemory i2; BindMemory]
        ++ calls (Transfer.transitionImageLayout img VK_FORMAT_R8G8B8A8_SRGB
                    VK_IMAGE_LAYOUT_UNDEFINED VK_IMAGE_LAYOUT_TRANSFER_DST_OPTIMAL m)
        ++ calls (copyBufferToImage img (m_width loaded) (m_height loaded))
        ++ [DestroyBuffer; FreeMemory]
        ++ calls (Mipmap.generateMipmaps dev img VK_FORMAT_R8G8B8A8_SRGB
                    (i32 (m_width loaded)) (i32 (m_height loaded)) m).
Proof.
  intros Hl H loaded m. unfold createTextureImage in *.
  rewrite (load_loaded a Hl) in *. fold loaded in H |- *. fold m in H |- *.
  apply bind_returns in H as (t0 & Ht0 & H & ->). injection Ht0 as <-.
  apply bind_returns in H as (i1 & Hi1 & H & ->).
  apply bind_returns in H as ([] & _ & H & ->).
  apply bind_returns in H as (i2 & Hi2 & H & ->).
  apply bind_returns in H as ([] & _ & H & ->).
  apply bind_returns in H as ([] & _ & H & ->).
  apply bind_returns in H as ([] & _ & H & ->).
  apply bind_returns in H as ([] & _ & H & ->).
  apply bind_returns in H as ([] & Hgen & H & ->).
  injection H as <-. split; [done|]. split.
  - intros Hbad. unfold Mipmap.generateMipmaps in Hgen. rewrite Hbad in Hgen. done.
  - exists i1, i2.
    rewrite (createBuffer_returns _ _ _ _ Hi1), (createImage_returns _ _ _ _ _ _ Hi2).
    cbn [calls Memory.lift_exn emit mret Run_ret app]. by rewrite app_nil_r.
Qed.

End TextureRun.

Section FullChain.
Import Texture.

Lemma mip_loop_creates_no_image img m n : ∀ i w h,
  Z.of_nat n = Z.max 0 (m - i) →
  image_mip_counts (Mipmap.mip_loop img m i w h) = [].
Proof.
  induction n as [|n IH]; intros i w h Hn; rewrite mip_loop_step;
    (case_decide; [|done]); [lia|].
  unfold image_mip_counts. rewrite omap_app. simpl. apply IH. lia.
Qed.

Lemma i32_u32_small z : 0 ≤ z ≤ INT32_MAX → i32 (u32 z) = z.
Proof.
  unfold INT32_MAX. intros Hz. rewrite u32_small by lia.
  unfold i32. rewrite Z.mod_small by lia. lia.
Qed.

Lemma transition_to_dst_calls img m :
  calls (Transfer.transitionImageLayout img VK_FORMAT_R8G8B8A8_SRGB
           VK_IMAGE_LAYOUT_UNDEFINED VK_IMAGE_LAYOUT_TRANSFER_DST_OPTIMAL m)
  = [AllocateCommandBuffers; BeginCommandBuffer;
     CmdPipelineBarrier VK_PIPELINE_STAGE_TOP_OF_PIPE_BIT VK_PIPELINE_STAGE_TRANSFER_BIT
       {| oldLayout := VK_IMAGE_LAYOUT_UNDEFINED;
          newLayout := VK_IMAGE_LAYOUT_TRANSFER_DST_OPTIMAL;
          image := img; baseMipLevel := 0; levelCount := m;
          srcAccessMask := 0; dstAccessMask := VK_ACCESS_TRANSFER_WRITE_BIT |};
     EndCommandBuffer; QueueSubmitOneShot; QueueWaitIdle; FreeCommandBuffers].
Proof. reflexivity. Qed.

(** The barrier of the first transition of [createTextureImage] makes every
    level of the fresh image a transfer destination. *)
Lemma apply_barrier_fresh img m sa da :
  1 ≤ m →
  ImageState.apply_barrier (replicate (Z.to_nat m) VK_IMAGE_LAYOUT_UNDEFINED)
    {| oldLayout := VK_IMAGE_LAYOUT_UNDEFINED;
       newLayout := VK_IMAGE_LAYOUT_TRANSFER_DST_OPTIMAL;
       image := img; baseMipLevel := 0; levelCount := m;
       srcAccessMask := sa; dstAccessMask := da |}
  = Some (replicate (Z.to_nat m) VK_IMAGE_LAYOUT_TRANSFER_DST_OPTIMAL).
Proof.
  intros Hm. unfold ImageState.apply_barrier.
  cbn [baseMipLevel levelCount oldLayout newLayout].
  change (Z.to_nat 0) with 0%nat.
  rewrite (bool_decide_true (0 ≤ 0)), (bool_decide_true (1 ≤ m)) by lia.
  rewrite (bool_decide_true (_ ≤ _)%nat) by (rewrite length_replicate; lia).
  rewrite (bool_decide_true (VK_IMAGE_LAYOUT_UNDEFINED = _)) by done.
  cbn [andb orb mbind option_bind take app].
  rewrite drop_ge by (rewrite length_replicate; lia).
  by rewrite app_nil_r.
Qed.

Lemma copyBufferToImage_calls img w h :
  calls (copyBufferToImage img w h)
  = [AllocateCommandBuffers; BeginCommandBuffer; CmdCopyBufferToImage img w h;
     EndCommandBuffer; QueueSubmitOneShot; QueueWaitIdle; FreeCommandBuffers].
Proof. reflexivity. Qed.

Lemma log2_top a :
  1 ≤ a → Mipmap.level_size a (Z.log2 a) = 1.
Proof.
  intros Ha. unfold Mipmap.level_size.
  destruct (Z.log2_spec a ltac:(lia)) as [Hlo Hhi].
  rewrite Z.pow_succ_r in Hhi by apply Z.log2_nonneg.
  assert (0 < 2 ^ Z.log2 a) by (apply Z.pow_pos_nonneg; [lia | apply Z.log2_nonneg]).
  assert (a / 2 ^ Z.log2 a = 1); [|lia].
  symmetry. apply (Z.div_unique a (2 ^ Z.log2 a) 1 (a - 2 ^ Z.log2 a)); lia.
Qed.

Lemma log2_top_le a w :
  1 ≤ a → w ≤ a → Mipmap.level_size w (Z.log2 a) = 1.
Proof.
  intros Ha Hw. pose proof (log2_top a Ha) as Htop. unfold Mipmap.level_size in *.
  assert (0 < 2 ^ Z.log2 a) by (apply Z.pow_pos_nonneg; [lia | apply Z.log2_nonneg]).
  pose proof (Z.div_le_mono w a (2 ^ Z.log2 a) ltac:(lia) Hw). lia.
Qed.

Lemma log2_below a i :
  1 ≤ a → 0 ≤ i < Z.log2 a → 2 ≤ Mipmap.level_size a i.
Proof.
  intros Ha Hi. unfold Mipmap.level_size.
  destruct (Z.log2_spec a ltac:(lia)) as [Hlo _].
  assert (0 < 2 ^ i) by (apply Z.pow_pos_nonneg; lia).
  assert (2 ^ (i + 1) ≤ 2 ^ Z.log2 a) by (apply Z.pow_le_mono_r; lia).
  rewrite Z.pow_add_r, Z.pow_1_r in * by lia.
  assert (2 ≤ a / 2 ^ i); [|lia].
  apply Z.div_le_lower_bound; lia.
Qed.

End FullChain.

(** C10. For every loaded texture of [1 <= width, height] (as [int]s),
    whatever the device and the caller, a [createTextureImage] that returns
    has created its image with exactly [log2 (max width height) + 1] mip
    levels and stores that count; the blits it records fill levels
    [1 .. count-1] with the halved extents, and its commands take the fresh
    image to shader-read-only on all [count] levels.  With that count the last
    level has extent 1 in the larger dimension (so in both), and no earlier
    level has. *)
Theorem createTextureImage_requests_full_mip_chain
    (dev : Memory.Device) (a : Texture.StbiAnswer) (img : VkImage) :
  Texture.pixels_loaded a = true →
  1 ≤ Texture.textureWidth a ≤ INT32_MAX →
  1 ≤ Texture.textureHeight a ≤ INT32_MAX →
  let w := Texture.textureWidth a in
  let h := Texture.textureHeight a in
  let m := Z.log2 (Z.max w h) + 1 in
  let r := Texture.createTextureImage dev a img in
  (∀ t, outcome r = inr t →
     Texture.m_mipLevels t = m
     ∧ Texture.image_mip_counts (calls r) = [m]
     ∧ (λ b, (dstMipLevel b, dstOffsets1 b)) <$> blits (calls r)
       = (λ i, (i, (Mipmap.level_size w i, Mipmap.level_size h i))) <$> seqZ 1 (m - 1)
     ∧ ImageState.exec_calls (calls r) (replicate (Z.to_nat m) VK_IMAGE_LAYOUT_UNDEFINED)
       = Some (replicate (Z.to_nat m) VK_IMAGE_LAYOUT_SHADER_READ_ONLY_OPTIMAL))
  ∧ Mipmap.level_size (Z.max w h) (m - 1) = 1
  ∧ Mipmap.level_size w (m - 1) = 1
  ∧ Mipmap.level_size h (m - 1) = 1
  ∧ (∀ i, 0 ≤ i < m - 1 → 2 ≤ Mipmap.level_size (Z.max w h) i).
Proof.
  intros Hl Hw Hh w h m r. subst r.
  assert (0 ≤ Z.log2 (Z.max w h) < 31) as Hlog.
  { apply floor_log2_small. unfold w, h. lia. }
  assert (1 ≤ m ≤ UINT32_MAX) as Hm by (unfold m, UINT32_MAX; lia).
  split; [|replace (m - 1) with (Z.log2 (Z.max w h)) by (unfold m; lia);
            split; [|split; [|split]]].
  - intros t Ht.
    destruct (createTextureImage_returns dev a img t Hl Ht) as (-> & Hfeat & i1 & i2 & ->).
    rewrite (mipLevels_of_loaded (Texture.textureWidth a) (Texture.textureHeight a)
               (u32 (Texture.textureChannels a)) Hw Hh).
    fold w h m.
    cbn [Texture.m_width Texture.m_height Texture.m_mipLevels].
    rewrite !i32_u32_small by lia. fold w h.
    rewrite transition_to_dst_calls, copyBufferToImage_calls, generateMipmaps_run by done.
    cbn [calls]. unfold Mipmap.last_barrier.
    split; [done|]. split; [|split].
    + pose proof (mip_loop_creates_no_image img m (Z.to_nat (m - 1)) 1 w h ltac:(lia))
        as Hnone.
      revert Hnone. generalize (Mipmap.mip_loop img m 1 w h). intros loop Hnone.
      unfold Texture.image_mip_counts in *. rewrite !omap_app, Hnone. done.
    + pose proof (mip_loop_dst_extents img w h m Hm) as Hdst.
      revert Hdst. generalize (Mipmap.mip_loop img m 1 w h). intros loop Hdst.
      unfold blits in *. rewrite !omap_app. cbn [omap app list_omap].
      by rewrite app_nil_r.
    + cbn [app ImageState.exec_calls ImageState.exec_call mbind option_bind].
      rewrite apply_barrier_fresh by lia.
      cbn [mbind option_bind].
      by apply mip_calls_exec.
  - apply log2_top. lia.
  - apply log2_top_le; lia.
  - apply log2_top_le; lia.
  - intros i Hi. apply log2_below; lia.
Qed.

Lemma createTextureImage_full_mip_chain_witness :
  Texture.pixels_loaded Demo.rgba_800x600 = true
  ∧ 1 ≤ 800 ≤ INT32_MAX ∧ 1 ≤ 600 ≤ INT32_MAX
  ∧ outcome (Texture.createTextureImage Demo.device Demo.rgba_800x600 7)
    = inr {| Texture.m_textureImage := 7; Texture.m_mipLevels := 10 |}
  ∧ Texture.image_mip_counts
      (calls (Texture.createTextureImage Demo.device Demo.rgba_800x600 7)) = [10]
  ∧ Mipmap.level_size 800 9 = 1.
Proof.
  assert (1 ≤ 800 ≤ INT32_MAX) as Hw by (unfold INT32_MAX; lia).
  assert (1 ≤ 600 ≤ INT32_MAX) as Hh by (unfold INT32_MAX; lia).
  destruct (createTextureImage_requests_full_mip_chain
              Demo.device Demo.rgba_800x600 7 eq_refl Hw Hh) as (Hrun & Htop & _).
  destruct (Hrun {| Texture.m_textureImage := 7; Texture.m_mipLevels := 10 |} eq_refl)
    as (_ & Hcount & _).
  split; [reflexivity|]. split; [exact Hw|]. split; [exact Hh|].
  split; [reflexivity|]. split; [exact Hcount | exact Htop].
Defined.

(* ================================================================== *)
(** * Further properties of the code *)

(** ** Vertex deduplication in [MeshLoader::load] *)

Section MeshLoaderProofs.
Import MeshLoader.

(** [==] on floats holds of two zeros, of two infinities of one sign and of
    two equal finite numbers, and of nothing else. *)
Lemma float_eq_spec (a b : float) :
  float_eq a b = true ↔
    (∃ sa sb, a = S754_zero sa ∧ b = S754_zero sb)
    ∨ (∃ sg, a = S754_infinity sg ∧ b = S754_infinity sg)
    ∨ (∃ sg m e, a = S754_finite sg m e ∧ b = S754_finite sg m e).
Proof.
  unfold float_eq, SFeqb. split.
  - destruct a as [[]|[]| |[] ma ea], b as [[]|[]| |[] mb eb]; cbn; intros Heq;
      try discriminate Heq;
      first [ by left; do 2 eexists | by right; left; eexists | idtac ].
    all: change (Pos.compare_cont Eq ma mb) with (Pos.compare ma mb) in Heq.
    all: destruct (Z.compare_spec ea eb) as [->|?|?]; try discriminate Heq.
    all: destruct (Pos.compare_spec ma mb) as [->|?|?]; try discriminate Heq.
    all: right; right; by do 3 eexists.
  - intros [(sa & sb & -> & ->)|[(sg & -> & ->)|(sg & m & e & -> & ->)]]; cbn.
    + done.
    + by destruct sg.
    + change (Pos.compare_cont Eq m m) with (Pos.compare m m).
      rewrite Z.compare_refl, Pos.compare_refl. by destruct sg.
Qed.

Lemma float_eq_sym (a b : float) : float_eq a b = float_eq b a.
Proof.
  apply Bool.eq_true_iff_eq. rewrite !float_eq_spec.
  split; intros [(sa & sb & -> & ->)|[(sg & -> & ->)|(sg & m & e & -> & ->)]]; eauto 10.
Qed.

Lemma Vertex_eq_sym (a b : Vertex) : Vertex_eq a b = Vertex_eq b a.
Proof.
  unfold Vertex_eq, vec3_eq, vec2_eq.
  by rewrite (float_eq_sym (x (position a))), (float_eq_sym (y (position a))),
    (float_eq_sym (z (position a))), (float_eq_sym (x (color a))),
    (float_eq_sym (y (color a))), (float_eq_sym (z (color a))),
    (float_eq_sym (s (texCoord a))), (float_eq_sym (t (texCoord a))).
Qed.

Lemma find_Some m q i :
  find m q = Some i → ∃ k, (k, i) ∈ m ∧ Vertex_eq q k = true.
Proof.
  induction m as [|[k j] m IH]; simpl; [done|].
  destruct (Vertex_eq q k) eqn:Hk.
  - intros [= ->]. exists k. split; [left | done].
  - intros Hf. destruct (IH Hf) as (k' & Hin & Heq). exists k'. split; [by right | done].
Qed.

Lemma find_None m q :
  find m q = None → ∀ k i, (k, i) ∈ m → Vertex_eq q k = false.
Proof.
  induction m as [|[k j] m IH]; simpl; intros Hf k' i Hin.
  - by apply elem_of_nil in Hin.
  - destruct (Vertex_eq q k) eqn:Hk; [done|].
    apply elem_of_cons in Hin as [[= -> ->]|Hin]; [done | by eapply IH].
Qed.

Lemma assign_None m q value :
  find m q = None → assign m q value = m ++ [(q, value)].
Proof.
  induction m as [|[k j] m IH]; simpl; [done|].
  destruct (Vertex_eq q k); [done|]. intros Hf. by rewrite IH.
Qed.

Lemma find_app_new m q value :
  find m q = None → self_equal q → find (m ++ [(q, value)]) q = Some value.
Proof.
  intros Hf Hq. induction m as [|[k j] m IH]; simpl in *.
  - unfold self_equal in Hq. by rewrite Hq.
  - destruct (Vertex_eq q k); [done | by apply IH].
Qed.

Lemma loader_inv_start : loader_inv [] start.
Proof.
  unfold loader_inv, start. simpl.
  split; [intros k i Hin; by apply elem_of_nil in Hin|].
  split; [intros k Hin; by apply elem_of_nil in Hin|].
  split; [intros i j v w _ Hv; by rewrite lookup_nil in Hv|].
  split; [constructor|].
  split; [done|]. split; [intros j Hj; lia | lia].
Qed.

Lemma loader_inv_visit (processed : list Vertex) (st : LoaderState) (v : Vertex) :
  Z.of_nat (length processed) < 2 ^ 32 → self_equal v →
  loader_inv processed st → loader_inv (processed ++ [v]) (visit st v).
Proof.
  intros Hlen Hself (Ha & Hb & Hc & Hd & He & Hf & Hg). unfold visit, count.
  destruct (find (uniqueVertices st) v) as [i|] eqn:Hv.
  - cbn [Z.eqb]. unfold subscript. rewrite Hv. unfold loader_inv. cbn.
    destruct (find_Some _ _ _ Hv) as (k & Hin & Heq).
    destruct (Ha k i Hin) as [Hi Hki].
    split; [done|]. split; [done|]. split; [done|].
    split; [apply Forall2_app; [done | constructor; [eauto | constructor]]|].
    split; [intros w Hw; apply elem_of_app; left; by apply He|].
    split; [intros j Hj; apply elem_of_app; left; by apply Hf|].
    rewrite length_app. simpl. lia.
  - cbn [Z.eqb]. cbn [uniqueVertices vertices indices].
    assert (u32 (Z.of_nat (length (vertices st))) = Z.of_nat (length (vertices st))) as ->.
    { unfold u32. apply Z.mod_small. clear -Hg Hlen. lia. }
    rewrite (assign_None _ _ _ Hv). unfold subscript.
    rewrite (find_app_new _ _ _ Hv Hself). unfold loader_inv. cbn.
    split.
    { intros k i [Hin| [= -> ->]%list_elem_of_singleton]%elem_of_app.
      - destruct (Ha k i Hin) as [Hi Hki]. split; [done|]. by apply lookup_app_l_Some.
      - split; [lia|]. rewrite Nat2Z.id.
        rewrite lookup_app_r by lia. by rewrite Nat.sub_diag. }
    split.
    { intros k [Hin| ->%list_elem_of_singleton]%elem_of_app.
      - destruct (Hb k Hin) as [i Hi]. exists i. apply elem_of_app. by left.
      - eexists. apply elem_of_app. right. by apply list_elem_of_singleton. }
    split.
    { intros i j a b Hij Hi Hj.
      destruct (decide (j < length (vertices st))%nat) as [Hlt|Hge].
      - rewrite lookup_app_l in Hi, Hj by lia. exact (Hc i j a b Hij Hi Hj).
      - assert (j = length (vertices st)) as ->.
        { apply lookup_lt_Some in Hj. rewrite length_app in Hj. simpl in Hj. lia. }
        rewrite lookup_app_r, Nat.sub_diag in Hj by lia. injection Hj as <-.
        rewrite lookup_app_l in Hi by lia.
        destruct (Hb a (list_elem_of_lookup_2 _ _ _ Hi)) as [n Hn].
        exact (find_None _ _ Hv a n Hn). }
    split.
    { apply Forall2_app.
      - eapply Forall2_impl; [exact Hd|]. intros w j (Hj & k & Hk & Heq).
        split; [done|]. exists k. split; [by apply lookup_app_l_Some | done].
      - constructor; [|constructor]. split; [lia|]. exists v. rewrite Nat2Z.id.
        split; [|done]. rewrite lookup_app_r by lia. by rewrite Nat.sub_diag. }
    split.
    { intros w [Hw| ->%list_elem_of_singleton]%elem_of_app; apply elem_of_app;
        [left; by apply He | right; by apply list_elem_of_singleton]. }
    split.
    { intros j Hj. rewrite length_app in Hj. simpl in Hj. apply elem_of_app.
      destruct (decide (j < length (vertices st))%nat) as [Hlt|Hge].
      - left. by apply Hf.
      - right. apply list_elem_of_singleton. f_equal. lia. }
    rewrite !length_app. simpl. lia.
Qed.

Lemma loader_inv_foldl (vs : list Vertex) : ∀ (processed : list Vertex) (st : LoaderState),
  Z.of_nat (length processed + length vs) ≤ 2 ^ 32 →
  Forall self_equal vs →
  loader_inv processed st →
  loader_inv (processed ++ vs) (foldl visit st vs).
Proof.
  induction vs as [|v vs IH]; intros processed st Hlen Hself Hinv; simpl.
  - by rewrite app_nil_r.
  - replace (processed ++ v :: vs) with ((processed ++ [v]) ++ vs)
      by (by rewrite <- app_assoc).
    apply Forall_cons in Hself as [Hv Hself].
    simpl in Hlen. apply IH; [|done|].
    + rewrite length_app. simpl. lia.
    + apply loader_inv_visit; [lia | done | done].
Qed.

Lemma visit_shapes_flat {Index} (vertex_at : Index → Vertex) (shapes : list (list Index)) :
  visit_shapes vertex_at shapes = foldl visit start (vertex_at <$> concat shapes).
Proof.
  unfold visit_shapes. generalize start.
  induction shapes as [|shape shapes IH]; intros st; simpl; [done|].
  rewrite fmap_app, foldl_app, IH. f_equal.
  clear IH. revert st. induction shape as [|index shape IH]; intros st; simpl; [done|].
  apply IH.
Qed.

Lemma load_inv {Index} (vertex_at : Index → Vertex) (shapes : list (list Index)) :
  Forall (λ index, self_equal (vertex_at index)) (concat shapes) →
  Z.of_nat (length (vertex_at <$> concat shapes)) ≤ 2 ^ 32 →
  loader_inv (vertex_at <$> concat shapes) (visit_shapes vertex_at shapes).
Proof.
  intros Hself Hlen. rewrite visit_shapes_flat.
  pose proof (loader_inv_foldl (vertex_at <$> concat shapes) [] start) as Hfold.
  apply Hfold; [cbn [length]; lia | by apply Forall_fmap | apply loader_inv_start].
Qed.

End MeshLoaderProofs.

(** X1. [MeshLoader::load] on a file that parses, with at most [2^32]
    face indices and no NaN among the components of the vertices built: it
    returns one index per face index, in order, and the [k]-th index points,
    inside the vertex array, at a vertex that compares equal, by the
    [operator==] of [Vertex], to the vertex built from the [k]-th face
    index. *)
Theorem load_indices_point_at_their_vertices
    {Index : Type} (vertex_at : Index → MeshLoader.Vertex)
    (warn err : string) (shapes : list (list Index)) :
  Forall (λ index, MeshLoader.self_equal (vertex_at index)) (concat shapes) →
  Z.of_nat (length (concat shapes)) ≤ 2 ^ 32 →
  ∃ vertices indices,
    MeshLoader.load vertex_at true warn err shapes = inr (vertices, indices)
    ∧ length indices = length (concat shapes)
    ∧ ∀ k index, concat shapes !! k = Some index →
        ∃ i v, indices !! k = Some i
               ∧ 0 ≤ i < Z.of_nat (length vertices)
               ∧ vertices !! Z.to_nat i = Some v
               ∧ MeshLoader.Vertex_eq (vertex_at index) v = true.
Proof.
  intros Hself Hlen. unfold MeshLoader.load. simpl.
  destruct (load_inv vertex_at shapes Hself) as (Ha & Hb & Hc & Hd & He & Hf & Hg).
  { by rewrite length_fmap. }
  eexists _, _. split; [reflexivity|].
  split.
  { apply Forall2_length in Hd. by rewrite length_fmap in Hd. }
  intros k index Hk.
  assert ((vertex_at <$> concat shapes) !! k = Some (vertex_at index)) as Hv
    by (by rewrite list_lookup_fmap, Hk).
  destruct (Forall2_lookup_l _ _ _ _ _ Hd Hv) as (i & Hi & Hpos & v & Hvi & Heq).
  exists i, v. split; [done|]. split; [|done].
  apply lookup_lt_Some in Hvi. lia.
Qed.

Lemma load_indices_point_witness :
  Forall (λ index, MeshLoader.self_equal (Demo2.quad_corner index)) (concat Demo2.quad)
  ∧ Z.of_nat (length (concat Demo2.quad)) ≤ 2 ^ 32
  ∧ ∃ vertices indices,
      MeshLoader.load Demo2.quad_corner true "" "" Demo2.quad = inr (vertices, indices)
      ∧ length indices = 6%nat.
Proof.
  assert (Forall (λ index, MeshLoader.self_equal (Demo2.quad_corner index))
            (concat Demo2.quad)) as Hself
    by (repeat constructor).
  assert (Z.of_nat (length (concat Demo2.quad)) ≤ 2 ^ 32) as Hlen
    by (vm_compute; discriminate).
  split; [exact Hself|]. split; [exact Hlen|].
  destruct (load_indices_point_at_their_vertices Demo2.quad_corner "" ""
              Demo2.quad Hself Hlen) as (vertices & indices & Hload & Hl & _).
  exists vertices, indices. split; [exact Hload | exact Hl].
Defined.

(** X2. Under the same conditions no two vertices of the array [load]
    returns compare equal, every vertex of the array was built from a face
    index, every vertex built compares equal to one of the array, and every
    position of the array is referenced by some index. *)
Theorem load_vertices_distinct_and_all_used
    {Index : Type} (vertex_at : Index → MeshLoader.Vertex)
    (warn err : string) (shapes : list (list Index)) :
  Forall (λ index, MeshLoader.self_equal (vertex_at index)) (concat shapes) →
  Z.of_nat (length (concat shapes)) ≤ 2 ^ 32 →
  ∃ vertices indices,
    MeshLoader.load vertex_at true warn err shapes = inr (vertices, indices)
    ∧ (∀ i j v w, i ≠ j → vertices !! i = Some v → vertices !! j = Some w →
                  MeshLoader.Vertex_eq v w = false)
    ∧ (∀ v, v ∈ vertices → ∃ index, index ∈ concat shapes ∧ v = vertex_at index)
    ∧ (∀ index, index ∈ concat shapes →
                ∃ v, v ∈ vertices ∧ MeshLoader.Vertex_eq (vertex_at index) v = true)
    ∧ (length vertices ≤ length indices)%nat
    ∧ ∀ j v, vertices !! j = Some v → Z.of_nat j ∈ indices.
Proof.
  intros Hself Hlen. unfold MeshLoader.load. simpl.
  destruct (load_inv vertex_at shapes Hself) as (Ha & Hb & Hc & Hd & He & Hf & Hg).
  { by rewrite length_fmap. }
  eexists _, _. split; [reflexivity|].
  split; [|split; [|split; [|split]]].
  - intros i j v w Hij Hi Hj.
    destruct (decide (i < j)%nat) as [Hlt|Hge].
    + rewrite Vertex_eq_sym. exact (Hc i j v w Hlt Hi Hj).
    + exact (Hc j i w v ltac:(lia) Hj Hi).
  - intros v Hv. apply He, list_elem_of_fmap in Hv as (index & -> & Hin). eauto.
  - intros index [k Hk]%list_elem_of_lookup.
    assert ((vertex_at <$> concat shapes) !! k = Some (vertex_at index)) as Hv
      by (by rewrite list_lookup_fmap, Hk).
    destruct (Forall2_lookup_l _ _ _ _ _ Hd Hv) as (i & Hi & Hpos & v & Hvi & Heq).
    exists v. split; [by eapply list_elem_of_lookup_2 | done].
  - apply Forall2_length in Hd. lia.
  - intros j v Hj. apply Hf. by eapply lookup_lt_Some.
Qed.

Lemma load_vertices_distinct_witness :
  Forall (λ index, MeshLoader.self_equal (Demo2.quad_corner index)) (concat Demo2.quad)
  ∧ Z.of_nat (length (concat Demo2.quad)) ≤ 2 ^ 32
  ∧ ∃ vertices indices,
      MeshLoader.load Demo2.quad_corner true "" "" Demo2.quad = inr (vertices, indices)
      ∧ (length vertices ≤ length indices)%nat.
Proof.
  assert (Forall (λ index, MeshLoader.self_equal (Demo2.quad_corner index))
            (concat Demo2.quad)) as Hself
    by (repeat constructor).
  assert (Z.of_nat (length (concat Demo2.quad)) ≤ 2 ^ 32) as Hlen
    by (vm_compute; discriminate).
  split; [exact Hself|]. split; [exact Hlen|].
  destruct (load_vertices_distinct_and_all_used Demo2.quad_corner "" ""
              Demo2.quad Hself Hlen)
    as (vertices & indices & Hload & _ & _ & _ & Hle & _).
  exists vertices, indices. split; [exact Hload | exact Hle].
Defined.

Lemma Vertex_eq_self (v k : MeshLoader.Vertex) :
  MeshLoader.Vertex_eq v k = true → MeshLoader.self_equal v.
Proof.
  assert (∀ a b, MeshLoader.float_eq a b = true → MeshLoader.float_eq a a = true) as Hf.
  { intros a b [(sa & sb & -> & ->)|[(sg & -> & ->)|(sg & m & e & -> & ->)]]%float_eq_spec;
      apply float_eq_spec; eauto 10. }
  unfold MeshLoader.self_equal, MeshLoader.Vertex_eq, MeshLoader.vec3_eq, MeshLoader.vec2_eq.
  rewrite !andb_true_iff.
  intros [[[[H1 H2] H3] [[H4 H5] H6]] [H7 H8]].
  repeat split; eapply Hf; eassumption.
Qed.

Lemma find_nan m (v : MeshLoader.Vertex) :
  MeshLoader.Vertex_eq v v = false → MeshLoader.find m v = None.
Proof.
  intros Hv. induction m as [|[k i] m IH]; simpl; [done|].
  destruct (MeshLoader.Vertex_eq v k) eqn:Hk; [|done].
  apply Vertex_eq_self in Hk. unfold MeshLoader.self_equal in Hk. congruence.
Qed.

Lemma visit_nan (st : MeshLoader.LoaderState) (v : MeshLoader.Vertex) :
  MeshLoader.Vertex_eq v v = false →
  MeshLoader.vertices (MeshLoader.visit st v) = MeshLoader.vertices st ++ [v]
  ∧ MeshLoader.indices (MeshLoader.visit st v) = MeshLoader.indices st ++ [0].
Proof.
  intros Hv. unfold MeshLoader.visit, MeshLoader.count, MeshLoader.subscript.
  rewrite (find_nan _ v Hv). cbn [Z.eqb MeshLoader.uniqueVertices].
  by rewrite (find_nan _ v Hv).
Qed.

Lemma foldl_visit_nan (vs : list MeshLoader.Vertex) : ∀ st,
  Forall (λ v, MeshLoader.Vertex_eq v v = false) vs →
  MeshLoader.vertices (foldl MeshLoader.visit st vs) = MeshLoader.vertices st ++ vs
  ∧ MeshLoader.indices (foldl MeshLoader.visit st vs)
    = MeshLoader.indices st ++ replicate (length vs) 0.
Proof.
  induction vs as [|v vs IH]; intros st Hall; simpl.
  - by rewrite !app_nil_r.
  - apply Forall_cons in Hall as [Hv Hall].
    destruct (IH (MeshLoader.visit st v) Hall) as [-> ->].
    destruct (visit_nan st v Hv) as [-> ->].
    by rewrite <- !app_assoc.
Qed.

(** X22. A vertex with a NaN component compares unequal to every vertex,
    itself included, so the map never finds it: when every vertex built has
    one, [MeshLoader::load] returns all of them, in order and with repeats,
    and every index it returns is 0. *)
Theorem load_nan_vertices_repeated_and_indexed_zero
    {Index : Type} (vertex_at : Index → MeshLoader.Vertex)
    (warn err : string) (shapes : list (list Index)) :
  Forall (λ index, MeshLoader.Vertex_eq (vertex_at index) (vertex_at index) = false)
         (concat shapes) →
  MeshLoader.load vertex_at true warn err shapes
  = inr (vertex_at <$> concat shapes, replicate (length (concat shapes)) 0).
Proof.
  intros Hall. unfold MeshLoader.load. cbn [negb].
  rewrite visit_shapes_flat.
  destruct (foldl_visit_nan (vertex_at <$> concat shapes) MeshLoader.start) as [-> ->].
  { by apply Forall_fmap. }
  by rewrite length_fmap.
Qed.

Lemma load_nan_vertices_witness :
  MeshLoader.load (λ _ : Z, Demo2.corner S754_nan Demo2.zero) true "" "" [[0; 1; 0]]
  = inr (replicate 3 (Demo2.corner S754_nan Demo2.zero), [0; 0; 0]).
Proof.
  exact (load_nan_vertices_repeated_and_indexed_zero
           (λ _ : Z, Demo2.corner S754_nan Demo2.zero) "" "" [[0; 1; 0]]
           ltac:(repeat constructor)).
Defined.

(** ** Swapchain configuration *)

Section SwapConfigProofs.
Import SwapConfig.

Lemma first_preferred_Some l f :
  first_preferred l = Some f →
  preferred f = true
  ∧ ∃ pre post, l = pre ++ f :: post ∧ Forall (λ g, preferred g = false) pre.
Proof.
  induction l as [|g l IH]; simpl; [done|].
  destruct (preferred g) eqn:Hg.
  - intros [= ->]. split; [done|]. exists [], l. split; [done | constructor].
  - intros Hf. destruct (IH Hf) as (Hp & pre & post & -> & Hpre).
    split; [done|]. exists (g :: pre), post. split; [done | by constructor].
Qed.

Lemma first_preferred_None l :
  first_preferred l = None ↔ Forall (λ g, preferred g = false) l.
Proof.
  induction l as [|g l IH]; simpl; [split; [constructor | done]|].
  destruct (preferred g) eqn:Hg.
  - split; [done|]. intros Hall. apply Forall_cons in Hall as [? _]. congruence.
  - rewrite IH. split; [by constructor | by intros [_ ?]%Forall_cons].
Qed.

Lemma preferred_true f :
  preferred f = true
  ↔ format f = VK_FORMAT_B8G8R8A8_SRGB ∧ colorSpace f = VK_COLOR_SPACE_SRGB_NONLINEAR_KHR.
Proof. unfold preferred. by rewrite andb_true_iff, !Z.eqb_eq. Qed.

Lemma first_mailbox_Some l m :
  first_mailbox l = Some m → m = VK_PRESENT_MODE_MAILBOX_KHR ∧ m ∈ l.
Proof.
  induction l as [|g l IH]; simpl; [done|]. case_bool_decide as Hg.
  - intros [= <-]. split; [done | apply list_elem_of_here].
  - intros Hm. destruct (IH Hm). split; [done | by apply list_elem_of_further].
Qed.

Lemma first_mailbox_None l :
  first_mailbox l = None ↔ VK_PRESENT_MODE_MAILBOX_KHR ∉ l.
Proof.
  induction l as [|g l IH]; simpl.
  - split; [intros _; apply not_elem_of_nil | done].
  - rewrite not_elem_of_cons. case_bool_decide as Hg.
    + split; [done | intros [? _]; congruence].
    + rewrite IH. split; [intros ?; split; [congruence | done] | by intros [_ ?]].
Qed.

End SwapConfigProofs.

(** X3. [selectSwapSurfaceFormat] on a non-empty list returns an element
    of the list: the first one that is [VK_FORMAT_B8G8R8A8_SRGB] with the
    sRGB non-linear colour space when there is one, and otherwise the first
    element of the list, whatever it is. *)
Theorem selectSwapSurfaceFormat_first_preferred_or_head
    (availableFormats : list SwapConfig.VkSurfaceFormatKHR) :
  availableFormats ≠ [] →
  ∃ f, SwapConfig.selectSwapSurfaceFormat availableFormats = Some f
       ∧ f ∈ availableFormats
       ∧ ((∃ g, g ∈ availableFormats
                ∧ SwapConfig.format g = SwapConfig.VK_FORMAT_B8G8R8A8_SRGB
                ∧ SwapConfig.colorSpace g = SwapConfig.VK_COLOR_SPACE_SRGB_NONLINEAR_KHR) →
          SwapConfig.format f = SwapConfig.VK_FORMAT_B8G8R8A8_SRGB
          ∧ SwapConfig.colorSpace f = SwapConfig.VK_COLOR_SPACE_SRGB_NONLINEAR_KHR
          ∧ ∃ pre post,
              availableFormats = pre ++ f :: post
              ∧ Forall (λ g, ¬ (SwapConfig.format g = SwapConfig.VK_FORMAT_B8G8R8A8_SRGB
                                ∧ SwapConfig.colorSpace g
                                  = SwapConfig.VK_COLOR_SPACE_SRGB_NONLINEAR_KHR)) pre)
       ∧ ((∀ g, g ∈ availableFormats →
                ¬ (SwapConfig.format g = SwapConfig.VK_FORMAT_B8G8R8A8_SRGB
                   ∧ SwapConfig.colorSpace g = SwapConfig.VK_COLOR_SPACE_SRGB_NONLINEAR_KHR)) →
          head availableFormats = Some f).
Proof.
  intros Hne. unfold SwapConfig.selectSwapSurfaceFormat.
  destruct (SwapConfig.first_preferred availableFormats) as [f|] eqn:Hfirst.
  - destruct (first_preferred_Some _ _ Hfirst) as (Hp & pre & post & Heq & Hpre).
    apply preferred_true in Hp as [Hfmt Hcs].
    exists f. split; [done|]. split.
    { rewrite Heq. apply elem_of_app. right. apply list_elem_of_here. }
    split.
    + intros _. split; [done|]. split; [done|]. exists pre, post. split; [done|].
      eapply Forall_impl; [exact Hpre|]. intros g Hg Hbad.
      apply preferred_true in Hbad. congruence.
    + intros Hnone. exfalso. apply (Hnone f); [|done].
      rewrite Heq. apply elem_of_app. right. apply list_elem_of_here.
  - destruct availableFormats as [|f0 rest]; [done|]. simpl.
    exists f0. split; [done|]. split; [apply list_elem_of_here|].
    apply first_preferred_None in Hfirst. split; [|done].
    intros (g & Hin & Hfmt & Hcs). exfalso.
    rewrite Forall_forall in Hfirst. specialize (Hfirst g Hin).
    assert (SwapConfig.preferred g = true) by (by apply preferred_true). congruence.
Qed.

Lemma selectSwapSurfaceFormat_witness :
  Demo2.formats_bgra_second ≠ []
  ∧ ∃ f, SwapConfig.selectSwapSurfaceFormat Demo2.formats_bgra_second = Some f
         ∧ f ∈ Demo2.formats_bgra_second.
Proof.
  assert (Demo2.formats_bgra_second ≠ []) as Hne by discriminate.
  split; [exact Hne|].
  destruct (selectSwapSurfaceFormat_first_preferred_or_head Demo2.formats_bgra_second Hne)
    as (f & Hsel & Hin & _).
  exists f. split; [exact Hsel | exact Hin].
Defined.

(** X4. [selectSwapPresentMode] returns mailbox exactly when mailbox is
    among the modes offered; in every other case, an empty list or one without
    FIFO included, it returns FIFO, never immediate or relaxed FIFO. *)
Theorem selectSwapPresentMode_mailbox_or_fifo
    (availablePresentModes : list SwapConfig.VkPresentModeKHR) :
  (SwapConfig.selectSwapPresentMode availablePresentModes
     = SwapConfig.VK_PRESENT_MODE_MAILBOX_KHR
   ↔ SwapConfig.VK_PRESENT_MODE_MAILBOX_KHR ∈ availablePresentModes)
  ∧ (SwapConfig.VK_PRESENT_MODE_MAILBOX_KHR ∉ availablePresentModes →
     SwapConfig.selectSwapPresentMode availablePresentModes
       = SwapConfig.VK_PRESENT_MODE_FIFO_KHR)
  ∧ SwapConfig.selectSwapPresentMode availablePresentModes
      ≠ SwapConfig.VK_PRESENT_MODE_IMMEDIATE_KHR
  ∧ SwapConfig.selectSwapPresentMode availablePresentModes
      ≠ SwapConfig.VK_PRESENT_MODE_FIFO_RELAXED_KHR.
Proof.
  unfold SwapConfig.selectSwapPresentMode.
  destruct (SwapConfig.first_mailbox availablePresentModes) as [m|] eqn:Hfirst.
  - destruct (first_mailbox_Some _ _ Hfirst) as [-> Hin].
    split; [done|]. split; [done|]. done.
  - apply first_mailbox_None in Hfirst. split; [|done].
    split; [done | intros ?; done].
Qed.

Lemma selectSwapPresentMode_witness :
  (SwapConfig.VK_PRESENT_MODE_MAILBOX_KHR
     ∉ [SwapConfig.VK_PRESENT_MODE_IMMEDIATE_KHR])
  ∧ SwapConfig.selectSwapPresentMode [SwapConfig.VK_PRESENT_MODE_IMMEDIATE_KHR]
    = SwapConfig.VK_PRESENT_MODE_FIFO_KHR.
Proof.
  assert (SwapConfig.VK_PRESENT_MODE_MAILBOX_KHR
            ∉ [SwapConfig.VK_PRESENT_MODE_IMMEDIATE_KHR]) as Hno.
  { intros Hin. apply elem_of_cons in Hin as [Heq|Hin]; [discriminate Heq|].
    apply elem_of_nil in Hin. exact Hin. }
  split; [exact Hno|].
  exact (proj1 (proj2 (selectSwapPresentMode_mailbox_or_fifo
                         [SwapConfig.VK_PRESENT_MODE_IMMEDIATE_KHR])) Hno).
Defined.

(** X5. The image count [createSwapChain] asks for, when the surface's
    minimum is below [UINT32_MAX] and does not exceed a positive maximum: one
    more than the minimum, capped at the maximum when the maximum is positive
    and uncapped when it is 0; so it is never below the minimum and never
    above a positive maximum. *)
Theorem imageCount_one_more_than_min_capped (minImageCount maxImageCount : Z) :
  0 ≤ minImageCount < UINT32_MAX →
  0 ≤ maxImageCount →
  (0 < maxImageCount → minImageCount ≤ maxImageCount) →
  minImageCount ≤ SwapConfig.imageCount minImageCount maxImageCount ≤ minImageCount + 1
  ∧ (0 < maxImageCount →
       SwapConfig.imageCount minImageCount maxImageCount
       = Z.min (minImageCount + 1) maxImageCount)
  ∧ (maxImageCount = 0 →
       SwapConfig.imageCount minImageCount maxImageCount = minImageCount + 1).
Proof.
  unfold UINT32_MAX. intros Hmin Hmax Hle. unfold SwapConfig.imageCount.
  rewrite u32_small by lia.
  destruct (Z.gtb_spec maxImageCount 0), (Z.gtb_spec (minImageCount + 1) maxImageCount);
    simpl; lia.
Qed.

Lemma imageCount_witness :
  0 ≤ 2 < UINT32_MAX ∧ 0 ≤ 2
  ∧ 2 ≤ SwapConfig.imageCount 2 2 ≤ 2 + 1.
Proof.
  assert (0 ≤ 2 < UINT32_MAX) as H1 by (unfold UINT32_MAX; lia).
  assert (0 ≤ 2) as H2 by lia.
  split; [exact H1|]. split; [exact H2|].
  exact (proj1 (imageCount_one_more_than_min_capped 2 2 H1 H2 (λ _, Z.le_refl 2))).
Defined.

(** ** Format selection *)

Section FormatProofs.
Import Formats.

Lemma accepts_spec tiling features props :
  accepts tiling features props = true ↔ supports tiling features props.
Proof.
  unfold accepts, supports. destruct tiling; simpl.
  - destruct (Z.eqb_spec (Z.land (optimalTilingFeatures props) features) features) as [He|Hne].
    + split; [intros _; by apply land_superset | done].
    + split; [done|]. intros Hs. by apply land_superset in Hs.
  - destruct (Z.eqb_spec (Z.land (linearTilingFeatures props) features) features) as [He|Hne].
    + split; [intros _; by apply land_superset | done].
    + split; [done|]. intros Hs. by apply land_superset in Hs.
  - done.
Qed.

Lemma accepts_false tiling features props :
  accepts tiling features props = false ↔ ¬ supports tiling features props.
Proof.
  rewrite <- accepts_spec. destruct (accepts tiling features props); split; congruence.
Qed.

Lemma first_supported_Some fp tiling features candidates f :
  first_supported fp candidates tiling features = Some f ↔
  ∃ pre post, candidates = pre ++ f :: post
              ∧ supports tiling features (fp f)
              ∧ Forall (λ g, ¬ supports tiling features (fp g)) pre.
Proof.
  revert f. induction candidates as [|g candidates IH]; intros f; simpl.
  - split; [done|]. intros (pre & post & Heq & _). by destruct pre.
  - destruct (accepts tiling features (fp g)) eqn:Hg.
    + apply accepts_spec in Hg. split.
      * intros [= ->]. exists [], candidates. split; [done|]. split; [done | constructor].
      * intros (pre & post & Heq & Hf & Hpre). destruct pre as [|g' pre].
        -- by injection Heq as ->.
        -- injection Heq as -> _. apply Forall_cons in Hpre as [Hbad _]. done.
    + apply accepts_false in Hg. rewrite IH. split.
      * intros (pre & post & -> & Hf & Hpre). exists (g :: pre), post.
        split; [done|]. split; [done | by constructor].
      * intros (pre & post & Heq & Hf & Hpre). destruct pre as [|g' pre].
        -- injection Heq as -> _. done.
        -- injection Heq as -> ->. apply Forall_cons in Hpre as [_ Hpre].
           by exists pre, post.
Qed.

Lemma first_supported_None fp tiling features candidates :
  first_supported fp candidates tiling features = None ↔
  Forall (λ g, ¬ supports tiling features (fp g)) candidates.
Proof.
  induction candidates as [|g candidates IH]; simpl; [split; [constructor | done]|].
  destruct (accepts tiling features (fp g)) eqn:Hg.
  - apply accepts_spec in Hg. split; [done|]. by intros [? _]%Forall_cons.
  - apply accepts_false in Hg. rewrite IH.
    split; [by constructor | by intros [_ ?]%Forall_cons].
Qed.

End FormatProofs.

(** X6. [findSupportedFormat] returns the first candidate, in list order,
    whose features for the requested tiling contain every requested feature
    bit; it throws when no candidate qualifies, in particular for every tiling
    other than linear and optimal and for an empty candidate list. *)
Theorem findSupportedFormat_first_supported_candidate
    (formatProperties : VkFormat → Formats.VkFormatProperties)
    (candidates : list VkFormat) (tiling : Formats.VkImageTiling)
    (features : VkFormatFeatureFlags) :
  (∀ f, Formats.findSupportedFormat formatProperties candidates tiling features = inr f ↔
        ∃ pre post,
          candidates = pre ++ f :: post
          ∧ Formats.supports tiling features (formatProperties f)
          ∧ Forall (λ g, ¬ Formats.supports tiling features (formatProperties g)) pre)
  ∧ (Formats.findSupportedFormat formatProperties candidates tiling features
       = inl (runtime_error "failed to find supported format!") ↔
     Forall (λ g, ¬ Formats.supports tiling features (formatProperties g)) candidates)
  ∧ (tiling = Formats.VK_IMAGE_TILING_DRM_FORMAT_MODIFIER_EXT →
     Formats.findSupportedFormat formatProperties candidates tiling features
       = inl (runtime_error "failed to find supported format!")).
Proof.
  unfold Formats.findSupportedFormat.
  pose proof (first_supported_None formatProperties tiling features candidates) as HN.
  split; [|split].
  - intros f. rewrite <- first_supported_Some.
    destruct (Formats.first_supported formatProperties candidates tiling features);
      split; congruence.
  - rewrite <- HN.
    destruct (Formats.first_supported formatProperties candidates tiling features);
      split; congruence.
  - intros ->.
    assert (Formats.first_supported formatProperties candidates
              Formats.VK_IMAGE_TILING_DRM_FORMAT_MODIFIER_EXT features = None) as ->; [|done].
    apply first_supported_None. apply Forall_forall. intros g _ Hs. exact Hs.
Qed.

Lemma findSupportedFormat_witness :
  Formats.findSupportedFormat Demo2.depth24_only [126; 129]
    Formats.VK_IMAGE_TILING_OPTIMAL 0x200 = inr 129
  ∧ ∃ pre post, [126; 129] = pre ++ 129 :: post
      ∧ Formats.supports Formats.VK_IMAGE_TILING_OPTIMAL 0x200 (Demo2.depth24_only 129).
Proof.
  assert (Formats.findSupportedFormat Demo2.depth24_only [126; 129]
            Formats.VK_IMAGE_TILING_OPTIMAL 0x200 = inr 129) as Hf by reflexivity.
  split; [exact Hf|].
  destruct (proj1 (proj1 (findSupportedFormat_first_supported_candidate
                            Demo2.depth24_only [126; 129]
                            Formats.VK_IMAGE_TILING_OPTIMAL 0x200) 129) Hf)
    as (pre & post & Heq & Hs & _).
  exists pre, post. split; [exact Heq | exact Hs].
Defined.

(** X7. [findDepthFormat] answers one of the three depth formats, one the
    device supports as an optimally tiled depth-stencil attachment; it is
    [VK_FORMAT_D32_SFLOAT] exactly when the device supports that one, and
    [hasStencilComponent] holds of the answer exactly when it is one of the
    two other formats.  It throws exactly when the device supports none of the
    three. *)
Theorem findDepthFormat_priority
    (formatProperties : VkFormat → Formats.VkFormatProperties) :
  let ok f := Formats.supports Formats.VK_IMAGE_TILING_OPTIMAL
                Formats.VK_FORMAT_FEATURE_DEPTH_STENCIL_ATTACHMENT_BIT (formatProperties f) in
  (∀ f, Formats.findDepthFormat formatProperties = inr f →
        (f = Formats.VK_FORMAT_D32_SFLOAT ∨ f = Formats.VK_FORMAT_D32_SFLOAT_S8_UINT
         ∨ f = Formats.VK_FORMAT_D24_UNORM_S8_UINT)
        ∧ ok f
        ∧ (f = Formats.VK_FORMAT_D32_SFLOAT ↔ ok Formats.VK_FORMAT_D32_SFLOAT)
        ∧ (Formats.hasStencilComponent f = true ↔ f ≠ Formats.VK_FORMAT_D32_SFLOAT))
  ∧ (Formats.findDepthFormat formatProperties
       = inl (runtime_error "failed to find supported format!") ↔
     ¬ ok Formats.VK_FORMAT_D32_SFLOAT ∧ ¬ ok Formats.VK_FORMAT_D32_SFLOAT_S8_UINT
     ∧ ¬ ok Formats.VK_FORMAT_D24_UNORM_S8_UINT).
Proof.
  intros ok. unfold Formats.findDepthFormat, Formats.findSupportedFormat. simpl.
  destruct (Formats.accepts _ _ (formatProperties Formats.VK_FORMAT_D32_SFLOAT)) eqn:H1;
    [apply accepts_spec in H1 | apply accepts_false in H1].
  { split; [|split; [done | by intros [? _]]].
    intros f [= <-]. split; [by left|]. split; [done|]. split; [done|].
    split; [done | intros Hne; by destruct Hne]. }
  destruct (Formats.accepts _ _ (formatProperties Formats.VK_FORMAT_D32_SFLOAT_S8_UINT)) eqn:H2;
    [apply accepts_spec in H2 | apply accepts_false in H2].
  { split; [|split; [done | by intros (_ & ? & _)]].
    intros f [= <-]. split; [by right; left|]. split; [done|].
    split; [split; [discriminate | done] | split; [discriminate | done]]. }
  destruct (Formats.accepts _ _ (formatProperties Formats.VK_FORMAT_D24_UNORM_S8_UINT)) eqn:H3;
    [apply accepts_spec in H3 | apply accepts_false in H3].
  { split; [|split; [done | by intros (_ & _ & ?)]].
    intros f [= <-]. split; [by right; right|]. split; [done|].
    split; [split; [discriminate | done] | split; [discriminate | done]]. }
  split; [done|]. split; [done | done].
Qed.

Lemma findDepthFormat_witness :
  Formats.findDepthFormat Demo2.depth24_only = inr Formats.VK_FORMAT_D24_UNORM_S8_UINT
  ∧ Formats.hasStencilComponent Formats.VK_FORMAT_D24_UNORM_S8_UINT = true.
Proof.
  assert (Formats.findDepthFormat Demo2.depth24_only
          = inr Formats.VK_FORMAT_D24_UNORM_S8_UINT) as Hf by reflexivity.
  split; [exact Hf|].
  destruct (proj1 (findDepthFormat_priority Demo2.depth24_only) _ Hf) as (_ & _ & _ & Hst).
  apply Hst. discriminate.
Defined.

(** ** Platform requirements *)

Section PlatformProofs.
Import Platform.

Lemma strcmp_zero_spec a b : strcmp_zero a b = true ↔ c_str a = c_str b.
Proof. unfold strcmp_zero. apply String.eqb_eq. Qed.

Lemma find_if_None {A} (p : A → bool) l :
  find_if p l = None ↔ ∀ x, x ∈ l → p x = false.
Proof.
  induction l as [|y l IH]; simpl.
  - split; [intros _ x Hx; by apply elem_of_nil in Hx | done].
  - destruct (p y) eqn:Hy.
    + split; [done|]. intros Hall. specialize (Hall y (list_elem_of_here _ _)). congruence.
    + rewrite IH. split.
      * intros Hall x [->|Hx]%elem_of_cons; [done | by apply Hall].
      * intros Hall x Hx. apply Hall. by apply list_elem_of_further.
Qed.

(** Whether a required name has no match among the available ones. *)
Lemma missing_among_acc available names : ∀ acc,
  foldl (λ missingNames name,
           match find_if (λ extension, strcmp_zero name extension) available with
           | None => missingNames ++ [name]
           | Some _ => missingNames
           end) acc names
  = acc ++ missing_among available names.
Proof.
  unfold missing_among.
  induction names as [|name names IH]; intros acc; simpl; [by rewrite app_nil_r|].
  rewrite IH. rewrite (IH (match find_if _ available with
                            | None => [] ++ [name] | Some _ => [] end)).
  destruct (find_if _ available); simpl; [done|]. by rewrite <- app_assoc.
Qed.

Lemma missing_among_cons available name names :
  missing_among available (name :: names)
  = (match find_if (λ extension, strcmp_zero name extension) available with
     | None => [name] | Some _ => [] end) ++ missing_among available names.
Proof.
  unfold missing_among at 1. simpl. rewrite missing_among_acc.
  by destruct (find_if _ available).
Qed.

Lemma missing_among_elem available names name :
  name ∈ missing_among available names
  ↔ name ∈ names ∧ ∀ ext, ext ∈ available → c_str name ≠ c_str ext.
Proof.
  induction names as [|n names IH].
  - unfold missing_among. simpl. split; [by intros ?%elem_of_nil|].
    by intros [?%elem_of_nil _].
  - rewrite missing_among_cons, elem_of_app, IH, elem_of_cons.
    destruct (find_if (λ extension, strcmp_zero n extension) available) as [e|] eqn:Hfind.
    + split.
      * intros [?%elem_of_nil|[? ?]]; [done | auto].
      * intros [[->|Hin] Hnone]; [|auto]. exfalso.
        assert (find_if (λ extension, strcmp_zero n extension) available = None) as Hbad;
          [|congruence].
        apply find_if_None. intros x Hx.
        destruct (strcmp_zero n x) eqn:Hs; [|done].
        apply strcmp_zero_spec in Hs. by destruct (Hnone x Hx).
    + pose proof (proj1 (find_if_None _ _) Hfind) as Hnone. split.
      * intros [->%list_elem_of_singleton|[? ?]]; [|auto]. split; [by left|].
        intros ext Hext Heq. apply strcmp_zero_spec in Heq.
        specialize (Hnone ext Hext). simpl in Hnone. congruence.
      * intros [[->|Hin] Hno]; [left; apply list_elem_of_here | auto].
Qed.

Lemma missing_among_sublist available names :
  missing_among available names `sublist_of` names.
Proof.
  induction names as [|n names IH]; [done|].
  rewrite missing_among_cons.
  destruct (find_if _ available); simpl; [by apply sublist_cons | by apply sublist_skip].
Qed.

End PlatformProofs.

(** X8. [detectMissingInstanceRequirements] reports as missing exactly the
    required extension names that match, as C strings, no extension the
    platform offers, in the order they were required, and likewise for layers;
    nothing is reported exactly when every required name has a match. *)
Theorem detectMissingInstanceRequirements_exactly_the_unmatched
    (availableExtensions availableLayers requiredExtensions requiredLayers : list string) :
  let r := Platform.detectMissingInstanceRequirements
             availableExtensions availableLayers requiredExtensions requiredLayers in
  (∀ name, name ∈ r.1 ↔
           name ∈ requiredExtensions
           ∧ ∀ ext, ext ∈ availableExtensions → Platform.c_str name ≠ Platform.c_str ext)
  ∧ (∀ name, name ∈ r.2 ↔
             name ∈ requiredLayers
             ∧ ∀ layer, layer ∈ availableLayers → Platform.c_str name ≠ Platform.c_str layer)
  ∧ r.1 `sublist_of` requiredExtensions
  ∧ r.2 `sublist_of` requiredLayers
  ∧ (r = ([], []) ↔
     (∀ name, name ∈ requiredExtensions →
              ∃ ext, ext ∈ availableExtensions ∧ Platform.c_str name = Platform.c_str ext)
     ∧ (∀ name, name ∈ requiredLayers →
                ∃ layer, layer ∈ availableLayers
                         ∧ Platform.c_str name = Platform.c_str layer)).
Proof.
  intros r. unfold r, Platform.detectMissingInstanceRequirements. simpl.
  split; [intros; apply missing_among_elem|].
  split; [intros; apply missing_among_elem|].
  split; [apply missing_among_sublist|].
  split; [apply missing_among_sublist|].
  assert (∀ available names,
    Platform.missing_among available names = [] ↔
    ∀ name, name ∈ names →
            ∃ ext, ext ∈ available ∧ Platform.c_str name = Platform.c_str ext) as Hempty.
  { intros available names. split.
    - intros Hnil name Hin.
      destruct (Platform.find_if (λ e, Platform.strcmp_zero name e) available) as [e|] eqn:Hf.
      + clear Hnil. induction available as [|x available IH]; simpl in Hf; [done|].
        destruct (Platform.strcmp_zero name x) eqn:Hs.
        * exists x. split; [apply list_elem_of_here | by apply strcmp_zero_spec].
        * destruct (IH Hf) as (ext & Hext & Heq).
          exists ext. split; [by apply list_elem_of_further | done].
      + exfalso. assert (name ∈ Platform.missing_among available names) as Hbad.
        { apply missing_among_elem. split; [done|]. intros ext Hext Heq.
          pose proof (proj1 (find_if_None _ _) Hf ext Hext) as Hno. simpl in Hno.
          apply strcmp_zero_spec in Heq. congruence. }
        rewrite Hnil in Hbad. by apply elem_of_nil in Hbad.
    - intros Hall.
      destruct (Platform.missing_among available names) as [|name rest] eqn:Hm; [done|].
      assert (name ∈ Platform.missing_among available names) as Hin
        by (rewrite Hm; apply list_elem_of_here).
      apply missing_among_elem in Hin as [Hin Hno].
      destruct (Hall name Hin) as (ext & Hext & Heq). by destruct (Hno ext Hext). }
  rewrite <- !Hempty. split; [by intros [= -> ->] | by intros [-> ->]].
Qed.

Lemma detectMissingInstanceRequirements_witness :
  "VK_KHR_surface"%string ∈ ["VK_KHR_surface"%string]
  ∧ ∃ ext, ext ∈ ["VK_KHR_surface"%string; "VK_EXT_debug_utils"%string]
           ∧ Platform.c_str "VK_KHR_surface" = Platform.c_str ext.
Proof.
  assert (Platform.detectMissingInstanceRequirements
            ["VK_KHR_surface"%string; "VK_EXT_debug_utils"%string] []
            ["VK_KHR_surface"%string] [] = ([], [])) as Hnone by reflexivity.
  assert ("VK_KHR_surface"%string ∈ ["VK_KHR_surface"%string]) as Hin
    by apply list_elem_of_here.
  split; [exact Hin|].
  exact (proj1 (proj1 (proj2 (proj2 (proj2 (proj2
           (detectMissingInstanceRequirements_exactly_the_unmatched
              ["VK_KHR_surface"%string; "VK_EXT_debug_utils"%string] []
              ["VK_KHR_surface"%string] []))))) Hnone) _ Hin).
Defined.

(** X9. [detectMissingRequiredDeviceExtensions] searches the required
    names among the required names themselves, so it reports nothing as
    missing, whatever the physical device offers. *)
Theorem detectMissingRequiredDeviceExtensions_reports_nothing
    (deviceExtensions requiredExtensions : list string) :
  Platform.detectMissingRequiredDeviceExtensions deviceExtensions requiredExtensions = [].
Proof.
  unfold Platform.detectMissingRequiredDeviceExtensions.
  assert (∀ names, (∀ name, name ∈ names → name ∈ requiredExtensions) →
    foldl (λ missing requiredExtension,
             match Platform.find_if
                     (λ extension, Platform.strcmp_zero requiredExtension extension)
                     requiredExtensions with
             | None => missing ++ [requiredExtension]
             | Some _ => missing
             end) [] names = []) as Hall.
  { induction names as [|name names IH]; intros Hsub; simpl; [done|].
    destruct (Platform.find_if _ requiredExtensions) eqn:Hfind.
    - apply IH. intros n Hn. apply Hsub. by apply list_elem_of_further.
    - exfalso. pose proof (proj1 (find_if_None _ _) Hfind name
                             (Hsub name (list_elem_of_here _ _))) as Hno.
      simpl in Hno. assert (Platform.strcmp_zero name name = true)
        by (by apply strcmp_zero_spec). congruence. }
  by apply Hall.
Qed.

(** ** Synchronization objects *)

Section SyncProofs.
Import Sync.

Lemma create_each_ok call what result n : ∀ i,
  (∀ j, (i ≤ j < i + n)%nat → result j = VK_SUCCESS) →
  create_each call what result n i = (replicate n call, None).
Proof.
  induction n as [|n IH]; intros i Hall; simpl; [done|].
  rewrite bool_decide_false by (rewrite Hall by lia; auto).
  rewrite IH; [done|]. intros j Hj. apply Hall. lia.
Qed.

Lemma create_each_None call what result n : ∀ i cs,
  create_each call what result n i = (cs, None) →
  ∀ j, (i ≤ j < i + n)%nat → result j = VK_SUCCESS.
Proof.
  induction n as [|n IH]; intros i cs Hrun j Hj; simpl in Hrun; [lia|].
  case_bool_decide as Hres; [done|].
  destruct (create_each call what result n (S i)) as [cs' e] eqn:Hrest.
  injection Hrun as <- ->.
  destruct (decide (j = i)) as [->|].
  - by destruct (decide (result i = VK_SUCCESS)).
  - eapply IH; [exact Hrest | lia].
Qed.

End SyncProofs.

(** X10. [createRenderingSyncObjects] returns normally exactly when each
    of the [3 * MAX_FRAMES_IN_FLIGHT] creations succeeds.  It then has created
    that many image-available semaphores, render-finished semaphores and
    fences, in this order, every fence signaled: the fences it stores are
    those of the state the frame loop starts from. *)
Theorem createRenderingSyncObjects_all_fences_signaled (N : Z) (a : Sync.Answers) :
  let all_ok :=
    ∀ i, (i < Z.to_nat N)%nat →
         Sync.resultImageAvailable a i = VK_SUCCESS
         ∧ Sync.resultRenderFinished a i = VK_SUCCESS
         ∧ Sync.resultInFlight a i = VK_SUCCESS in
  (all_ok →
     Sync.createRenderingSyncObjects N a
     = (replicate (Z.to_nat N) Sync.CreateSemaphore
        ++ replicate (Z.to_nat N) Sync.CreateSemaphore
        ++ replicate (Z.to_nat N) (Sync.CreateFence true),
        inr (Frame.m_inFlightFences (Frame.init N))))
  ∧ (∀ fences, (Sync.createRenderingSyncObjects N a).2 = inr fences → all_ok).
Proof.
  intros all_ok. unfold Sync.createRenderingSyncObjects. split.
  - intros Hok.
    rewrite !create_each_ok by (intros j Hj; apply Hok; lia).
    cbn [Frame.init Frame.m_inFlightFences]. do 2 f_equal.
    generalize (Z.to_nat N). intros n.
    induction n as [|n IH]; [done|]. csimpl. by f_equal.
  - intros fences.
    destruct (Sync.create_each Sync.CreateSemaphore _ (Sync.resultImageAvailable a) _ _)
      as [cs1 [e1|]] eqn:H1; [done|].
    destruct (Sync.create_each Sync.CreateSemaphore _ (Sync.resultRenderFinished a) _ _)
      as [cs2 [e2|]] eqn:H2; [done|].
    destruct (Sync.create_each (Sync.CreateFence true) _ (Sync.resultInFlight a) _ _)
      as [cs3 [e3|]] eqn:H3; [done|].
    intros _ i Hi.
    split; [eapply create_each_None; [exact H1 | lia]|].
    split; [eapply create_each_None; [exact H2 | lia]|].
    eapply create_each_None; [exact H3 | lia].
Qed.

Lemma createRenderingSyncObjects_witness :
  (Sync.createRenderingSyncObjects 2 Demo2.all_created).2
  = inr (Frame.m_inFlightFences (Frame.init 2)).
Proof.
  exact (f_equal snd
           (proj1 (createRenderingSyncObjects_all_fences_signaled 2 Demo2.all_created)
                  (λ _ _, conj eq_refl (conj eq_refl eq_refl)))).
Defined.

(** ** More on the frame loop *)

Section FrameSyncProofs.
Import Frame FrameSync.

Lemma synced_init N : 0 < N → inv_synced N (init N).
Proof.
  intros HN. unfold inv_synced, init. simpl. split; [lia|].
  split; [by rewrite length_replicate|].
  apply Forall2_same_length_lookup. split; [by rewrite !length_replicate|].
  intros i b n [-> _]%lookup_replicate_1 [-> _]%lookup_replicate_1. by left.
Qed.

Lemma synced_signaled N s :
  inv_synced N s → fence_signaled s (m_currentFrame s) = true →
  outstanding s !! Z.to_nat (m_currentFrame s) = Some 0%nat.
Proof.
  intros (Hf & Hlen & Hall) Hsig. unfold fence_signaled in Hsig.
  apply bool_decide_eq_true in Hsig.
  destruct (Forall2_lookup_l _ _ _ _ _ Hall Hsig) as (n & Hn & [[_ ->]|[? _]]); done.
Qed.

Lemma synced_submit N s :
  0 < N → inv_synced N s → fence_signaled s (m_currentFrame s) = true →
  Forall2 synced
    (<[Z.to_nat (m_currentFrame s) := false]> (m_inFlightFences s))
    (alter S (Z.to_nat (m_currentFrame s)) (outstanding s)).
Proof.
  intros HN Hinv Hsig. pose proof (synced_signaled N s Hinv Hsig) as Hret.
  destruct Hinv as (Hf & Hlen & Hall).
  apply Forall2_same_length_lookup. split.
  { rewrite length_insert, length_alter. by eapply Forall2_length. }
  intros i b n Hb Hn.
  destruct (decide (i = Z.to_nat (m_currentFrame s))) as [->|Hne].
  - rewrite list_lookup_alter_eq, Hret in Hn. simpl in Hn. injection Hn as <-.
    rewrite list_lookup_insert_eq in Hb by lia. injection Hb as <-. by right.
  - rewrite list_lookup_alter_ne in Hn by done.
    rewrite list_lookup_insert_ne in Hb by done.
    by eapply Forall2_lookup_lr.
Qed.

Lemma synced_step N s s' : 0 < N → inv_synced N s → step N s s' → inv_synced N s'.
Proof.
  intros HN Hinv Hstep. destruct Hstep as [s slot n Hout | s | s a r Hdraw Hres].
  - destruct Hinv as (Hf & Hlen & Hall).
    unfold inv_synced, gpu_complete. simpl.
    split; [done|]. split; [by rewrite length_insert|].
    apply Forall2_same_length_lookup. split.
    { rewrite length_insert, length_alter. by eapply Forall2_length. }
    intros i b k Hb Hk.
    destruct (decide (i = slot)) as [->|Hne].
    + rewrite list_lookup_alter_eq, Hout in Hk. simpl in Hk. injection Hk as <-.
      destruct (Forall2_lookup_r _ _ _ _ _ Hall Hout) as (b0 & Hb0 & Hs).
      rewrite list_lookup_insert_eq in Hb by (by eapply lookup_lt_Some).
      injection Hb as <-. left. split; [done|].
      destruct Hs as [[_ ?]|[_ ?]]; [done | lia].
    + rewrite list_lookup_alter_ne in Hk by done.
      rewrite list_lookup_insert_ne in Hb by done.
      by eapply Forall2_lookup_lr.
  - done.
  - destruct (draw_returns_cases N a s r Hdraw Hres) as (Hsig & [-> | [-> | ->]]).
    + done.
    + pose proof (synced_submit N s HN Hinv Hsig) as Hsub.
      destruct Hinv as (Hf & Hlen & Hall). unfold inv_synced. simpl.
      split; [apply Z.mod_pos_bound; lia|]. split; [by rewrite length_insert | done].
    + pose proof (synced_submit N s HN Hinv Hsig) as Hsub.
      destruct Hinv as (Hf & Hlen & Hall). unfold inv_synced. simpl.
      split; [apply Z.mod_pos_bound; lia|]. split; [by rewrite length_insert | done].
Qed.

Lemma synced_reachable N s : 0 < N → reachable N s → inv_synced N s.
Proof.
  intros HN Hreach. unfold reachable in Hreach. revert s Hreach.
  apply rtc_ind_r; [by apply synced_init|].
  intros y z _ Hstep IH. by eapply synced_step.
Qed.

End FrameSyncProofs.

(** X11. The frame loop never waits on a fence that nothing will signal:
    in every state the running program can reach, if the fence of the current
    slot is unsignaled then exactly one submission of that slot is unfinished,
    and once the GPU finishes it [draw] gets past its wait. *)
Theorem draw_wait_is_always_released (N : Z) (s : Frame.App) :
  0 < N → Frame.reachable N s →
  Frame.fence_signaled s (Frame.m_currentFrame s) = false →
  Frame.outstanding s !! Z.to_nat (Frame.m_currentFrame s) = Some 1%nat
  ∧ Frame.step N s (Frame.gpu_complete (Z.to_nat (Frame.m_currentFrame s)) s)
  ∧ ∀ a, Frame.draw N a (Frame.gpu_complete (Z.to_nat (Frame.m_currentFrame s)) s) ≠ None.
Proof.
  intros HN Hreach Hsig.
  destruct (synced_reachable N s HN Hreach) as (Hf & Hlen & Hall).
  assert (Z.to_nat (Frame.m_currentFrame s) < length (Frame.m_inFlightFences s))%nat
    as Hlt by lia.
  destruct (lookup_lt_is_Some_2 _ _ Hlt) as [b Hb].
  destruct (Forall2_lookup_l _ _ _ _ _ Hall Hb) as (n & Hn & Hs).
  assert (b = false) as ->.
  { destruct b; [|done]. unfold Frame.fence_signaled in Hsig.
    by rewrite bool_decide_true in Hsig. }
  destruct Hs as [[? _]|[_ ->]]; [done|].
  split; [done|]. split; [by eapply Frame.step_gpu|].
  intros a. unfold Frame.draw.
  assert (Frame.fence_signaled
            (Frame.gpu_complete (Z.to_nat (Frame.m_currentFrame s)) s)
            (Frame.m_currentFrame
               (Frame.gpu_complete (Z.to_nat (Frame.m_currentFrame s)) s)) = true) as ->.
  { unfold Frame.fence_signaled, Frame.gpu_complete. simpl.
    apply bool_decide_eq_true. by apply list_lookup_insert_eq. }
  simpl. intros Hnone. draw_cases Hnone; done.
Qed.

Lemma draw_wait_is_always_released_witness :
  0 < 2 ∧ Frame.reachable 2 Demo2.after_two_frames
  ∧ Frame.fence_signaled Demo2.after_two_frames
      (Frame.m_currentFrame Demo2.after_two_frames) = false
  ∧ Frame.outstanding Demo2.after_two_frames !! 0%nat = Some 1%nat.
Proof.
  assert (0 < 2) as H2 by lia.
  assert (Frame.reachable 2 Demo2.after_two_frames) as Hr.
  { unfold Frame.reachable. eapply rtc_l.
    - exact (Frame.step_draw 2 (Frame.init 2) Demo.all_success
               {| Frame.trace :=
                    [Frame.WaitForFences 0; Frame.AcquireNextImage 0;
                     Frame.UpdateUniformBuffer 0; Frame.ResetFences 0;
                     Frame.ResetCommandBuffer 0; Frame.RecordCommandBuffer 0 0;
                     Frame.QueueSubmit 0; Frame.QueuePresent 0];
                  Frame.app := Demo.after_first_frame;
                  Frame.result := inr tt |}
               eq_refl eq_refl).
    - apply rtc_once.
      exact (Frame.step_draw 2 Demo.after_first_frame Demo.all_success
               {| Frame.trace :=
                    [Frame.WaitForFences 1; Frame.AcquireNextImage 1;
                     Frame.UpdateUniformBuffer 1; Frame.ResetFences 1;
                     Frame.ResetCommandBuffer 1; Frame.RecordCommandBuffer 1 0;
                     Frame.QueueSubmit 1; Frame.QueuePresent 0];
                  Frame.app := Demo2.after_two_frames;
                  Frame.result := inr tt |}
               eq_refl eq_refl). }
  split; [exact H2|]. split; [exact Hr|]. split; [reflexivity|].
  exact (proj1 (draw_wait_is_always_released 2 Demo2.after_two_frames H2 Hr eq_refl)).
Defined.

(** X12. Frame slots are used round-robin.  A [draw] that returns normally
    leaves the frame counter where it was when acquisition was out of date and
    otherwise moves it to the next slot modulo the number of frames in
    flight; after [k] such moves from slot [f] the counter is
    [(f + k) mod N], so each slot comes up again after exactly [N] frames. *)
Theorem frame_slots_round_robin (N : Z) :
  0 < N ≤ INT32_MAX →
  (∀ a s r,
     0 ≤ Frame.m_currentFrame s < N →
     Frame.draw N a s = Some r → Frame.result r = inr tt →
     Frame.m_currentFrame (Frame.app r)
     = if bool_decide (Frame.resultAcquireNextImageKHR a = VK_ERROR_OUT_OF_DATE_KHR)
       then Frame.m_currentFrame s
       else (Frame.m_currentFrame s + 1) mod N)
  ∧ (∀ s k,
       0 ≤ Frame.m_currentFrame s < N →
       Frame.m_currentFrame (Nat.iter k (Frame.advance N) s)
       = (Frame.m_currentFrame s + Z.of_nat k) mod N)
  ∧ (∀ s,
       0 ≤ Frame.m_currentFrame s < N →
       Frame.m_currentFrame (Nat.iter (Z.to_nat N) (Frame.advance N) s)
       = Frame.m_currentFrame s).
Proof.
  unfold INT32_MAX. intros HN.
  assert (∀ s k, 0 ≤ Frame.m_currentFrame s < N →
            Frame.m_currentFrame (Nat.iter k (Frame.advance N) s)
            = (Frame.m_currentFrame s + Z.of_nat k) mod N) as Hiter.
  { intros s k Hf. induction k as [|k IH].
    - simpl. rewrite Z.add_0_r. symmetry. apply Z.mod_small. lia.
    - rewrite Nat.iter_succ. unfold Frame.advance at 1. cbn [Frame.m_currentFrame].
      rewrite IH.
      pose proof (Z.mod_pos_bound (Frame.m_currentFrame s + Z.of_nat k) N ltac:(lia)).
      rewrite u32_small by lia.
      rewrite Z.add_mod_idemp_l by lia. f_equal. lia. }
  split; [|split; [exact Hiter|]].
  - intros a s r Hf Hdraw Hres. unfold Frame.draw in Hdraw.
    destruct (Frame.fence_signaled s (Frame.m_currentFrame s)); [|done].
    simpl in Hdraw.
    destruct (bool_decide (Frame.resultAcquireNextImageKHR a = VK_ERROR_OUT_OF_DATE_KHR)).
    { by injection Hdraw as <-. }
    draw_cases Hdraw; injection Hdraw as <-; simpl in *; try discriminate;
      by rewrite u32_small by lia.
  - intros s Hf. rewrite Hiter by done. rewrite Z2Nat.id by lia.
    rewrite <- (Z.mul_1_l N) at 1. rewrite Z.mod_add by lia. apply Z.mod_small. lia.
Qed.

Lemma frame_slots_round_robin_witness :
  0 < 2 ≤ INT32_MAX
  ∧ Frame.m_currentFrame (Nat.iter 2 (Frame.advance 2) Demo.after_first_frame) = 1.
Proof.
  assert (0 < 2 ≤ INT32_MAX) as HN by (unfold INT32_MAX; lia).
  split; [exact HN|].
  exact (proj2 (proj2 (frame_slots_round_robin 2 HN)) Demo.after_first_frame
               ltac:(simpl; lia)).
Defined.

(** X13. When a frame was acquired and recording the command buffer or
    [vkQueueSubmit] fails, [draw] throws (the submit error when recording
    succeeded and the submission was attempted) with the fence of the slot
    already reset and nothing submitted that could signal it: the frame
    counter has not moved, no GPU completion concerns the slot, and a further
    [draw] would wait on that fence for ever. *)
Theorem draw_failed_submit_leaves_fence_unsignaled
    (N : Z) (a : Frame.Answers) (s : Frame.App) :
  0 < N → Frame.reachable N s →
  Frame.fence_signaled s (Frame.m_currentFrame s) = true →
  FrameSync.acquired a →
  Frame.resultBeginCommandBuffer a ≠ VK_SUCCESS
  ∨ Frame.resultEndCommandBuffer a ≠ VK_SUCCESS
  ∨ Frame.resultQueueSubmit a ≠ VK_SUCCESS →
  ∃ r, Frame.draw N a s = Some r
       ∧ (∃ e, Frame.result r = inl e)
       ∧ (Frame.resultBeginCommandBuffer a = VK_SUCCESS →
          Frame.resultEndCommandBuffer a = VK_SUCCESS →
          Frame.result r = inl (runtime_error "failed to submit draw command buffer!")
          ∧ Frame.QueueSubmit (Frame.m_currentFrame s) ∈ Frame.trace r)
       ∧ Frame.ResetFences (Frame.m_currentFrame s) ∈ Frame.trace r
       ∧ Frame.m_currentFrame (Frame.app r) = Frame.m_currentFrame s
       ∧ Frame.fence_signaled (Frame.app r) (Frame.m_currentFrame s) = false
       ∧ Frame.outstanding (Frame.app r) !! Z.to_nat (Frame.m_currentFrame s) = Some 0%nat
       ∧ ∀ a', Frame.draw N a' (Frame.app r) = None.
Proof.
  intros HN Hreach Hsig Hacq Hfail.
  pose proof (synced_signaled N s (synced_reachable N s HN Hreach) Hsig) as Hret.
  assert (Frame.fence_signaled (Frame.reset_fence (Frame.m_currentFrame s) s)
            (Frame.m_currentFrame s) = false) as Hunsig.
  { unfold Frame.fence_signaled in *. apply bool_decide_eq_true in Hsig.
    apply bool_decide_eq_false. unfold Frame.reset_fence. simpl.
    rewrite list_lookup_insert_eq by (by eapply lookup_lt_Some). done. }
  unfold Frame.draw. rewrite Hsig. simpl.
  assert (bool_decide (Frame.resultAcquireNextImageKHR a = VK_ERROR_OUT_OF_DATE_KHR) = false)
    as -> by (apply bool_decide_eq_false; destruct Hacq as [-> | ->]; discriminate).
  assert (bool_decide (Frame.resultAcquireNextImageKHR a ≠ VK_SUCCESS)
          && bool_decide (Frame.resultAcquireNextImageKHR a ≠ VK_SUBOPTIMAL_KHR) = false)
    as ->.
  { destruct Hacq as [-> | ->]; reflexivity. }
  case_bool_decide as Hb; [|case_bool_decide as He; [|case_bool_decide as Hs]].
  - eexists. split; [reflexivity|]. simpl.
    split; [by eexists|]. split; [done|]. split; [trace_elem|]. split; [done|].
    split; [done|]. split; [done|]. intros a'. by rewrite Hunsig.
  - eexists. split; [reflexivity|]. simpl.
    split; [by eexists|]. split; [done|]. split; [trace_elem|]. split; [done|].
    split; [done|]. split; [done|]. intros a'. by rewrite Hunsig.
  - eexists. split; [reflexivity|]. simpl.
    split; [by eexists|]. split; [intros _ _; split; [done | trace_elem]|].
    split; [trace_elem|]. split; [done|].
    split; [done|]. split; [done|]. intros a'. by rewrite Hunsig.
  - destruct Hfail as [?|[?|?]]; done.
Qed.

Lemma draw_failed_submit_witness :
  0 < 2 ∧ Frame.reachable 2 (Frame.init 2)
  ∧ ∃ r, Frame.draw 2 Demo2.submit_fails (Frame.init 2) = Some r
         ∧ Frame.result r = inl (runtime_error "failed to submit draw command buffer!").
Proof.
  assert (0 < 2) as H2 by lia.
  assert (Frame.reachable 2 (Frame.init 2)) as Hr by apply rtc_refl.
  split; [exact H2|]. split; [exact Hr|].
  assert (Frame.resultBeginCommandBuffer Demo2.submit_fails ≠ VK_SUCCESS
          ∨ Frame.resultEndCommandBuffer Demo2.submit_fails ≠ VK_SUCCESS
          ∨ Frame.resultQueueSubmit Demo2.submit_fails ≠ VK_SUCCESS) as Hf
    by (right; right; discriminate).
  destruct (draw_failed_submit_leaves_fence_unsignaled 2 Demo2.submit_fails (Frame.init 2)
              H2 Hr eq_refl (or_introl eq_refl) Hf)
    as (r & Hd & _ & Hres & _).
  exists r. split; [exact Hd | exact (proj1 (Hres eq_refl eq_refl))].
Defined.

(** X14. Which [draw]s return normally, once past the fence wait: those
    whose acquisition is out of date and whose swapchain recreation returns,
    and those that acquire, record and submit successfully and whose
    presentation either succeeds with the resize flag clear, or is stale or
    happens with the flag set and is followed by a recreation that returns.
    With the flag set a presentation failure of any kind is not reported:
    the flag is cleared, the swapchain is recreated and [draw] ends as the
    recreation ends, the frame counter advanced when it returns and left
    where it was when it throws. *)
Theorem draw_normal_return_cases (N : Z) (a : Frame.Answers) (s : Frame.App) :
  Frame.fence_signaled s (Frame.m_currentFrame s) = true →
  let recorded := Frame.resultBeginCommandBuffer a = VK_SUCCESS
                  ∧ Frame.resultEndCommandBuffer a = VK_SUCCESS in
  let recreated := Frame.resultRecreateSwapChain a = inr tt in
  ∃ r, Frame.draw N a s = Some r
       ∧ (Frame.result r = inr tt ↔
          (Frame.resultAcquireNextImageKHR a = VK_ERROR_OUT_OF_DATE_KHR ∧ recreated)
          ∨ (FrameSync.acquired a ∧ recorded
             ∧ Frame.resultQueueSubmit a = VK_SUCCESS
             ∧ ((Frame.resultQueuePresentKHR a = VK_SUCCESS
                 ∧ Frame.framebufferResized s = false)
                ∨ ((FrameSync.stale a ∨ Frame.framebufferResized s = true)
                   ∧ recreated))))
       ∧ (FrameSync.acquired a → recorded → Frame.resultQueueSubmit a = VK_SUCCESS →
          Frame.framebufferResized s = true →
          Frame.result r = Frame.resultRecreateSwapChain a
          ∧ Frame.RecreateSwapChain ∈ Frame.trace r
          ∧ Frame.framebufferResized (Frame.app r) = false
          ∧ (recreated →
             Frame.m_currentFrame (Frame.app r) = u32 (Frame.m_currentFrame s + 1) mod N)
          ∧ (∀ e, Frame.resultRecreateSwapChain a = inl e →
                  Frame.m_currentFrame (Frame.app r) = Frame.m_currentFrame s)).
Proof.
  intros Hsig recorded recreated. subst recorded recreated.
  unfold Frame.draw, FrameSync.acquired, FrameSync.stale. rewrite Hsig.
  cbn [negb].
  destruct (Frame.resultRecreateSwapChain a) as [e|[]] eqn:Hrec.
  all: case_bool_decide as Hood.
  1,3: eexists; (split; [reflexivity|]); cbn [Frame.result Frame.trace Frame.app];
       (split; [intuition congruence|]); intros [?|?]; congruence.
  all: case_bool_decide as Hs; case_bool_decide as Hso; cbn [andb].
  1,5: eexists; (split; [reflexivity|]); cbn [Frame.result Frame.trace Frame.app];
       (split; [intuition congruence|]); intros [?|?]; congruence.
  all: case_bool_decide as Hb.
  all: try (eexists; split; [reflexivity|]; cbn [Frame.result Frame.trace Frame.app];
            split; [intuition congruence | intros ? [? ?]; congruence]).
  all: case_bool_decide as He.
  all: try (eexists; split; [reflexivity|]; cbn [Frame.result Frame.trace Frame.app];
            split; [intuition congruence | intros ? [? ?]; congruence]).
  all: case_bool_decide as Hsub.
  all: try (eexists; split; [reflexivity|]; cbn [Frame.result Frame.trace Frame.app];
            split; [intuition congruence | intros; congruence]).
  all: case_bool_decide as Hpood; case_bool_decide as Hpsub;
       destruct (Frame.framebufferResized s) eqn:Hres;
       cbn [orb Frame.submitted Frame.reset_fence Frame.framebufferResized].
  all: try rewrite Hres; cbn [orb].
  all: try case_bool_decide as Hpok.
  all: eexists; (split; [reflexivity|]); cbn [Frame.result Frame.trace Frame.app];
       (split; [intuition congruence|]); intros _ _ _ Hflag; try discriminate Hflag;
       (split; [done|]); (split; [cbn [app]; trace_elem|]); (split; [done|]);
       (split; [intros; done || congruence | intros; done || congruence]).
Qed.

Lemma draw_normal_return_witness :
  Frame.fence_signaled (Frame.init 2) (Frame.m_currentFrame (Frame.init 2)) = true
  ∧ ∃ r, Frame.draw 2 Demo.all_success (Frame.init 2) = Some r
         ∧ Frame.result r = inr tt.
Proof.
  split; [reflexivity|].
  destruct (draw_normal_return_cases 2 Demo.all_success (Frame.init 2) eq_refl)
    as (r & Hr & Hiff & _).
  exists r. split; [exact Hr|].
  apply Hiff. right. split; [left; reflexivity|].
  split; [split; reflexivity|]. split; [reflexivity|]. left. split; reflexivity.
Defined.

(** ** Transfer engine and resource factory *)

(** X15. The single-use command buffer of [transitionImageLayout]: for a
    recognised pair it is allocated, begun, given one barrier, ended,
    submitted, waited for and freed, in this order; for any other pair the
    function throws after allocating and beginning it, and never ends,
    submits or frees it. *)
Theorem transitionImageLayout_command_buffer_lifecycle
    (img : VkImage) (format : VkFormat) (oldL newL : VkImageLayout) (mipLevels : Z) :
  let r := Transfer.transitionImageLayout img format oldL newL mipLevels in
  (Transfer.recognized oldL newL →
     ∃ srcStage dstStage b,
       calls r = [AllocateCommandBuffers; BeginCommandBuffer;
                  CmdPipelineBarrier srcStage dstStage b;
                  EndCommandBuffer; QueueSubmitOneShot; QueueWaitIdle;
                  FreeCommandBuffers])
  ∧ (¬ Transfer.recognized oldL newL →
       calls r = [AllocateCommandBuffers; BeginCommandBuffer]
       ∧ (FreeCommandBuffers ∉ calls r) ∧ (EndCommandBuffer ∉ calls r)).
Proof.
  unfold Transfer.recognized.
  cbv zeta. split.
  - intros [[-> ->]|[-> ->]]; do 3 eexists; reflexivity.
  - intros Hn.
    assert (calls (Transfer.transitionImageLayout img format oldL newL mipLevels)
            = [AllocateCommandBuffers; BeginCommandBuffer]) as ->.
    { destruct oldL, newL; try reflexivity; exfalso; apply Hn; tauto. }
    split; [reflexivity|]. split; trace_elem.
Qed.

Lemma transitionImageLayout_lifecycle_witness :
  ¬ Transfer.recognized VK_IMAGE_LAYOUT_UNDEFINED VK_IMAGE_LAYOUT_SHADER_READ_ONLY_OPTIMAL
  ∧ calls (Transfer.transitionImageLayout 7 VK_FORMAT_R8G8B8A8_SRGB
             VK_IMAGE_LAYOUT_UNDEFINED VK_IMAGE_LAYOUT_SHADER_READ_ONLY_OPTIMAL 10)
    = [AllocateCommandBuffers; BeginCommandBuffer].
Proof.
  assert (¬ Transfer.recognized VK_IMAGE_LAYOUT_UNDEFINED
              VK_IMAGE_LAYOUT_SHADER_READ_ONLY_OPTIMAL) as Hn.
  { intros [[_ Hbad]|[Hbad _]]; discriminate Hbad. }
  split; [exact Hn|].
  exact (proj1 (proj2 (transitionImageLayout_command_buffer_lifecycle
                         7 VK_FORMAT_R8G8B8A8_SRGB VK_IMAGE_LAYOUT_UNDEFINED
                         VK_IMAGE_LAYOUT_SHADER_READ_ONLY_OPTIMAL 10) Hn)).
Defined.

Section FactoryProofs.
Import Memory.

Lemma findMemoryType_inr mp tf p i :
  memoryTypeCount mp ≤ VK_MAX_MEMORY_TYPES →
  findMemoryType mp tf p = inr i →
  0 ≤ i < memoryTypeCount mp ∧ suitable mp tf p i
  ∧ ∀ j, 0 ≤ j < i → ¬ suitable mp tf p j.
Proof.
  intros Hc. unfold findMemoryType.
  destruct (scan mp tf p 0) as [r|] eqn:Hscan; [|done]. intros [= ->].
  apply (scan_Some mp tf p (Z.to_nat (memoryTypeCount mp))) in Hscan
    as (Hr & Hs & Hmin); [|lia].
  split; [done|]. split; [apply suitable_at_spec; [lia | done]|].
  intros j Hj Hbad. apply suitable_at_spec in Hbad; [|lia].
  rewrite Hmin in Hbad by lia. done.
Qed.

End FactoryProofs.

(** X16. [createBuffer] returns normally exactly when the buffer is
    created, a memory type is found and the allocation succeeds; the memory it
    allocates and binds is then of the first type that the buffer's
    requirements allow and that has every requested property.  Whenever it
    throws, the buffer it may have created is not destroyed and no memory is
    bound. *)
Theorem createBuffer_returns_iff_and_leaks_on_failure
    (dev : Memory.Device) (size : Z) (properties : VkMemoryPropertyFlags) :
  let r := Memory.createBuffer dev size properties in
  let mp := Memory.memProperties dev in
  (∀ i, outcome r = inr i ↔
        Memory.resultCreateBuffer dev = VK_SUCCESS
        ∧ Memory.findMemoryType mp (Memory.bufferMemoryTypeBits dev) properties = inr i
        ∧ Memory.resultAllocateMemory dev = VK_SUCCESS)
  ∧ (∀ i, outcome r = inr i →
          calls r = [CreateBuffer size; AllocateMemory i; BindMemory]
          ∧ (Memory.memoryTypeCount mp ≤ VK_MAX_MEMORY_TYPES →
             Memory.suitable mp (Memory.bufferMemoryTypeBits dev) properties i
             ∧ ∀ j, 0 ≤ j < i →
                    ¬ Memory.suitable mp (Memory.bufferMemoryTypeBits dev) properties j))
  ∧ (∀ e, outcome r = inl e →
          head (calls r) = Some (CreateBuffer size)
          ∧ (DestroyBuffer ∉ calls r) ∧ (BindMemory ∉ calls r)).
Proof.
  intros r mp. subst r mp.
  assert (∀ i, outcome (Memory.createBuffer dev size properties) = inr i ↔
     Memory.resultCreateBuffer dev = VK_SUCCESS
     ∧ Memory.findMemoryType (Memory.memProperties dev)
         (Memory.bufferMemoryTypeBits dev) properties = inr i
     ∧ Memory.resultAllocateMemory dev = VK_SUCCESS) as Hiff.
  { intros i.
    unfold Memory.createBuffer, Memory.lift_exn, mbind, Run_bind, emit, throw, mret, Run_ret.
    cbn [outcome calls].
    case_bool_decide as Hc; cbn [outcome calls]; [split; [done | by intros [? _]]|].
    destruct (Memory.findMemoryType _ _ _) as [e|j]; cbn [outcome calls];
      [split; [done | by intros (_ & ? & _)]|].
    case_bool_decide as Ha; cbn [outcome calls]; [split; [done | by intros (_ & _ & ?)]|].
    assert (Memory.resultCreateBuffer dev = VK_SUCCESS)
      by (by destruct (decide (Memory.resultCreateBuffer dev = VK_SUCCESS))).
    assert (Memory.resultAllocateMemory dev = VK_SUCCESS)
      by (by destruct (decide (Memory.resultAllocateMemory dev = VK_SUCCESS))).
    split; [by intros [= ->] | by intros (_ & [= ->] & _)]. }
  split; [exact Hiff|]. split.
  - intros i Hi. split; [by apply createBuffer_returns|].
    intros Hcount. apply Hiff in Hi as (_ & Hfind & _).
    destruct (findMemoryType_inr _ _ _ _ Hcount Hfind) as (_ & Hs & Hmin). by split.
  - intros e.
    unfold Memory.createBuffer, Memory.lift_exn, mbind, Run_bind, emit, throw, mret, Run_ret.
    cbn [outcome calls].
    case_bool_decide as Hc; cbn [outcome calls app].
    { intros _. split; [done|]. split; unfold not; trace_elem. }
    destruct (Memory.findMemoryType _ _ _) as [e'|j]; cbn [outcome calls app].
    { intros _. split; [done|]. split; unfold not; trace_elem. }
    case_bool_decide as Ha; cbn [outcome calls app]; [|done].
    intros _. split; [done|]. split; unfold not; trace_elem.
Qed.

Lemma createBuffer_returns_witness :
  outcome (Memory.createBuffer Demo.device 1024 0x6) = inr 1
  ∧ calls (Memory.createBuffer Demo.device 1024 0x6)
    = [CreateBuffer 1024; AllocateMemory 1; BindMemory].
Proof.
  assert (outcome (Memory.createBuffer Demo.device 1024 0x6) = inr 1) as Hr by reflexivity.
  split; [exact Hr|].
  exact (proj1 (proj1 (proj2 (createBuffer_returns_iff_and_leaks_on_failure
                                Demo.device 1024 0x6)) 1 Hr)).
Defined.

Lemma createImage_returns_iff dev w h m p i :
  outcome (Memory.createImage dev w h m p) = inr i ↔
    Memory.resultCreateImage dev = VK_SUCCESS
    ∧ Memory.findMemoryType (Memory.memProperties dev)
        (Memory.imageMemoryTypeBits dev) p = inr i
    ∧ Memory.resultAllocateMemory dev = VK_SUCCESS.
Proof.
  unfold Memory.createImage, Memory.lift_exn, mbind, Run_bind, emit, throw, mret, Run_ret.
  cbn [outcome calls].
  case_bool_decide as Hc; cbn [outcome calls]; [split; [done | by intros [? _]]|].
  destruct (Memory.findMemoryType _ _ _) as [e|j]; cbn [outcome calls];
    [split; [done | by intros (_ & ? & _)]|].
  case_bool_decide as Ha; cbn [outcome calls]; [split; [done | by intros (_ & _ & ?)]|].
  assert (Memory.resultCreateImage dev = VK_SUCCESS)
    by (by destruct (decide (Memory.resultCreateImage dev = VK_SUCCESS))).
  assert (Memory.resultAllocateMemory dev = VK_SUCCESS)
    by (by destruct (decide (Memory.resultAllocateMemory dev = VK_SUCCESS))).
  split; [by intros [= ->] | by intros (_ & [= ->] & _)].
Qed.

Lemma bind_inr_eq {A B} (m : Run A) (f : A → Run B) (a : A) :
  outcome m = inr a →
  m ≫= f = mkRun (calls m ++ calls (f a)) (outcome (f a)).
Proof. intros H. unfold mbind, Run_bind. by rewrite H. Qed.

(** X17. [createTextureImage] returns normally exactly when the pixels
    were loaded, the staging buffer and the image could be created, and the
    format supports linear filtering.  A failed load throws before any
    Vulkan call.  A format without linear filtering is only detected after the
    image has been created and filled and the staging buffer released: the
    function then throws without having recorded any blit. *)
Theorem createTextureImage_returns_iff_and_failure_order
    (dev : Memory.Device) (a : Texture.StbiAnswer) (img : VkImage) :
  let r := Texture.createTextureImage dev a img in
  let loaded := {| Texture.m_width := u32 (Texture.textureWidth a);
                   Texture.m_height := u32 (Texture.textureHeight a);
                   Texture.m_channels := u32 (Texture.textureChannels a) |} in
  let staging := Memory.createBuffer dev (Texture.imageSize_of loaded)
                   (Z.lor VK_MEMORY_PROPERTY_HOST_VISIBLE_BIT
                          VK_MEMORY_PROPERTY_HOST_COHERENT_BIT) in
  let image := Memory.createImage dev (Texture.m_width loaded) (Texture.m_height loaded)
                 (Texture.mipLevels_of loaded) VK_MEMORY_PROPERTY_DEVICE_LOCAL_BIT in
  let linear := Z.land (Memory.optimalTilingFeatures dev VK_FORMAT_R8G8B8A8_SRGB)
                       VK_FORMAT_FEATURE_SAMPLED_IMAGE_FILTER_LINEAR_BIT in
  (returns r ↔
     Texture.pixels_loaded a = true ∧ returns staging ∧ returns image ∧ linear ≠ 0)
  ∧ (Texture.pixels_loaded a = false →
       r = mkRun [] (inl (runtime_error "failed to load texture image!")))
  ∧ (Texture.pixels_loaded a = true → returns staging → returns image → linear = 0 →
       outcome r
       = inl (runtime_error "texture image format does not support linear blitting!")
       ∧ CreateImage (Texture.m_width loaded) (Texture.m_height loaded)
           (Texture.mipLevels_of loaded) ∈ calls r
       ∧ last (calls r) = Some FreeMemory
       ∧ blits (calls r) = []).
Proof.
  intros r loaded staging image linear.
  assert (Texture.pixels_loaded a = true → ∀ i1 i2,
            outcome staging = inr i1 → outcome image = inr i2 →
            outcome r = outcome (Mipmap.generateMipmaps dev img VK_FORMAT_R8G8B8A8_SRGB
                                   (Texture.i32 (Texture.m_width loaded))
                                   (Texture.i32 (Texture.m_height loaded))
                                   (Texture.mipLevels_of loaded) ≫= λ _,
                                 mret {| Texture.m_textureImage := img;
                                         Texture.m_mipLevels := Texture.mipLevels_of loaded |})
            ∧ calls r
              = [CreateBuffer (Texture.imageSize_of loaded); AllocateMemory i1; BindMemory;
                 MapCopyUnmap (Texture.imageSize_of loaded);
                 CreateImage (Texture.m_width loaded) (Texture.m_height loaded)
                   (Texture.mipLevels_of loaded);
                 AllocateMemory i2; BindMemory;
                 AllocateCommandBuffers; BeginCommandBuffer;
                 CmdPipelineBarrier VK_PIPELINE_STAGE_TOP_OF_PIPE_BIT
                   VK_PIPELINE_STAGE_TRANSFER_BIT
                   {| oldLayout := VK_IMAGE_LAYOUT_UNDEFINED;
                      newLayout := VK_IMAGE_LAYOUT_TRANSFER_DST_OPTIMAL;
                      image := img;
                      baseMipLevel := 0;
                      levelCount := Texture.mipLevels_of loaded;
                      srcAccessMask := 0;
                      dstAccessMask := VK_ACCESS_TRANSFER_WRITE_BIT |};
                 EndCommandBuffer; QueueSubmitOneShot; QueueWaitIdle; FreeCommandBuffers;
                 AllocateCommandBuffers; BeginCommandBuffer;
                 CmdCopyBufferToImage img (Texture.m_width loaded) (Texture.m_height loaded);
                 EndCommandBuffer; QueueSubmitOneShot; QueueWaitIdle; FreeCommandBuffers;
                 DestroyBuffer; FreeMemory]
                ++ calls (Mipmap.generateMipmaps dev img VK_FORMAT_R8G8B8A8_SRGB
                            (Texture.i32 (Texture.m_width loaded))
                            (Texture.i32 (Texture.m_height loaded))
                            (Texture.mipLevels_of loaded) ≫= λ _,
                          mret {| Texture.m_textureImage := img;
                                  Texture.m_mipLevels := Texture.mipLevels_of loaded |}))
    as Hrun.
  { intros Hl i1 i2 Hi1 Hi2. subst r staging image. unfold Texture.createTextureImage.
    rewrite (load_loaded a Hl). fold loaded.
    pose proof (createBuffer_returns _ _ _ _ Hi1) as Hc1.
    pose proof (createImage_returns _ _ _ _ _ _ Hi2) as Hc2.
    rewrite (bind_inr_eq (Memory.lift_exn (inr loaded)) _ loaded eq_refl). cbn beta zeta.
    rewrite (bind_inr_eq _ _ i1 Hi1). cbn beta.
    rewrite (bind_inr_eq (emit _) _ tt eq_refl). cbn beta.
    rewrite (bind_inr_eq _ _ i2 Hi2). cbn beta.
    rewrite (bind_inr_eq (Transfer.transitionImageLayout img VK_FORMAT_R8G8B8A8_SRGB
               VK_IMAGE_LAYOUT_UNDEFINED VK_IMAGE_LAYOUT_TRANSFER_DST_OPTIMAL
               (Texture.mipLevels_of loaded)) _ tt eq_refl). cbn beta.
    rewrite (bind_inr_eq (Texture.copyBufferToImage _ _ _) _ tt eq_refl). cbn beta.
    rewrite (bind_inr_eq (emit DestroyBuffer) _ tt eq_refl). cbn beta.
    rewrite (bind_inr_eq (emit FreeMemory) _ tt eq_refl). cbn beta.
    cbn [outcome calls]. rewrite Hc1, Hc2. split; reflexivity. }
  split; [|split].
  - split.
    + intros [t Ht]. destruct (Texture.pixels_loaded a) eqn:Hl.
      * subst r. unfold Texture.createTextureImage in Ht.
        rewrite (load_loaded a Hl) in Ht. fold loaded in Ht. cbn [Memory.lift_exn] in Ht.
        apply bind_returns in Ht as (t0 & _ & Ht & _).
        apply bind_returns in Ht as (i1 & Hi1 & Ht & _).
        apply bind_returns in Ht as ([] & _ & Ht & _).
        apply bind_returns in Ht as (i2 & Hi2 & Ht & _).
        apply bind_returns in Ht as ([] & _ & Ht & _).
        apply bind_returns in Ht as ([] & _ & Ht & _).
        apply bind_returns in Ht as ([] & _ & Ht & _).
        apply bind_returns in Ht as ([] & _ & Ht & _).
        apply bind_returns in Ht as ([] & Hgen & _ & _).
        split; [done|]. split; [by exists i1|]. split; [by exists i2|].
        intros Hbad. unfold Mipmap.generateMipmaps in Hgen.
        subst linear. rewrite Hbad in Hgen. done.
      * subst r. unfold Texture.createTextureImage, Texture.load in Ht.
        rewrite Hl in Ht. done.
    + intros (Hl & [i1 Hi1] & [i2 Hi2] & Hlin).
      destruct (Hrun Hl i1 i2 Hi1 Hi2) as [Ho _].
      rewrite (generateMipmaps_run _ _ _ _ _ _ Hlin) in Ho.
      eexists. rewrite Ho. reflexivity.
  - intros Hl. subst r. unfold Texture.createTextureImage, Texture.load.
    rewrite Hl. reflexivity.
  - intros Hl [i1 Hi1] [i2 Hi2] Hlin.
    destruct (Hrun Hl i1 i2 Hi1 Hi2) as [Ho Hc].
    assert (Mipmap.generateMipmaps dev img VK_FORMAT_R8G8B8A8_SRGB
              (Texture.i32 (Texture.m_width loaded))
              (Texture.i32 (Texture.m_height loaded))
              (Texture.mipLevels_of loaded)
            = mkRun [] (inl (runtime_error
                "texture image format does not support linear blitting!"))) as Hgen.
    { unfold Mipmap.generateMipmaps. subst linear. rewrite Hlin. reflexivity. }
    rewrite Hgen in Ho, Hc. rewrite Ho, Hc.
    split; [reflexivity|]. split; [cbn [app calls mbind Run_bind outcome]; trace_elem|].
    split; reflexivity.
Qed.

Lemma createTextureImage_failure_order_witness :
  Texture.pixels_loaded
    {| Texture.pixels_loaded := false; Texture.textureWidth := 0;
       Texture.textureHeight := 0; Texture.textureChannels := 0 |} = false
  ∧ Texture.createTextureImage Demo.device
      {| Texture.pixels_loaded := false; Texture.textureWidth := 0;
         Texture.textureHeight := 0; Texture.textureChannels := 0 |} 7
    = mkRun [] (inl (runtime_error "failed to load texture image!")).
Proof.
  split; [reflexivity|].
  exact (proj1 (proj2 (createTextureImage_returns_iff_and_failure_order Demo.device
           {| Texture.pixels_loaded := false; Texture.textureWidth := 0;
              Texture.textureHeight := 0; Texture.textureChannels := 0 |} 7))
         eq_refl).
Defined.

(** ** Mipmap generator: what is recorded *)

Lemma mip_loop_barriers img m n : ∀ i w h,
  1 ≤ i → m ≤ 2 ^ 32 → Z.of_nat n = Z.max 0 (m - i) →
  length (barriers (Mipmap.mip_loop img m i w h)) = (2 * n)%nat
  ∧ Forall (λ b, image b = img ∧ levelCount b = 1 ∧ i - 1 ≤ baseMipLevel b < m - 1)
           (barriers (Mipmap.mip_loop img m i w h)).
Proof.
  induction n as [|n IH]; intros i w h Hi Hm Hn; rewrite mip_loop_step.
  - case_decide; [lia | done].
  - case_decide; [|lia].
    unfold barriers at 1 2. rewrite omap_app.
    fold (barriers (Mipmap.mip_loop img m (i + 1) (Mipmap.halve w) (Mipmap.halve h))).
    destruct (IH (i + 1) (Mipmap.halve w) (Mipmap.halve h)) as [Hlen Hall]; [lia..|].
    cbn [Mipmap.mip_iteration omap app option_bind mbind length].
    rewrite u32_small by lia. split; [simpl; lia|].
    repeat (apply Forall_cons; split; [cbn; split; [done|]; split; [done | lia]|]).
    eapply Forall_impl; [exact Hall|]. intros b (? & ? & ?). repeat split; try done; lia.
Qed.

(** X18. With [1 <= mipLevels] and linear filtering available,
    [generateMipmaps] records [mipLevels - 1] blits and [2 * mipLevels - 1]
    barriers.  Every barrier is on this image and covers exactly one mip
    level that exists; every blit reads a level and writes the next one, which
    exists too. *)
Theorem generateMipmaps_records_only_existing_levels
    (dev : Memory.Device) (img : VkImage) (fmt : VkFormat) (w h m : Z) :
  Z.land (Memory.optimalTilingFeatures dev fmt)
         VK_FORMAT_FEATURE_SAMPLED_IMAGE_FILTER_LINEAR_BIT ≠ 0 →
  1 ≤ m ≤ UINT32_MAX →
  let r := Mipmap.generateMipmaps dev img fmt w h m in
  Z.of_nat (length (blits (calls r))) = m - 1
  ∧ Z.of_nat (length (barriers (calls r))) = 2 * m - 1
  ∧ Forall (λ b, image b = img ∧ levelCount b = 1 ∧ 0 ≤ baseMipLevel b < m)
           (barriers (calls r))
  ∧ Forall (λ b, 0 ≤ srcMipLevel b ∧ dstMipLevel b = srcMipLevel b + 1 ∧ dstMipLevel b < m)
           (blits (calls r)).
Proof.
  intros Hf Hm r. subst r. unfold UINT32_MAX in Hm.
  rewrite (generateMipmaps_run _ _ _ _ _ _ Hf). cbn [calls].
  rewrite blits_generateMipmaps.
  rewrite (mip_loop_blits img m (Z.to_nat (m - 1)) 1 w h) by lia.
  destruct (mip_loop_barriers img m (Z.to_nat (m - 1)) 1 w h) as [Hlen Hall]; [lia..|].
  assert (barriers ([AllocateCommandBuffers; BeginCommandBuffer]
                    ++ Mipmap.mip_loop img m 1 w h
                    ++ [Mipmap.last_barrier img m; EndCommandBuffer; QueueSubmitOneShot;
                        QueueWaitIdle; FreeCommandBuffers])
          = barriers (Mipmap.mip_loop img m 1 w h)
            ++ [ {| oldLayout := VK_IMAGE_LAYOUT_TRANSFER_DST_OPTIMAL;
                    newLayout := VK_IMAGE_LAYOUT_SHADER_READ_ONLY_OPTIMAL;
                    image := img;
                    baseMipLevel := m - 1;
                    levelCount := 1;
                    srcAccessMask := VK_ACCESS_TRANSFER_WRITE_BIT;
                    dstAccessMask := VK_ACCESS_SHADER_READ_BIT |} ]) as ->.
  { unfold barriers. rewrite !omap_app. cbn. by rewrite u32_small by lia. }
  rewrite length_fmap, length_seq, length_app, Hlen. cbn [length].
  split; [lia|]. split; [lia|]. split.
  - apply Forall_app. split.
    + eapply Forall_impl; [exact Hall|]. intros b (? & ? & ?). repeat split; try done; lia.
    + apply Forall_singleton. cbn. repeat split; try done; lia.
  - apply Forall_fmap, Forall_forall. intros k Hk%elem_of_seq. cbn. lia.
Qed.

Lemma generateMipmaps_records_witness :
  Z.of_nat (length (blits (calls (Mipmap.generateMipmaps Demo.device 7
                                    VK_FORMAT_R8G8B8A8_SRGB 800 600 10)))) = 9
  ∧ Z.of_nat (length (barriers (calls (Mipmap.generateMipmaps Demo.device 7
                                         VK_FORMAT_R8G8B8A8_SRGB 800 600 10)))) = 19.
Proof.
  pose proof (generateMipmaps_records_only_existing_levels Demo.device 7
                VK_FORMAT_R8G8B8A8_SRGB 800 600 10
                ltac:(vm_compute; discriminate) ltac:(unfold UINT32_MAX; lia)) as H.
  split; [exact (proj1 H) | exact (proj1 (proj2 H))].
Defined.

(** X19. With [mipLevels = 0] the loop of [generateMipmaps] does not run,
    and [mipLevels - 1] wraps: the only barrier recorded is on mip level
    4294967295, which no image with fewer than 2^32 levels has. *)
Theorem generateMipmaps_zero_levels_barrier_wraps
    (dev : Memory.Device) (img : VkImage) (fmt : VkFormat) (w h : Z)
    (ls : list VkImageLayout) :
  Z.land (Memory.optimalTilingFeatures dev fmt)
         VK_FORMAT_FEATURE_SAMPLED_IMAGE_FILTER_LINEAR_BIT ≠ 0 →
  Z.of_nat (length ls) < 2 ^ 32 →
  let r := Mipmap.generateMipmaps dev img fmt w h 0 in
  returns r
  ∧ blits (calls r) = []
  ∧ baseMipLevel <$> barriers (calls r) = [4294967295]
  ∧ ImageState.exec_calls (calls r) ls = None.
Proof.
  intros Hf Hls r. subst r.
  rewrite (generateMipmaps_run _ _ _ _ _ _ Hf). cbn [calls].
  rewrite mip_loop_step. case_decide; [lia|].
  split; [by eexists|]. split; [reflexivity|]. split; [reflexivity|].
  assert (∀ b, baseMipLevel b = 4294967295 → levelCount b = 1 →
               ImageState.apply_barrier ls b = None) as Hnone.
  { intros b Hb Hc. unfold ImageState.apply_barrier. rewrite Hb, Hc.
    rewrite (bool_decide_false (_ ≤ length ls)%nat) by lia.
    by rewrite andb_false_r. }
  unfold Mipmap.last_barrier.
  cbn [app ImageState.exec_calls ImageState.exec_call mbind option_bind].
  rewrite Hnone by reflexivity. reflexivity.
Qed.

Lemma generateMipmaps_zero_levels_witness :
  baseMipLevel <$> barriers (calls (Mipmap.generateMipmaps Demo.device 7
                                      VK_FORMAT_R8G8B8A8_SRGB 1 1 0)) = [4294967295].
Proof.
  exact (proj1 (proj2 (proj2 (generateMipmaps_zero_levels_barrier_wraps Demo.device 7
           VK_FORMAT_R8G8B8A8_SRGB 1 1 [VK_IMAGE_LAYOUT_TRANSFER_DST_OPTIMAL]
           ltac:(vm_compute; discriminate) ltac:(simpl; lia))))).
Defined.

(** ** Swapchain extent *)

(** X20. When the surface leaves the extent to the application and its
    limits are ordered 32-bit values, the extent [selectSwapExtent] chooses
    lies within them in both dimensions, whatever the window reports; a window
    size that lies within the limits is chosen unchanged. *)
Theorem selectSwapExtent_within_surface_limits
    (now : Swapchain.Moment) (caps : Swapchain.VkSurfaceCapabilitiesKHR) :
  width (Swapchain.currentExtent caps) = UINT32_MAX →
  0 ≤ width (Swapchain.minImageExtent caps) ≤ width (Swapchain.maxImageExtent caps) →
  0 ≤ height (Swapchain.minImageExtent caps) ≤ height (Swapchain.maxImageExtent caps) →
  width (Swapchain.maxImageExtent caps) ≤ UINT32_MAX →
  height (Swapchain.maxImageExtent caps) ≤ UINT32_MAX →
  let e := Swapchain.selectSwapExtent now caps in
  (width (Swapchain.minImageExtent caps) ≤ width e ≤ width (Swapchain.maxImageExtent caps)
   ∧ height (Swapchain.minImageExtent caps) ≤ height e
       ≤ height (Swapchain.maxImageExtent caps))
  ∧ (width (Swapchain.minImageExtent caps) ≤ (Swapchain.glfwGetWindowSize now).1
       ≤ width (Swapchain.maxImageExtent caps) →
     height (Swapchain.minImageExtent caps) ≤ (Swapchain.glfwGetWindowSize now).2
       ≤ height (Swapchain.maxImageExtent caps) →
     e = {| width := (Swapchain.glfwGetWindowSize now).1;
            height := (Swapchain.glfwGetWindowSize now).2 |}).
Proof.
  intros Hs Hw Hh Hmw Hmh e. subst e. unfold UINT32_MAX in Hmw, Hmh.
  unfold Swapchain.selectSwapExtent. rewrite Hs, Z.eqb_refl. cbn [negb].
  destruct (Swapchain.glfwGetWindowSize now) as [ww wh]. cbn [fst snd width height].
  split.
  - split; apply clamp_bounds; lia.
  - intros Hww Hwh. rewrite !u32_small by lia. unfold Swapchain.clamp.
    destruct (Z.ltb_spec ww (width (Swapchain.minImageExtent caps))); [lia|].
    destruct (Z.ltb_spec (width (Swapchain.maxImageExtent caps)) ww); [lia|].
    destruct (Z.ltb_spec wh (height (Swapchain.minImageExtent caps))); [lia|].
    destruct (Z.ltb_spec (height (Swapchain.maxImageExtent caps)) wh); [lia|].
    reflexivity.
Qed.

Lemma selectSwapExtent_within_limits_witness :
  Swapchain.selectSwapExtent Demo.hidpi (Swapchain.capabilities Demo.hidpi)
  = {| width := 800; height := 600 |}.
Proof.
  exact (proj2 (selectSwapExtent_within_surface_limits Demo.hidpi
                  (Swapchain.capabilities Demo.hidpi)
                  eq_refl ltac:(simpl; lia) ltac:(simpl; lia)
                  ltac:(unfold UINT32_MAX; simpl; lia) ltac:(unfold UINT32_MAX; simpl; lia))
           ltac:(simpl; lia) ltac:(simpl; lia)).
Defined.

(** ** Index buffer upload *)

Lemma ubind_inr_eq {A B} (m : Upload.URun A) (f : A → Upload.URun B) (a : A) :
  Upload.uoutcome m = inr a →
  m ≫= f = Upload.mkURun (Upload.ucalls m ++ Upload.ucalls (f a)) (Upload.uoutcome (f a)).
Proof. intros H. unfold mbind, Upload.URun_bind. by rewrite H. Qed.

Lemma ubind_inl_eq {A B} (m : Upload.URun A) (f : A → Upload.URun B) (e : exn) :
  Upload.uoutcome m = inl e →
  m ≫= f = Upload.mkURun (Upload.ucalls m) (inl e).
Proof. intros H. unfold mbind, Upload.URun_bind. by rewrite H. Qed.

(** [createBuffer] destroys no buffer and frees no memory, however it ends. *)
Lemma createBuffer_releases_nothing dev size properties :
  (DestroyBuffer ∉ calls (Memory.createBuffer dev size properties))
  ∧ (FreeMemory ∉ calls (Memory.createBuffer dev size properties)).
Proof.
  unfold Memory.createBuffer, Memory.lift_exn, mbind, Run_bind, emit, throw, mret, Run_ret.
  cbn [outcome calls].
  case_bool_decide; cbn [outcome calls app]; [split; trace_elem|].
  destruct (Memory.findMemoryType _ _ _) as [e|j]; cbn [outcome calls app];
    [split; trace_elem|].
  case_bool_decide; cbn [outcome calls app]; split; trace_elem.
Qed.

(** X21. [createIndexBuffer] asks for a staging buffer and an index buffer
    of the same size, four bytes per index, and copies exactly that many bytes
    twice: from the host into the staging buffer, then between the buffers.
    The staging buffer is destroyed only after the queue has been waited for.
    When creating the index buffer fails, the exception leaves the function
    with the staging buffer never destroyed and its memory never freed. *)
Theorem createIndexBuffer_sizes_agree_and_staging_leaks_on_failure
    (staging target : Memory.Device) (indices : list Z) (i1 : Z) :
  let size := 4 * Z.of_nat (length indices) in
  let r := Upload.createIndexBuffer staging target indices in
  size < 2 ^ 64 →
  outcome (Memory.createBuffer staging size
             (Z.lor VK_MEMORY_PROPERTY_HOST_VISIBLE_BIT
                    VK_MEMORY_PROPERTY_HOST_COHERENT_BIT)) = inr i1 →
  (∀ i2, outcome (Memory.createBuffer target size VK_MEMORY_PROPERTY_DEVICE_LOCAL_BIT)
         = inr i2 →
     r = Upload.mkURun
           ((Upload.Core <$>
               [CreateBuffer size; AllocateMemory i1; BindMemory; MapCopyUnmap size;
                CreateBuffer size; AllocateMemory i2; BindMemory;
                AllocateCommandBuffers; BeginCommandBuffer])
            ++ [Upload.CmdCopyBuffer size]
            ++ (Upload.Core <$>
                  [EndCommandBuffer; QueueSubmitOneShot; QueueWaitIdle; FreeCommandBuffers;
                   DestroyBuffer; FreeMemory]))
           (inr tt))
  ∧ (∀ e, outcome (Memory.createBuffer target size VK_MEMORY_PROPERTY_DEVICE_LOCAL_BIT)
          = inl e →
       Upload.uoutcome r = inl e
       ∧ take 4 (Upload.ucalls r)
         = Upload.Core <$> [CreateBuffer size; AllocateMemory i1; BindMemory;
                            MapCopyUnmap size]
       ∧ (Upload.Core DestroyBuffer ∉ Upload.ucalls r)
       ∧ (Upload.Core FreeMemory ∉ Upload.ucalls r)).
Proof.
  intros size r Hsize Hi1. subst r. unfold Upload.createIndexBuffer.
  assert (Upload.u64 (4 * Z.of_nat (length indices)) = size) as ->.
  { unfold Upload.u64. apply Z.mod_small. subst size. lia. }
  pose proof (createBuffer_returns _ _ _ _ Hi1) as Hc1.
  rewrite (ubind_inr_eq (Upload.core (Memory.createBuffer staging size _)) _ i1 Hi1).
  cbn beta.
  rewrite (ubind_inr_eq (Upload.core (emit (MapCopyUnmap size))) _ tt eq_refl). cbn beta.
  cbn [Upload.core Upload.ucalls Upload.uoutcome]. rewrite Hc1.
  split.
  - intros i2 Hi2. pose proof (createBuffer_returns _ _ _ _ Hi2) as Hc2.
    rewrite (ubind_inr_eq (Upload.core (Memory.createBuffer target size _)) _ i2 Hi2).
    cbn [Upload.core Upload.ucalls Upload.uoutcome]. rewrite Hc2. reflexivity.
  - intros e He.
    rewrite (ubind_inl_eq (Upload.core (Memory.createBuffer target size _)) _ e He).
    cbn [Upload.core Upload.ucalls Upload.uoutcome].
    split; [reflexivity|]. split; [reflexivity|].
    destruct (createBuffer_releases_nothing target size
                VK_MEMORY_PROPERTY_DEVICE_LOCAL_BIT) as [Hnd Hnf].
    rewrite <- !fmap_app. cbn [emit calls app].
    split; intros (c & [= <-] & Hin)%list_elem_of_fmap;
      rewrite !elem_of_cons in Hin; intuition discriminate.
Qed.

Lemma createIndexBuffer_witness :
  Upload.ucalls (Upload.createIndexBuffer Demo.device Demo.device [0; 1; 2; 2; 3; 0])
  = (Upload.Core <$>
       [CreateBuffer 24; AllocateMemory 1; BindMemory; MapCopyUnmap 24;
        CreateBuffer 24; AllocateMemory 2; BindMemory;
        AllocateCommandBuffers; BeginCommandBuffer])
    ++ [Upload.CmdCopyBuffer 24]
    ++ (Upload.Core <$>
          [EndCommandBuffer; QueueSubmitOneShot; QueueWaitIdle; FreeCommandBuffers;
           DestroyBuffer; FreeMemory]).
Proof.
  exact (f_equal Upload.ucalls
           (proj1 (createIndexBuffer_sizes_agree_and_staging_leaks_on_failure
                     Demo.device Demo.device [0; 1; 2; 2; 3; 0] 1
                     ltac:(simpl; lia) eq_refl) 2 eq_refl)).
Defined.
